(** * Credentials Manager: data store, import/merge, reorder, TOTP, delimiter detection

    A shallow embedding of the non-UI core of [src/app.js]:
    - [Utils]        string normalisation helpers (lines 12-57);
    - [DataStore]    account list, add/update/delete, reorder, import (lines 173-560);
    - [TOTP]         Base32 decoding, code generation and the bounded cache (lines 866-995);
    - [FileParser]   delimiter auto-detection (lines 1108-1126);
    - [Validation], [TextFormat]  format checks, the line parser and the TXT
                     export (lines 41-57, 1045-1103, 565-599);
    - [Scheduler]    the delay of the TOTP refresh timer (lines 3210-3215);
    - [Views], [Tags], [SearchManager]  sorted view, tag operations, the tag
                     merge of the JSON import, filter state (lines 355-433,
                     470-472, 1380-1449, 1920-1935, 2243-2329);
    - [AccountModal], [ImportModal]  the confirm handlers of the account
                     form and of the text import (lines 1664-1698, 1265-1300).

    Modelling conventions.
    - JavaScript strings are modelled as [string] over 8-bit characters; case
      mapping and white space follow the ASCII range (characters above 127 are
      caseless and not white space).
    - JavaScript numbers that hold array positions, counters and time windows
      are integers ([Z] or [nat]); 32-bit operators have their wrap-around
      written out.
    - The mutable store is passed explicitly: every operation takes a
      [DataStore] and returns its result together with the new [DataStore].
      The debounced [autoSave] is a counter of requests, [state.notify] a log.
    - [Utils.generateUUID()] and [Date.now()] are inputs of the operations
      that read them. *)

From Stdlib Require Import ZArith Ascii String.
From stdpp Require Import gmap strings list fin_maps.


(* ====================================================================== *)
(** ** Utilities                                                           *)
(* ====================================================================== *)

Module Utils.

(** The white space removed by [String.prototype.trim], ASCII range:
    TAB, LF, VT, FF, CR and SPACE. *)
Definition isWhiteSpace (c : ascii) : bool :=
  let n := nat_of_ascii c in
  ((9 <=? n)%nat && (n <=? 13)%nat) || (n =? 32)%nat.

Definition lowerChar (c : ascii) : ascii :=
  let n := nat_of_ascii c in
  if ((65 <=? n)%nat && (n <=? 90)%nat) then ascii_of_nat (n + 32) else c.

Definition upperChar (c : ascii) : ascii :=
  let n := nat_of_ascii c in
  if ((97 <=? n)%nat && (n <=? 122)%nat) then ascii_of_nat (n - 32) else c.

Fixpoint mapChars (f : ascii → ascii) (s : string) : string :=
  match s with
  | EmptyString => EmptyString
  | String c r => String (f c) (mapChars f r)
  end.

Definition toLowerCase : string → string := mapChars lowerChar.
Definition toUpperCase : string → string := mapChars upperChar.

Fixpoint trimStart (s : string) : string :=
  match s with
  | EmptyString => EmptyString
  | String c r => if isWhiteSpace c then trimStart r else s
  end.

Fixpoint trimEnd (s : string) : string :=
  match s with
  | EmptyString => EmptyString
  | String c r =>
      match trimEnd r with
      | EmptyString => if isWhiteSpace c then EmptyString else String c EmptyString
      | r' => String c r'
      end
  end.

Definition trim (s : string) : string := trimEnd (trimStart s).

(** A string in a boolean context: true unless empty. *)
Definition truthy (s : string) : bool :=
  match s with EmptyString => false | _ => true end.

(** [normalizeEmail(email)]: [email.toLowerCase().trim()]. *)
Definition normalizeEmail (email : string) : string := trim (toLowerCase email).

(** [normalizeTOTP(totp)]: [totp.toUpperCase().trim()]. *)
Definition normalizeTOTP (totp : string) : string := trim (toUpperCase totp).

(** [s.startsWith(p)]. *)
Fixpoint startsWith (p s : string) : bool :=
  match p, s with
  | EmptyString, _ => true
  | String a p', String b s' => Ascii.eqb a b && startsWith p' s'
  | String _ _, EmptyString => false
  end.

End Utils.

(* ====================================================================== *)
(** ** Data store                                                          *)
(* ====================================================================== *)

Module DataStore.
Import Utils.

Record Account := mkAccount {
  acc_id : string;
  acc_email : string;
  acc_password : string;
  acc_totp : string;
  acc_extras : list string;
  acc_tags : list string;
  acc_completed : bool;
  acc_favorite : bool;
  acc_addedAt : Z;
  acc_lastUsed : option Z;
  acc_order : Z
}.

(** A candidate record, the [accountData] / [newAcc] objects handed to
    [addAccount] and [importAccounts]; an [undefined] [extras] or [tags] is
    the empty list, which is what [|| []] makes of it. *)
Record Candidate := mkCandidate {
  c_email : string;
  c_password : string;
  c_totp : string;
  c_extras : list string;
  c_tags : list string
}.

(** The [updates] object of [updateAccount]; [None] is an absent key. *)
Record Updates := mkUpdates {
  u_email : option string;
  u_password : option string;
  u_totp : option string;
  u_extras : option (list string)
}.

Record Stats := mkStats { added : nat; updated : nat; skipped : nat }.

Inductive Event :=
| AccountAdded (a : Account)
| AccountUpdated (a : Account)
| AccountDeleted (a : Account)
| AccountsReordered (accountId : string) (newOrder : Z)
| AccountsImported (s : Stats).

Record DataStore := mkStore {
  accounts : list Account;
  autoSaveCalls : nat;
  notifications : list Event
}.

Definition set_order (o : Z) (a : Account) : Account :=
  mkAccount (acc_id a) (acc_email a) (acc_password a) (acc_totp a) (acc_extras a)
            (acc_tags a) (acc_completed a) (acc_favorite a) (acc_addedAt a)
            (acc_lastUsed a) o.

Definition set_totp (t : string) (a : Account) : Account :=
  mkAccount (acc_id a) (acc_email a) (acc_password a) t (acc_extras a)
            (acc_tags a) (acc_completed a) (acc_favorite a) (acc_addedAt a)
            (acc_lastUsed a) (acc_order a).

Definition set_extras (e : list string) (a : Account) : Account :=
  mkAccount (acc_id a) (acc_email a) (acc_password a) (acc_totp a) e
            (acc_tags a) (acc_completed a) (acc_favorite a) (acc_addedAt a)
            (acc_lastUsed a) (acc_order a).

Definition set_accounts (l : list Account) (ds : DataStore) : DataStore :=
  mkStore l (autoSaveCalls ds) (notifications ds).

(** [this.autoSave()] *)
Definition autoSave (ds : DataStore) : DataStore :=
  mkStore (accounts ds) (S (autoSaveCalls ds)) (notifications ds).

(** [this.state.notify(event, data)] *)
Definition notify (e : Event) (ds : DataStore) : DataStore :=
  mkStore (accounts ds) (autoSaveCalls ds) (notifications ds ++ [e]).

Definition hasId (i : string) (a : Account) : Prop := acc_id a = i.

#[global] Instance hasId_dec i a : Decision (hasId i a).
Proof. unfold hasId. apply _. Defined.

(** [getAccount(id)]: [accounts.find(acc => acc.id === id)]. *)
Definition getAccount (i : string) (ds : DataStore) : option Account :=
  snd <$> list_find (hasId i) (accounts ds).

(** [addAccount(accountData)], lines 247-266. *)
Definition addAccount (uuid : string) (now : Z) (accountData : Candidate)
    (ds : DataStore) : Account * DataStore :=
  let account :=
    {| acc_id := uuid;
       acc_email := normalizeEmail (c_email accountData);
       acc_password := c_password accountData;
       acc_totp := if truthy (c_totp accountData)
                   then normalizeTOTP (c_totp accountData) else "";
       acc_extras := c_extras accountData;
       acc_tags := c_tags accountData;
       acc_completed := false;
       acc_favorite := false;
       acc_addedAt := now;
       acc_lastUsed := None;
       acc_order := Z.of_nat (length (accounts ds)) |} in
  (account,
   notify (AccountAdded account)
     (autoSave (set_accounts (accounts ds ++ [account]) ds))).

(** [{ ...account, ...updates }] after the normalisation of lines 276-282. *)
Definition applyUpdates (updates : Updates) (a : Account) : Account :=
  let email' :=
    match u_email updates with
    | Some e => if truthy e then normalizeEmail e else e
    | None => acc_email a
    end in
  let totp' :=
    match u_totp updates with
    | Some t => if truthy t then normalizeTOTP t else ""
    | None => acc_totp a
    end in
  mkAccount (acc_id a) email' (default (acc_password a) (u_password updates)) totp'
            (default (acc_extras a) (u_extras updates))
            (acc_tags a) (acc_completed a) (acc_favorite a) (acc_addedAt a)
            (acc_lastUsed a) (acc_order a).

(** [updateAccount(id, updates)], lines 271-288. *)
Definition updateAccount (i : string) (updates : Updates) (ds : DataStore)
    : bool * DataStore :=
  match list_find (hasId i) (accounts ds) with
  | None => (false, ds)
  | Some (index, a) =>
      let a' := applyUpdates updates a in
      (true, notify (AccountUpdated a')
               (autoSave (set_accounts (<[index := a']> (accounts ds)) ds)))
  end.

(** [deleteAccount(id)], lines 293-301: [splice(index, 1)] and nothing else. *)
Definition deleteAccount (i : string) (ds : DataStore) : bool * DataStore :=
  match list_find (hasId i) (accounts ds) with
  | None => (false, ds)
  | Some (index, deleted) =>
      (true, notify (AccountDeleted deleted)
               (autoSave (set_accounts (delete index (accounts ds)) ds)))
  end.

(** The body of the [forEach] of lines 446-460. *)
Definition shiftOther (accountId : string) (oldOrder newOrder : Z) (acc : Account)
    : Account :=
  if decide (acc_id acc = accountId) then acc
  else if (oldOrder <? newOrder)%Z then
    if ((oldOrder <? acc_order acc) && (acc_order acc <=? newOrder))%Z
    then set_order (acc_order acc - 1) acc else acc
  else
    if ((newOrder <=? acc_order acc) && (acc_order acc <? oldOrder))%Z
    then set_order (acc_order acc + 1) acc else acc.

(** [reorderAccounts(accountId, newOrder)], lines 438-465. *)
Definition reorderAccounts (accountId : string) (newOrder : Z) (ds : DataStore)
    : bool * DataStore :=
  match list_find (hasId accountId) (accounts ds) with
  | None => (false, ds)
  | Some (index, account) =>
      let oldOrder := acc_order account in
      let moved := <[index := set_order newOrder account]> (accounts ds) in
      let shifted := shiftOther accountId oldOrder newOrder <$> moved in
      (true, notify (AccountsReordered accountId newOrder)
               (autoSave (set_accounts shifted ds)))
  end.

(** *** Import *)

(** [x.totp && x.totp.trim()] in a boolean context. *)
Definition hasTOTP (t : string) : bool := truthy t && truthy (trim t).

(** The duplicate test of lines 488-491. *)
Definition sameLogin (newAcc : Candidate) (acc : Account) : Prop :=
  normalizeEmail (acc_email acc) = normalizeEmail (c_email newAcc)
  ∧ acc_password acc = c_password newAcc.

#[global] Instance sameLogin_dec newAcc acc : Decision (sameLogin newAcc acc).
Proof. unfold sameLogin. apply _. Defined.

(** The extras loop (lines 504-510, 516-522, 536-542): each extra that the
    existing list does not include is pushed; the flag records a push. *)
Definition mergeExtras (existing new : list string) : list string * bool :=
  fold_left
    (λ (st : list string * bool) extra,
       if bool_decide (extra ∈ st.1) then st else (st.1 ++ [extra], true))
    new (existing, false).

Definition bump_added (s : Stats) := mkStats (S (added s)) (updated s) (skipped s).
Definition bump_updated (s : Stats) := mkStats (added s) (S (updated s)) (skipped s).
Definition bump_skipped (s : Stats) := mkStats (added s) (updated s) (S (skipped s)).

(** The "merge extras, then count" block shared by lines 515-528 and
    535-548: the found account gets the merged extras; the record counts as
    updated (with a notification) when something was pushed, else skipped. *)
Definition mergeAndCount (index : nat) (existing : Account) (newAcc : Candidate)
    (ds : DataStore) (stats : Stats) : DataStore * Stats :=
  let merged := mergeExtras (acc_extras existing) (c_extras newAcc) in
  let existing' := set_extras merged.1 existing in
  let ds' := set_accounts (<[index := existing']> (accounts ds)) ds in
  if merged.2 then (notify (AccountUpdated existing') ds', bump_updated stats)
  else (ds', bump_skipped stats).

(** One round of the [forEach] of [importAccounts], lines 486-555.
    [fresh k] is the UUID and the clock reading of the [k]-th insertion of
    this import. *)
Definition importOne (fresh : nat → string * Z) (st : DataStore * Stats)
    (newAcc : Candidate) : DataStore * Stats :=
  let '(ds, stats) := st in
  let insert :=
    ((addAccount (fresh (added stats)).1 (fresh (added stats)).2 newAcc ds).2,
     bump_added stats) in
  match list_find (sameLogin newAcc) (accounts ds) with
  | Some (index, existing) =>
      let existingHasTOTP := hasTOTP (acc_totp existing) in
      let newHasTOTP := hasTOTP (c_totp newAcc) in
      if existingHasTOTP && negb newHasTOTP then
        (ds, bump_skipped stats)
      else if negb existingHasTOTP && newHasTOTP then
        let merged := mergeExtras (acc_extras existing) (c_extras newAcc) in
        let existing' := set_extras merged.1 (set_totp (c_totp newAcc) existing) in
        (notify (AccountUpdated existing')
           (set_accounts (<[index := existing']> (accounts ds)) ds),
         bump_updated stats)
      else if existingHasTOTP && newHasTOTP then
        if String.eqb (acc_totp existing) (c_totp newAcc)
        then mergeAndCount index existing newAcc ds stats
        else insert
      else mergeAndCount index existing newAcc ds stats
  | None => insert
  end.

(** [importAccounts(accounts)], lines 483-560. *)
Definition importAccounts (fresh : nat → string * Z) (batch : list Candidate)
    (ds : DataStore) : Stats * DataStore :=
  let '(ds', stats) := fold_left (importOne fresh) batch (ds, mkStats 0 0 0) in
  (stats, notify (AccountsImported stats) (autoSave ds')).

End DataStore.

(* ====================================================================== *)
(** ** TOTP generation                                                     *)
(* ====================================================================== *)

Module TOTP.
Import Utils.

Definition MAX_CACHE_SIZE : nat := 100.

Definition alphabet : string := "ABCDEFGHIJKLMNOPQRSTUVWXYZ234567".

(** [ToInt32] and [ToUint32]: the wrap-around of the 32-bit operators. *)
Definition toUint32 (z : Z) : Z := z mod 2 ^ 32.
Definition toInt32 (z : Z) : Z := (z + 2 ^ 31) mod 2 ^ 32 - 2 ^ 31.

(** [a << n], [a >>> n], [a | b] and [a & b] on 32-bit operands. *)
Definition shl32 (a n : Z) : Z := toInt32 (Z.shiftl (toInt32 a) n).
Definition shru32 (a n : Z) : Z := Z.shiftr (toUint32 a) n.
Definition or32 (a b : Z) : Z := toInt32 (Z.lor (toInt32 a) (toInt32 b)).
Definition and32 (a b : Z) : Z := toInt32 (Z.land (toInt32 a) (toInt32 b)).

(** [alphabet.indexOf(char)] for a one-character [char]; [None] is -1. *)
Fixpoint indexOf (c : ascii) (s : string) : option nat :=
  match s with
  | EmptyString => None
  | String d r => if Ascii.eqb c d then Some 0%nat else S <$> indexOf c r
  end.

(** The [for] loop of [base32Decode], lines 880-891. [output] is the
    [Uint8Array]: a store past its end is dropped, as [<[_:=_]>] does.
    [None] is the thrown [Error('Invalid base32 character')]. *)
Fixpoint decodeLoop (encoded : string) (bits value : Z) (output : list Z)
    (index : nat) : option (list Z * nat) :=
  match encoded with
  | EmptyString => Some (output, index)
  | String ch rest =>
      let char := upperChar ch in
      if Ascii.eqb char "="%char then Some (output, index)
      else
        match indexOf char alphabet with
        | None => None
        | Some charIndex =>
            let value := or32 (shl32 value 5) (Z.of_nat charIndex) in
            let bits := (bits + 5)%Z in
            if (8 <=? bits)%Z then
              decodeLoop rest (bits - 8) value
                (<[index := and32 (shru32 value (bits - 8)) 255]> output) (S index)
            else decodeLoop rest bits value output index
        end
  end.

(** [base32Decode(encoded)], lines 873-893. *)
Definition base32Decode (encoded : string) : option (list Z) :=
  match decodeLoop encoded 0 0
          (replicate (String.length encoded * 5 / 8) 0%Z) 0 with
  | Some (output, index) => Some (take index output)
  | None => None
  end.

(** [getCurrentTimeWindow()], with [Date.now()] as argument. *)
Definition getCurrentTimeWindow (now : Z) : Z := (now / 1000 / 30)%Z.

Record CacheEntry := mkEntry { code : string; timeWindow : Z }.

(** [hmac[i]] inside a 32-bit expression: a read past the end is
    [undefined], which the bit operators take as 0. *)
Definition byteAt (bytes : list Z) (i : Z) : Z :=
  if (i <? 0)%Z then 0%Z else default 0%Z (bytes !! Z.to_nat i).

(** The 8 bytes of [timeBuffer] after [setUint32(4, currentWindow, false)]. *)
Definition timeBuffer (currentWindow : Z) : list Z :=
  let w := toUint32 currentWindow in
  [0; 0; 0; 0;
   Z.shiftr w 24 mod 256; Z.shiftr w 16 mod 256; Z.shiftr w 8 mod 256; w mod 256]%Z.

(** [s.padStart(n, '0')] *)
Definition padStart (n : nat) (s : string) : string :=
  String.append (string_of_list_ascii (replicate (n - String.length s) "0"%char)) s.

(** The character of a decimal digit. *)
Definition digitChar (d : Z) : ascii := ascii_of_nat (48 + Z.to_nat d).

(** The decimal digits of [n >= 0] put in front of [acc], last digit first. *)
Fixpoint digitsBefore (fuel : nat) (n : Z) (acc : string) : string :=
  match fuel with
  | O => acc
  | S k =>
      let acc' := String (digitChar (n mod 10)) acc in
      if (n <? 10)%Z then acc' else digitsBefore k (n / 10) acc'
  end.

(** [x.toString()] for an integer [x] below 10^21 in absolute value, the
    range in which JavaScript prints all the digits. *)
Definition toString (x : Z) : string :=
  if (x <? 0)%Z then String "-"%char (digitsBefore 21 (- x) EmptyString)
  else digitsBefore 21 x EmptyString.

(** Lines 937-942: offset, 31-bit code and the six digits. *)
Definition truncate (hmac : list Z) : string :=
  let offset := and32 (byteAt hmac (Z.of_nat (length hmac) - 1)) 15 in
  let code :=
    or32 (or32 (or32 (shl32 (and32 (byteAt hmac offset) 127) 24)
                     (shl32 (and32 (byteAt hmac (offset + 1)) 255) 16))
               (shl32 (and32 (byteAt hmac (offset + 2)) 255) 8))
         (and32 (byteAt hmac (offset + 3)) 255) in
  padStart 6 (toString (Z.rem code 1000000)).

(** [aggressiveCleanCache()], lines 974-987; [currentWindow] is its own
    reading of the clock. *)
Definition aggressiveCleanCache (currentWindow : Z)
    (cache : gmap string CacheEntry) : gmap string CacheEntry :=
  let purged :=
    filter (λ kv : string * CacheEntry, timeWindow kv.2 = currentWindow) cache in
  if (MAX_CACHE_SIZE <? size purged)%nat then ∅ else purged.

(** [cleanCache()], lines 962-969. *)
Definition cleanCache (currentWindow : Z)
    (cache : gmap string CacheEntry) : gmap string CacheEntry :=
  filter (λ kv : string * CacheEntry, ¬ (timeWindow kv.2 < currentWindow - 1)%Z) cache.

(** [clearAll()] *)
Definition clearAll (cache : gmap string CacheEntry) : gmap string CacheEntry := ∅.

Section Generate.
(** [crypto.subtle] HMAC-SHA1 of the platform: key, message, and the
    signature bytes; [None] is a rejected promise. *)
Variable hmacSha1 : list Z → list Z → option (list Z).

(** The code computed on a cache miss, lines 931-942; [None] is an
    exception caught by line 953. *)
Definition computeCode (secret : string) (currentWindow : Z) : option string :=
  match base32Decode secret with
  | None => None
  | Some key =>
      match hmacSha1 key (timeBuffer currentWindow) with
      | None => None
      | Some hmac => Some (truncate hmac)
      end
  end.

(** [generate(secret)], lines 920-957. [currentWindow] is the window read
    on entry (line 922), [cleanWindow] the one read by
    [aggressiveCleanCache] after the [await]. *)
Definition generate (currentWindow cleanWindow : Z) (secret : string)
    (cache : gmap string CacheEntry) : string * gmap string CacheEntry :=
  let miss :=
    match computeCode secret currentWindow with
    | None => ("Error", cache)
    | Some totpCode =>
        let cache' := <[secret := mkEntry totpCode currentWindow]> cache in
        (totpCode,
         if (MAX_CACHE_SIZE <? size cache')%nat
         then aggressiveCleanCache cleanWindow cache' else cache')
    end in
  match cache !! secret with
  | Some cached =>
      if decide (timeWindow cached = currentWindow) then (code cached, cache)
      else miss
  | None => miss
  end.
End Generate.

End TOTP.

(* ====================================================================== *)
(** ** File parser: delimiter detection                                    *)
(* ====================================================================== *)

Module FileParser.
Import Utils.

(** [s.split(sep)] for a non-empty separator [sep]: [skip] counts the
    characters of a matched separator that are still to be passed over.
    Matches are taken left to right and do not overlap. *)
Fixpoint splitFrom (sep : string) (skip : nat) (s : string) : list string :=
  match s with
  | EmptyString => [EmptyString]
  | String c r =>
      match skip with
      | S k => splitFrom sep k r
      | O =>
          if startsWith sep s then EmptyString :: splitFrom sep (String.length sep - 1) r
          else
            match splitFrom sep 0 r with
            | p :: ps => String c p :: ps
            | [] => [String c EmptyString]
            end
      end
  end.

Definition split (sep s : string) : list string := splitFrom sep 0 s.

Definition newline : string := String (ascii_of_nat 10) EmptyString.
Definition tab : string := String (ascii_of_nat 9) EmptyString.

Definition delimiters : list string := ["|"; ":"; ";"; ";;;"; ";;"; tab; ","].

(** [scores[key] = v] on an object with string keys: an existing key keeps
    its place, a new key goes last. *)
Fixpoint objectSet (key : string) (v : nat) (entries : list (string * nat))
    : list (string * nat) :=
  match entries with
  | [] => [(key, v)]
  | (k, w) :: r => if String.eqb k key then (k, v) :: r else (k, w) :: objectSet key v r
  end.

(** [Array.prototype.sort(cmp)], which is stable: an element goes before
    the first later element that [cmp] does not put ahead of it. *)
Fixpoint sortInsert {A} (cmp : A → A → Z) (x : A) (sorted : list A) : list A :=
  match sorted with
  | [] => [x]
  | y :: r => if (cmp x y <=? 0)%Z then x :: y :: r else y :: sortInsert cmp x r
  end.

Definition sort {A} (cmp : A → A → Z) (l : list A) : list A :=
  foldr (sortInsert cmp) [] l.

(** The comparator of line 1124: [(a, b) => b[1] - a[1]]. *)
Definition byScore (a b : string * nat) : Z := (Z.of_nat b.2 - Z.of_nat a.2)%Z.

(** The lines the detection looks at, line 1109. *)
Definition previewLines (content : string) : list string :=
  take 3 (List.filter (λ l, truthy (trim l) && negb (startsWith "#" l))
            (split newline content)).

(** The inner loop of lines 1116-1120. *)
Definition score (lines : list string) (delim : string) : nat :=
  fold_left (λ score line,
               if (3 <=? length (split delim line))%nat then S score else score)
            lines 0%nat.

(** [detectDelimiter(content)], lines 1108-1126; [None] is [null]. *)
Definition detectDelimiter (content : string) : option string :=
  let lines := previewLines content in
  if (length lines =? 0)%nat then None
  else
    let scores :=
      fold_left (λ scores delim, objectSet delim (score lines delim) scores)
                delimiters [] in
    match sort byScore scores with
    | best :: _ => if (0 <? best.2)%nat then Some best.1 else None
    | [] => None
    end.

End FileParser.

(* ====================================================================== *)
(** ** The platform's HMAC-SHA1                                            *)
(* ====================================================================== *)

(** [crypto.subtle.sign('HMAC', key, message)] with hash SHA-1 belongs to the
    browser, not to the application. This module writes the function out
    after RFC 3174 (SHA-1) and RFC 2104 (HMAC) so that [TOTP.generate] can be
    run on the published test vectors. Bytes and 32-bit words are integers. *)
Module WebCrypto.

Definition mask32 (z : Z) : Z := z mod 2 ^ 32.
Definition rotl (n x : Z) : Z := mask32 (Z.lor (Z.shiftl x n) (Z.shiftr x (32 - n))).
Definition not32 (x : Z) : Z := Z.lxor x (2 ^ 32 - 1).

Definition be32 (w : Z) : list Z :=
  [Z.shiftr w 24 mod 256; Z.shiftr w 16 mod 256; Z.shiftr w 8 mod 256; w mod 256]%Z.

(** Padding: a 1 bit, zeros, and the bit length on 64 bits. *)
Definition pad (msg : list Z) : list Z :=
  let l := Z.of_nat (length msg) in
  msg ++ [128%Z] ++ replicate (Z.to_nat ((55 - l) mod 64)) 0%Z
      ++ be32 (Z.shiftr (8 * l) 32) ++ be32 (mask32 (8 * l)).

Fixpoint words (bytes : list Z) : list Z :=
  match bytes with
  | a :: b :: c :: d :: r =>
      (Z.shiftl a 24 + Z.shiftl b 16 + Z.shiftl c 8 + d)%Z :: words r
  | _ => []
  end.

(** The message schedule, most recent word first. *)
Fixpoint schedule (n : nat) (w : list Z) : list Z :=
  match n with
  | O => w
  | S n' =>
      let x := Z.lxor (Z.lxor (nth 2 w 0%Z) (nth 7 w 0%Z))
                      (Z.lxor (nth 13 w 0%Z) (nth 15 w 0%Z)) in
      schedule n' (rotl 1 x :: w)
  end.

Definition f (t : nat) (b c d : Z) : Z :=
  if (t <? 20)%nat then Z.lor (Z.land b c) (Z.land (not32 b) d)
  else if (t <? 40)%nat then Z.lxor (Z.lxor b c) d
  else if (t <? 60)%nat then Z.lor (Z.lor (Z.land b c) (Z.land b d)) (Z.land c d)
  else Z.lxor (Z.lxor b c) d.

Definition K (t : nat) : Z :=
  if (t <? 20)%nat then 0x5A827999
  else if (t <? 40)%nat then 0x6ED9EBA1
  else if (t <? 60)%nat then 0x8F1BBCDC
  else 0xCA62C1D6.

Record Digest := mkDigest { hA : Z; hB : Z; hC : Z; hD : Z; hE : Z }.

Definition round (h : Digest) (tw : nat * Z) : Digest :=
  let temp := mask32 (rotl 5 (hA h) + f tw.1 (hB h) (hC h) (hD h) + hE h + K tw.1 + tw.2) in
  mkDigest temp (hA h) (rotl 30 (hB h)) (hC h) (hD h).

Definition block (h : Digest) (w16 : list Z) : Digest :=
  let w80 := rev (schedule 64 (rev w16)) in
  let r := fold_left round (zip (seq 0 80) w80) h in
  mkDigest (mask32 (hA h + hA r)) (mask32 (hB h + hB r)) (mask32 (hC h + hC r))
           (mask32 (hD h + hD r)) (mask32 (hE h + hE r)).

Fixpoint blocks (fuel : nat) (ws : list Z) (h : Digest) : Digest :=
  match fuel, ws with
  | S k, _ :: _ => blocks k (drop 16 ws) (block h (take 16 ws))
  | _, _ => h
  end.

Definition sha1 (msg : list Z) : list Z :=
  let ws := words (pad msg) in
  let h := blocks (length ws) ws
             (mkDigest 0x67452301 0xEFCDAB89 0x98BADCFE 0x10325476 0xC3D2E1F0) in
  be32 (hA h) ++ be32 (hB h) ++ be32 (hC h) ++ be32 (hD h) ++ be32 (hE h).

Definition hmac (key msg : list Z) : list Z :=
  let k0 := if (64 <? length key)%nat then sha1 key else key in
  let k := k0 ++ replicate (64 - length k0) 0%Z in
  sha1 ((Z.lxor 0x5c <$> k) ++ sha1 ((Z.lxor 0x36 <$> k) ++ msg)).

(** The signature promise of [TOTP.hmacSha1], always fulfilled here. *)
Definition hmacSha1 (key msg : list Z) : option (list Z) := Some (hmac key msg).

End WebCrypto.

(* ====================================================================== *)
(** ** Vocabulary of the properties                                        *)
(* ====================================================================== *)

Module Props.
Import Utils DataStore.

Definition orders (ds : DataStore) : list Z := acc_order <$> accounts ds.

(** The order values are exactly 0, ..., count-1, each once. *)
Definition dense (ds : DataStore) : Prop :=
  orders ds ≡ₚ seqZ 0 (Z.of_nat (length (accounts ds))).

(** Account ids are unique. *)
Definition uniqueIds (ds : DataStore) : Prop := NoDup (acc_id <$> accounts ds).

(** [existing] is what [find] of lines 488-491 returns for [newAcc]: the
    first account in store order with the same normalised email and the same
    password. *)
Definition firstMatch (newAcc : Candidate) (ds : DataStore) (index : nat)
    (existing : Account) : Prop :=
  accounts ds !! index = Some existing
  ∧ sameLogin newAcc existing
  ∧ ∀ j y, accounts ds !! j = Some y → (j < index)%nat → ¬ sameLogin newAcc y.

(** The reorder rule on order values, as the design states it: the moved
    account goes from [oldOrder] to [newOrder]; moving later, the orders in
    (oldOrder, newOrder] go down by one; moving earlier, the orders in
    [newOrder, oldOrder) go up by one; every other order stays. *)
Definition moveOrder (oldOrder newOrder o : Z) : Z :=
  if decide (o = oldOrder) then newOrder
  else if decide (oldOrder < newOrder ∧ oldOrder < o ≤ newOrder)%Z then (o - 1)%Z
  else if decide (newOrder < oldOrder ∧ newOrder ≤ o < oldOrder)%Z then (o + 1)%Z
  else o.

(** The duplicate key of a candidate and of an account. *)
Definition key (newAcc : Candidate) : string * string :=
  (normalizeEmail (c_email newAcc), c_password newAcc).

Definition accountKey (acc : Account) : string * string :=
  (normalizeEmail (acc_email acc), acc_password acc).

(** Both sides carry a secret and the two strings differ: the case in which
    the import inserts a second account for a known email and password. *)
Definition differentSecret (newAcc : Candidate) (existing : Account) : Prop :=
  trim (acc_totp existing) ≠ "" ∧ trim (c_totp newAcc) ≠ ""
  ∧ acc_totp existing ≠ c_totp newAcc.

(** The candidate's first match in the store, if any, does not carry a
    different secret. *)
Definition noConflict (ds : DataStore) (newAcc : Candidate) : Prop :=
  ∀ index existing,
    firstMatch newAcc ds index existing → ¬ differentSecret newAcc existing.

(** The candidate has a first match and it does not carry a different
    secret: a round of the import merges or skips, and does not insert. *)
Definition settled (c : Candidate) (ds : DataStore) : Prop :=
  ∃ index existing,
    list_find (sameLogin c) (accounts ds) = Some (index, existing)
    ∧ ¬ differentSecret c existing.

(** A secret that is present is already trimmed and upper-case. *)
Definition normalizedSecret (newAcc : Candidate) : Prop :=
  trim (c_totp newAcc) ≠ "" → normalizeTOTP (c_totp newAcc) = c_totp newAcc.

#[global] Instance differentSecret_dec newAcc existing :
  Decision (differentSecret newAcc existing).
Proof. unfold differentSecret. apply _. Defined.

(** *** The OTP algorithm in the words of the design *)

Definition isByte (b : Z) : Prop := (0 ≤ b < 256)%Z.

(** The window index on 8 bytes, most significant byte first. *)
Definition bigEndian8 (w : Z) : list Z :=
  [w / 256 ^ 7 mod 256; w / 256 ^ 6 mod 256; w / 256 ^ 5 mod 256;
   w / 256 ^ 4 mod 256; w / 256 ^ 3 mod 256; w / 256 ^ 2 mod 256;
   w / 256 mod 256; w mod 256]%Z.

(** RFC 4226 dynamic truncation of a 20-byte digest: the low four bits of
    the last byte give the offset; the four bytes from there, most
    significant first and with the top bit masked, give a 31-bit integer. *)
Definition dynamicTruncation (digest : list Z) : Z :=
  let offset := Z.to_nat (Z.land (nth 19 digest 0%Z) 0x0F) in
  (Z.land (nth offset digest 0) 0x7F * 2 ^ 24
   + nth (offset + 1)%nat digest 0 * 2 ^ 16
   + nth (offset + 2)%nat digest 0 * 2 ^ 8
   + nth (offset + 3)%nat digest 0)%Z.

(** The six decimal digits of [n], leading zeros kept. *)
Definition sixDigits (n : Z) : string :=
  string_of_list_ascii
    (TOTP.digitChar <$>
       [n / 100000 mod 10; n / 10000 mod 10; n / 1000 mod 10;
        n / 100 mod 10; n / 10 mod 10; n mod 10]%Z).

(** Every cached entry holds the code of its secret for its window. *)
Definition cacheSound (hmacSha1 : list Z → list Z → option (list Z))
    (cache : gmap string TOTP.CacheEntry) : Prop :=
  ∀ secret e, cache !! secret = Some e →
    TOTP.computeCode hmacSha1 secret (TOTP.timeWindow e) = Some (TOTP.code e).

(** The primitive returns 20 bytes whenever it returns. *)
Definition sha1Sized (hmacSha1 : list Z → list Z → option (list Z)) : Prop :=
  ∀ key msg digest, hmacSha1 key msg = Some digest →
    length digest = 20%nat ∧ Forall isByte digest.

(** A character of the Base32 alphabet, in either case. *)
Definition base32Char (c : ascii) : Prop :=
  is_Some (TOTP.indexOf (upperChar c) TOTP.alphabet).

(** The operations that touch the cache, and a run of them. *)
Inductive CacheOp :=
| Generate (currentWindow cleanWindow : Z) (secret : string)
| CleanCache (currentWindow : Z)
| ClearAll.

Definition applyOp (hmacSha1 : list Z → list Z → option (list Z))
    (cache : gmap string TOTP.CacheEntry) (op : CacheOp) : gmap string TOTP.CacheEntry :=
  match op with
  | Generate w w' secret => (TOTP.generate hmacSha1 w w' secret cache).2
  | CleanCache w => TOTP.cleanCache w cache
  | ClearAll => TOTP.clearAll cache
  end.

(** *** Delimiter detection in the words of the design *)

(** The number of lines that split into at least three parts. *)
Definition countScore (lines : list string) (delim : string) : nat :=
  length (filter (λ line, 3 ≤ length (FileParser.split delim line)) lines).

(** [d] stands at position [i] of the candidate list, no candidate scores
    higher, and every candidate before it scores lower. *)
Definition firstBest (f : string → nat) (candidates : list string) (i : nat)
    (d : string) : Prop :=
  candidates !! i = Some d
  ∧ ∀ j d', candidates !! j = Some d' → f d' ≤ f d ∧ (j < i → f d' < f d).

(** The first entry with the highest score. *)
Fixpoint firstMax (entries : list (string * nat)) : option (string * nat) :=
  match entries with
  | [] => None
  | x :: r =>
      match firstMax r with
      | None => Some x
      | Some m => if (m.2 <=? x.2)%nat then Some x else Some m
      end
  end.

(** The bytes of an ASCII string. *)
Definition bytesOf (s : string) : list Z :=
  (λ c, Z.of_nat (nat_of_ascii c)) <$> list_ascii_of_string s.

End Props.

(* ====================================================================== *)
(** ** Sample stores and batches                                           *)
(* ====================================================================== *)

Module Samples.
Import Utils DataStore.

Definition account (i e t : string) (o : Z) : Account :=
  mkAccount i e "pw" t [] [] false false 0 None o.

Definition secretX : string := "JBSWY3DPEHPK3PXPJBSWY3DPEHPK3PXP".
Definition secretX_lower : string := "jbswy3dpehpk3pxpjbswy3dpehpk3pxp".
Definition secretY : string := "GEZDGNBVGY3TQOJQGEZDGNBVGY3TQOJQ".

(** Three accounts in display order 0, 1, 2. *)
Definition three : DataStore :=
  mkStore [account "id-a" "a@x.com" "" 0; account "id-b" "b@x.com" "" 1;
           account "id-c" "c@x.com" "" 2] 0 [].

(** One account that carries a TOTP secret. *)
Definition withSecret : DataStore :=
  mkStore [account "id-a" "a@x.com" secretX 0] 0 [].

Definition empty : DataStore := mkStore [] 0 [].

(** The UUIDs and clock readings handed to an import. *)
Definition fresh (k : nat) : string * Z :=
  (String (ascii_of_nat (48 + k)) "-new", 1000%Z).

Definition candidate (e t : string) (ex : list string) : Candidate :=
  mkCandidate e "pw" t ex [].

(** Two candidates with one email and password and two different secrets. *)
Definition twoSecrets : list Candidate :=
  [candidate "a@x.com" secretX []; candidate "a@x.com" secretY []].

(** Candidates with pairwise different keys and secrets in normal form. *)
Definition plainBatch : list Candidate :=
  [candidate "A@x.com " secretX ["note"]; candidate "b@x.com" "" [];
   candidate "c@x.com" secretY ["n"; "m"]].

(** Two accounts for a TXT export: one with a secret and two extras, one
    with neither. *)
Definition forExport : DataStore :=
  mkStore [mkAccount "id-a" "a@x.com" "p w" secretX ["n"; "m"] ["t1"] true false 5 None 0;
           account "id-b" "b@x.com" "" 1] 0 [].

End Samples.

(* ====================================================================== *)
(** ** Further vocabulary: what an operation keeps                          *)
(* ====================================================================== *)

Module Frame.
Import Utils DataStore.

(** [a'] is the account [a] after an import: identity, login, flags, tags,
    dates and order are the same, the extras have only grown at the end, and
    a secret that was present is the same string. *)
Definition keeps (a a' : Account) : Prop :=
  acc_id a' = acc_id a
  ∧ acc_email a' = acc_email a
  ∧ acc_password a' = acc_password a
  ∧ acc_tags a' = acc_tags a
  ∧ acc_completed a' = acc_completed a
  ∧ acc_favorite a' = acc_favorite a
  ∧ acc_addedAt a' = acc_addedAt a
  ∧ acc_lastUsed a' = acc_lastUsed a
  ∧ acc_order a' = acc_order a
  ∧ acc_extras a `prefix_of` acc_extras a'
  ∧ (trim (acc_totp a) ≠ "" → acc_totp a' = acc_totp a).

(** Every account of [l] is still there in [l'], at its position, kept. *)
Definition keepsAll (l l' : list Account) : Prop :=
  ∀ i a, l !! i = Some a → ∃ a', l' !! i = Some a' ∧ keeps a a'.

End Frame.

(* ====================================================================== *)
(** ** Base32 as numbers, and the update timer                             *)
(* ====================================================================== *)

Module Base32Spec.
Import Utils.

(** The number spelled by a string of Base32 characters after [acc]: each
    character contributes five bits, most significant first. A character
    outside the alphabet counts as 0. *)
Fixpoint base32Number (acc : Z) (s : string) : Z :=
  match s with
  | EmptyString => acc
  | String c r =>
      base32Number (acc * 32 + Z.of_nat (default 0%nat (TOTP.indexOf (upperChar c) TOTP.alphabet))) r
  end.

(** The number spelled by a list of bytes, most significant first. *)
Definition bigEndian (bytes : list Z) : Z := fold_left (λ a b, a * 256 + b)%Z bytes 0%Z.

(** What follows the Base32 characters: nothing, or a pad character and
    anything after it. *)
Definition endsDecoding (stop : string) : Prop :=
  stop = EmptyString ∨ ∃ t, stop = String "="%char t.

End Base32Spec.

Module Scheduler.

(** The delay computed by [scheduleNextUpdate], lines 3210-3215, from the
    clock reading [now] in milliseconds. *)
Definition msUntilNextWindow (now : Z) : Z :=
  let currentSecond := (now / 1000)%Z in
  let currentWindow := (currentSecond / 30)%Z in
  let nextWindowStart := ((currentWindow + 1) * 30)%Z in
  (nextWindowStart * 1000 - now)%Z.

End Scheduler.

(* ====================================================================== *)
(** ** Validation helpers                                                  *)
(* ====================================================================== *)

Module Validation.
Import Utils.

(** [hay.includes(needle)] *)
Fixpoint includes (needle hay : string) : bool :=
  startsWith needle hay
  || match hay with
     | EmptyString => false
     | String _ r => includes needle r
     end.

(** [validateEmail(email)], lines 41-43. *)
Definition validateEmail (email : string) : bool :=
  includes "@" email && includes "." email.

(** A character of the class [A-Z0-9] under the flag [i]. *)
Definition isAlnum (c : ascii) : bool :=
  let n := nat_of_ascii c in
  ((48 <=? n)%nat && (n <=? 57)%nat)
  || ((65 <=? n)%nat && (n <=? 90)%nat)
  || ((97 <=? n)%nat && (n <=? 122)%nat).

(** [/^[A-Z0-9]+$/i.test(s)] *)
Definition allAlnum (s : string) : bool :=
  negb (String.eqb s EmptyString) && forallb isAlnum (list_ascii_of_string s).

(** [validateTOTP(totp)], lines 48-50. *)
Definition validateTOTP (totp : string) : bool :=
  (String.length totp =? 32)%nat && allAlnum totp.

#[global] Instance base32Char_dec c : Decision (Props.base32Char c).
Proof. unfold Props.base32Char. apply _. Defined.

(** [createAccountKey(email, password, totp)], lines 55-57. *)
Definition createAccountKey (email password totp : string) : string :=
  normalizeEmail email +:+ (":" +:+ (password +:+ (":" +:+ normalizeTOTP totp))).

End Validation.

(* ====================================================================== *)
(** ** File parser: records, and the text export                           *)
(* ====================================================================== *)

Module TextFormat.
Import Utils DataStore FileParser Validation.

(** [parts.join(sep)] *)
Fixpoint join (sep : string) (parts : list string) : string :=
  match parts with
  | [] => EmptyString
  | [p] => p
  | p :: rest => p +:+ (sep +:+ join sep rest)
  end.

(** An entry of [errors]: line number (from 1), message, trimmed line. *)
Record ParseError := mkError { err_line : nat; err_error : string; err_content : string }.

Inductive LineResult :=
| Skipped
| Parsed (account : Candidate)
| Failed (error : ParseError).

(** [s.split(sep)] for any separator: the empty one cuts between all
    characters. *)
Definition splitAny (sep s : string) : list string :=
  match sep with
  | EmptyString => (λ c, String c EmptyString) <$> list_ascii_of_string s
  | _ => split sep s
  end.

(** The body of the [for] loop of [parse], lines 1054-1099, for line [i]
    (from 0). The destructuring of [parts] reads a missing third field as
    [undefined], which the tests and [|| ''] treat like the empty string.
    Nothing in the [try] block throws on strings, so the [catch] is not
    modelled. *)
Definition parseLine (delimiter : string) (hasTOTP : bool) (i : nat) (raw : string)
    : LineResult :=
  let line := trim raw in
  if negb (truthy line) || startsWith "#" line then Skipped
  else
    let parts := trim <$> splitAny delimiter line in
    if (length parts <? 2)%nat then
      Failed (mkError (i + 1)
                "Not enough fields (need at least email and password)" line)
    else
      let email := nth 0 parts EmptyString in
      let password := nth 1 parts EmptyString in
      let totp := if hasTOTP then nth 2 parts EmptyString else EmptyString in
      let extras := if hasTOTP then drop 3 parts else drop 2 parts in
      if hasTOTP && truthy totp && negb (validateTOTP totp) then
        Failed (mkError (i + 1)
                  "Invalid TOTP (must be 32 alphanumeric chars or empty)" line)
      else if negb (validateEmail email) then
        Failed (mkError (i + 1) "Invalid email" line)
      else
        Parsed (mkCandidate email password totp (List.filter truthy extras) []).

(** The loop of [parse] over the lines from number [i] on. *)
Fixpoint parseFrom (delimiter : string) (hasTOTP : bool) (i : nat)
    (lines : list string) (accounts : list Candidate) (errors : list ParseError)
    : list Candidate * list ParseError :=
  match lines with
  | [] => (accounts, errors)
  | raw :: rest =>
      match parseLine delimiter hasTOTP i raw with
      | Skipped => parseFrom delimiter hasTOTP (S i) rest accounts errors
      | Parsed a => parseFrom delimiter hasTOTP (S i) rest (accounts ++ [a]) errors
      | Failed e => parseFrom delimiter hasTOTP (S i) rest accounts (errors ++ [e])
      end
  end.

(** [FileParser.parse(content, delimiter, fieldMapping)], lines 1045-1103;
    [hasTOTP] is [fieldMapping.hasTOTP]. *)
Definition parse (content delimiter : string) (hasTOTP : bool)
    : list Candidate * list ParseError :=
  parseFrom delimiter hasTOTP 0 (split newline content) [] [].

(** The [fields] option of [exportAccounts]. *)
Record Fields := mkFields {
  f_email : bool; f_password : bool; f_totp : bool; f_extras : bool
}.

(** One line of the TXT export, lines 587-596. *)
Definition exportLine (delimiter : string) (fields : Fields) (acc : Account) : string :=
  let parts :=
    (if f_email fields then [acc_email acc] else [])
    ++ (if f_password fields then [acc_password acc] else [])
    ++ (if f_totp fields then [acc_totp acc] else [])
    ++ (if f_extras fields && (0 <? length (acc_extras acc))%nat
        then [join ", " (acc_extras acc)] else []) in
  join delimiter parts.

(** [exportAccounts(options)] with [format: 'txt'], lines 565-599;
    [accountIds = None] is [null]. *)
Definition exportAccounts (accountIds : option (list string)) (delimiter : string)
    (fields : Fields) (ds : DataStore) : string :=
  let accounts :=
    match accountIds with
    | Some ids => List.filter (λ acc, bool_decide (acc_id acc ∈ ids)) (accounts ds)
    | None => accounts ds
    end in
  join newline (exportLine delimiter fields <$> accounts).

(** The accounts that [exportAccounts] writes, line 573. *)
Definition selection (accountIds : option (list string)) (ds : DataStore)
    : list Account :=
  match accountIds with
  | Some ids => List.filter (λ acc, bool_decide (acc_id acc ∈ ids)) (accounts ds)
  | None => accounts ds
  end.

(** All four export fields switched on, the default of line 570. *)
Definition allFields : Fields := mkFields true true true true.

(** The record that a TXT export and re-import make of an account: the
    extras arrive as one field. *)
Definition flattened (acc : Account) : Candidate :=
  mkCandidate (acc_email acc) (acc_password acc) (acc_totp acc)
    (match acc_extras acc with [] => [] | _ => [join ", " (acc_extras acc)] end) [].

(** The characters of a string. *)
Definition chars (s : string) : list ascii := list_ascii_of_string s.

(** [s] is its own trim and holds neither the delimiter character nor a
    line break. *)
Definition cleanField (d : ascii) (s : string) : Prop :=
  trim s = s ∧ (d ∉ chars s) ∧ (ascii_of_nat 10 ∉ chars s).

(** An account that the TXT export writes so that [parse] reads it back:
    clean fields, a valid email that does not look like a comment, a secret
    that is empty or well-formed, and extras whose joined text is a clean
    field. *)
Definition exportable (d : ascii) (acc : Account) : Prop :=
  cleanField d (acc_email acc) ∧ cleanField d (acc_password acc)
  ∧ cleanField d (acc_totp acc)
  ∧ validateEmail (acc_email acc) = true
  ∧ startsWith "#" (acc_email acc) = false
  ∧ (acc_totp acc = EmptyString ∨ validateTOTP (acc_totp acc) = true)
  ∧ (acc_extras acc ≠ [] →
       cleanField d (join ", " (acc_extras acc))
       ∧ join ", " (acc_extras acc) ≠ EmptyString).

(** A secret as the data model wants it: empty, or 32 letters and digits. *)
Definition secretOk (t : string) : Prop := t = EmptyString ∨ validateTOTP t = true.

(** What a successfully parsed line gives. *)
Definition wellFormed (hasTOTP : bool) (c : Candidate) : Prop :=
  validateEmail (c_email c) = true
  ∧ trim (c_email c) = c_email c
  ∧ trim (c_password c) = c_password c
  ∧ (if hasTOTP then secretOk (c_totp c) else c_totp c = EmptyString)
  ∧ Forall (λ e, e ≠ EmptyString ∧ trim e = e) (c_extras c)
  ∧ c_tags c = [].

(** A line that [parse] looks at: not blank and not a comment, after trim. *)
Definition significant (raw : string) : bool :=
  truthy (trim raw) && negb (startsWith "#" (trim raw)).

(** An error entry points at its line. *)
Definition errorAt (lines : list string) (e : ParseError) : Prop :=
  (1 ≤ err_line e ≤ length lines)%nat
  ∧ err_content e = trim (nth (err_line e - 1) lines EmptyString)
  ∧ significant (nth (err_line e - 1) lines EmptyString) = true.

End TextFormat.

(* ====================================================================== *)
(** ** Sorted view, tags and search filters                                *)
(* ====================================================================== *)

Module Views.
Import Utils DataStore.

(** The comparator of line 471: [(a, b) => (a.order || 0) - (b.order || 0)];
    on a number, [|| 0] changes nothing. *)
Definition byOrder (a b : Account) : Z := (acc_order a - acc_order b)%Z.

(** [getAccountsSorted()], lines 470-472: a sorted copy. *)
Definition getAccountsSorted (ds : DataStore) : list Account :=
  FileParser.sort byOrder (accounts ds).

(** Every element stands in relation [R] to all later ones. *)
Fixpoint sortedBy (R : Z → Z → Prop) (l : list Z) : Prop :=
  match l with
  | [] => True
  | x :: r => Forall (R x) r ∧ sortedBy R r
  end.

End Views.

Module Tags.
Import Utils DataStore.

Record Tag := mkTag {
  tag_id : string;
  tag_name : string;
  tag_color : string;
  tag_createdAt : Z
}.

Inductive TagEvent :=
| TagCreated (t : Tag)
| TagDeleted (t : Tag).

(** [this.data] with its tag list. The accounts, the count of [autoSave]
    calls and the notifications about accounts are the [DataStore] above;
    the notifications about tags are logged beside them. *)
Record TagStore := mkTagStore {
  base : DataStore;
  tags : list Tag;
  tagNotifications : list TagEvent
}.

Definition set_tags (t : list string) (a : Account) : Account :=
  mkAccount (acc_id a) (acc_email a) (acc_password a) (acc_totp a) (acc_extras a)
            t (acc_completed a) (acc_favorite a) (acc_addedAt a)
            (acc_lastUsed a) (acc_order a).

Definition hasTagId (i : string) (t : Tag) : Prop := tag_id t = i.

#[global] Instance hasTagId_dec i t : Decision (hasTagId i t).
Proof. unfold hasTagId. apply _. Defined.

(** [getTag(id)], lines 355-357. *)
Definition getTag (i : string) (s : TagStore) : option Tag :=
  snd <$> list_find (hasTagId i) (tags s).

(** [createTag(name, color)], lines 362-374, with the UUID and the clock
    reading it draws. *)
Definition createTag (uuid : string) (now : Z) (name color : string) (s : TagStore)
    : Tag * TagStore :=
  let tag := mkTag uuid (trim name) color now in
  (tag, mkTagStore (autoSave (base s)) (tags s ++ [tag])
          (tagNotifications s ++ [TagCreated tag])).

(** [acc.tags.filter(tagId => tagId !== id)] *)
Definition without (i : string) (l : list string) : list string :=
  List.filter (λ tagId, negb (String.eqb tagId i)) l.

(** [deleteTag(id)], lines 392-405. *)
Definition deleteTag (i : string) (s : TagStore) : bool * TagStore :=
  match list_find (hasTagId i) (tags s) with
  | None => (false, s)
  | Some (index, deleted) =>
      let accs := (λ acc, set_tags (without i (acc_tags acc)) acc) <$> accounts (base s) in
      (true, mkTagStore (autoSave (set_accounts accs (base s)))
               (delete index (tags s))
               (tagNotifications s ++ [TagDeleted deleted]))
  end.

(** [addTagToAccount(accountId, tagId)], lines 410-420. *)
Definition addTagToAccount (accountId tagId : string) (ds : DataStore)
    : bool * DataStore :=
  match list_find (hasId accountId) (accounts ds) with
  | None => (false, ds)
  | Some (index, account) =>
      if bool_decide (tagId ∈ acc_tags account) then (true, ds)
      else
        let account' := set_tags (acc_tags account ++ [tagId]) account in
        (true, notify (AccountUpdated account')
                 (autoSave (set_accounts (<[index := account']> (accounts ds)) ds)))
  end.

(** [removeTagFromAccount(accountId, tagId)], lines 425-433. *)
Definition removeTagFromAccount (accountId tagId : string) (ds : DataStore)
    : bool * DataStore :=
  match list_find (hasId accountId) (accounts ds) with
  | None => (false, ds)
  | Some (index, account) =>
      let account' := set_tags (without tagId (acc_tags account)) account in
      (true, notify (AccountUpdated account')
               (autoSave (set_accounts (<[index := account']> (accounts ds)) ds)))
  end.

(** [QuickTagSelector.toggleTag(tagId)] for the selector of account
    [accountId], lines 1920-1935, as far as the store goes. *)
Definition toggleTag (accountId tagId : string) (ds : DataStore) : DataStore :=
  match getAccount accountId ds with
  | None => ds
  | Some account =>
      if bool_decide (tagId ∈ acc_tags account)
      then (removeTagFromAccount accountId tagId ds).2
      else (addTagToAccount accountId tagId ds).2
  end.

(** A tag of the [tags] array of an imported JSON file. *)
Record ImportedTag := mkImportedTag {
  it_id : string;
  it_name : string;
  it_color : string
}.

(** The test of the [find] of lines 1395-1397. *)
Definition sameName (name : string) (t : Tag) : Prop :=
  toLowerCase (tag_name t) = toLowerCase name.

#[global] Instance sameName_dec name t : Decision (sameName name t).
Proof. unfold sameName. apply _. Defined.

(** The state of the tag merge: [tagIdMapping], the number of tags created
    so far, and the store. [existingTags] is the store's own array, so a tag
    created in one round is found in the next. *)
Record Merge := mkMerge {
  tagIdMapping : gmap string string;
  created : nat;
  merged : TagStore
}.

(** One round of the [forEach] of lines 1393-1408. [freshTag k] is the UUID
    and the clock reading of the [k]-th tag created. *)
Definition mergeTag (freshTag : nat → string * Z) (m : Merge)
    (importedTag : ImportedTag) : Merge :=
  match list_find (sameName (it_name importedTag)) (tags (merged m)) with
  | Some (_, existingTag) =>
      mkMerge (<[it_id importedTag := tag_id existingTag]> (tagIdMapping m))
              (created m) (merged m)
  | None =>
      let r := createTag (freshTag (created m)).1 (freshTag (created m)).2
                 (it_name importedTag) (it_color importedTag) (merged m) in
      mkMerge (<[it_id importedTag := tag_id r.1]> (tagIdMapping m))
              (S (created m)) r.2
  end.

Definition mergeTags (freshTag : nat → string * Z) (imported : list ImportedTag)
    (s : TagStore) : Merge :=
  fold_left (mergeTag freshTag) imported (mkMerge ∅ 0 s).

(** [acc.tags.map(oldTagId => tagIdMapping.get(oldTagId)).filter(id => id)] *)
Definition mappedTags (mapping : gmap string string) (old : list string)
    : list string :=
  omap (λ oldTagId,
          match mapping !! oldTagId with
          | Some new => if truthy new then Some new else None
          | None => None
          end) old.

(** The record of lines 1418-1424 made of an imported account, whose
    [tags] hold ids of the file. *)
Definition remap (mapping : gmap string string) (acc : Candidate) : Candidate :=
  mkCandidate (c_email acc) (c_password acc) (c_totp acc) (c_extras acc)
              (mappedTags mapping (c_tags acc)).

(** [ImportJSONModal.confirm()], lines 1380-1449, for a file that was read:
    the tags are merged by name, the accounts go through [importAccounts]
    with their tag ids remapped. The fields of the file have the types of
    the data model, so nothing throws. *)
Definition confirm (freshTag fresh : nat → string * Z)
    (jsonTags : list ImportedTag) (jsonAccounts : list Candidate) (s : TagStore)
    : Stats * TagStore :=
  let m := mergeTags freshTag jsonTags s in
  let r := importAccounts fresh (remap (tagIdMapping m) <$> jsonAccounts)
             (base (merged m)) in
  (r.1, mkTagStore r.2 (tags (merged m)) (tagNotifications (merged m))).

(** The ids of the tags of the store. *)
Definition tagIds (s : TagStore) : list string := tag_id <$> tags s.

(** Every tag id carried by an account is the id of a tag of the store. *)
Definition tagsClosed (s : TagStore) : Prop :=
  Forall (λ acc, Forall (λ t, t ∈ tagIds s) (acc_tags acc)) (accounts (base s)).

(** The names of the tags, compared as the merge compares them. *)
Definition tagNames (s : TagStore) : list string :=
  (λ t, toLowerCase (tag_name t)) <$> tags s.

(** [a'] is [a] with other tags. *)
Definition sameButTags (a a' : Account) : Prop := set_tags [] a = set_tags [] a'.

(** What a round of the tag merge keeps: the tags so far stay, in place and
    unchanged, with one more at the end for each tag created; the accounts
    are not touched; every id in the mapping names a tag of the store. *)
Definition mergeInv (s : TagStore) (m : Merge) : Prop :=
  (∃ new, tags (merged m) = tags s ++ new ∧ length new = created m)
  ∧ accounts (base (merged m)) = accounts (base s)
  ∧ (∀ k v, tagIdMapping m !! k = Some v → v ∈ tagIds (merged m)).

End Tags.

Module SearchManager.
Import Utils.

(** The fields of the class, lines 2244-2249. *)
Record SearchManager := mkSearch {
  query : string;
  selectedTags : list string;
  statusFilter : string;
  showUntagged : bool
}.

(** The constructor. *)
Definition init : SearchManager := mkSearch "" [] "all" false.

Definition setQuery (q : string) (m : SearchManager) : SearchManager :=
  mkSearch q (selectedTags m) (statusFilter m) (showUntagged m).

(** [toggleTag(tagId)], lines 2298-2309. *)
Definition toggleTag (tagId : string) (m : SearchManager) : SearchManager :=
  let selected :=
    match list_find (λ t, t = tagId) (selectedTags m) with
    | Some (index, _) => delete index (selectedTags m)
    | None => selectedTags m ++ [tagId]
    end in
  mkSearch (query m) selected (statusFilter m)
           (if (0 <? length selected)%nat then false else showUntagged m).

(** [toggleUntagged()], lines 2311-2317. *)
Definition toggleUntagged (m : SearchManager) : SearchManager :=
  let untagged := negb (showUntagged m) in
  mkSearch (query m) (if untagged then [] else selectedTags m) (statusFilter m)
           untagged.

Definition setStatusFilter (status : string) (m : SearchManager) : SearchManager :=
  mkSearch (query m) (selectedTags m) status (showUntagged m).

Definition clearFilters (m : SearchManager) : SearchManager := init.

(** A call of one of the methods that change the filters. *)
Inductive Call :=
| SetQuery (q : string)
| ToggleTag (tagId : string)
| ToggleUntagged
| SetStatusFilter (status : string)
| ClearFilters.

Definition call (m : SearchManager) (c : Call) : SearchManager :=
  match c with
  | SetQuery q => setQuery q m
  | ToggleTag t => toggleTag t m
  | ToggleUntagged => toggleUntagged m
  | SetStatusFilter s => setStatusFilter s m
  | ClearFilters => clearFilters m
  end.

(** The two tag filters are not on together, and no tag is selected twice. *)
Definition consistent (m : SearchManager) : Prop :=
  (showUntagged m = true → selectedTags m = []) ∧ NoDup (selectedTags m).

End SearchManager.


Module TagSamples.
Import Utils DataStore Tags.

Definition work : Tag := mkTag "t1" "Work" "#6f00ff" 1.
Definition home : Tag := mkTag "t2" "Home" "#00ff00" 2.

(** Two accounts, the first tagged [work] and [home], and the two tags. *)
Definition tagged : TagStore :=
  mkTagStore
    (mkStore [mkAccount "id-a" "a@x.com" "pw" "" [] ["t1"; "t2"] false false 0 None 0;
              Samples.account "id-b" "b@x.com" "" 1] 0 [])
    [work; home] [].

(** The UUIDs and clock readings handed to [createTag]. *)
Definition freshTag (k : nat) : string * Z :=
  (String (ascii_of_nat (48 + k)) "-tag", 2000%Z).

(** The tags of a file: one known under another case, one new. *)
Definition fileTags : list ImportedTag :=
  [mkImportedTag "f1" "WORK" "#111111"; mkImportedTag "f2" "Mail" "#222222"].

(** An account of the file that names both tags and one the file lacks. *)
Definition fileAccounts : list Candidate :=
  [mkCandidate "c@x.com" "pw" "" [] ["f1"; "f2"; "f9"]].

End TagSamples.


(* ====================================================================== *)
(** ** Account form                                                        *)
(* ====================================================================== *)

Module AccountModal.
Import Utils DataStore FileParser Validation.

(** The four text fields of the form, as [FormData] returns them. *)
Record Form := mkForm {
  form_email : string;
  form_password : string;
  form_totp : string;
  form_extras : string
}.

(** [AccountModal.confirm()], lines 1664-1698: the notification shown and
    the store afterwards. [accountId] is [this.accountId], with [None] for
    [null]; [uuid] and [now] are what [addAccount] draws. *)
Definition confirm (uuid : string) (now : Z) (accountId : option string)
    (form : Form) (ds : DataStore) : string * DataStore :=
  let email := trim (form_email form) in
  let password := trim (form_password form) in
  let totp := trim (form_totp form) in
  let extrasStr := trim (form_extras form) in
  if negb (validateEmail email) then ("Invalid email format", ds)
  else if truthy totp && negb (validateTOTP totp) then
    ("TOTP must be exactly 32 alphanumeric characters (or leave empty)", ds)
  else
    let extras :=
      if truthy extrasStr then List.filter truthy (trim <$> split "," extrasStr)
      else [] in
    let added :=
      ("Account added", (addAccount uuid now (mkCandidate email password totp extras []) ds).2) in
    match accountId with
    | Some i =>
        if truthy i then
          ("Account updated",
           (updateAccount i (mkUpdates (Some email) (Some password) (Some totp)
                               (Some extras)) ds).2)
        else added
    | None => added
    end.

End AccountModal.


(* ====================================================================== *)
(** ** Text import dialog                                                  *)
(* ====================================================================== *)

Module ImportModal.
Import Utils DataStore FileParser TextFormat.

(** [ImportModal.confirm()], lines 1265-1300, for a selected file with the
    text [text]: the errors of the parser, the statistics of the import
    ([None] when no account was parsed and nothing is imported), and the
    store. The notifications shown are built from the first two. *)
Definition confirm (fresh : nat → string * Z) (text delimiter : string)
    (hasTOTP : bool) (ds : DataStore)
    : list ParseError * option Stats * DataStore :=
  let result := parse text delimiter hasTOTP in
  if (length result.1 =? 0)%nat then (result.2, None, ds)
  else
    let r := importAccounts fresh result.1 ds in
    (result.2, Some r.1, r.2).

End ImportModal.


(* ====================================================================== *)
(** ** Properties                                                          *)
(* ====================================================================== *)

Section UtilsFacts.
Import Utils.

Lemma trimStart_idem s : trimStart (trimStart s) = trimStart s.
Proof.
  induction s as [|c r IH]; simpl; [done|].
  destruct (isWhiteSpace c) eqn:E; [done|]. simpl. by rewrite E.
Qed.

Lemma trimEnd_idem s : trimEnd (trimEnd s) = trimEnd s.
Proof.
  induction s as [|c r IH]; simpl; [done|].
  destruct (trimEnd r) as [|d r'] eqn:E.
  - destruct (isWhiteSpace c) eqn:Ec; simpl; [done|]. by rewrite Ec.
  - simpl in *. by rewrite IH.
Qed.

(** A string without leading white space keeps that after [trimEnd]. *)
Lemma trimStart_trimEnd s : trimStart s = s → trimStart (trimEnd s) = trimEnd s.
Proof.
  destruct s as [|c r]; simpl; [done|].
  destruct (isWhiteSpace c) eqn:Ec.
  - intros H. exfalso.
    assert (String.length (trimStart r) ≤ String.length r) as Hle.
    { clear. induction r as [|d r IH]; simpl; [lia|].
      destruct (isWhiteSpace d); simpl; lia. }
    rewrite H in Hle. simpl in Hle. lia.
  - intros _. destruct (trimEnd r); simpl; by rewrite Ec.
Qed.

Lemma trim_idem s : trim (trim s) = trim s.
Proof.
  unfold trim. rewrite trimStart_trimEnd by apply trimStart_idem.
  apply trimEnd_idem.
Qed.

Section MapChars.
Variable f : ascii → ascii.
Hypothesis f_ws : ∀ c, isWhiteSpace (f c) = isWhiteSpace c.

Lemma mapChars_trimStart s : mapChars f (trimStart s) = trimStart (mapChars f s).
Proof.
  induction s as [|c r IH]; simpl; [done|].
  rewrite f_ws. by destruct (isWhiteSpace c).
Qed.

Lemma mapChars_trimEnd s : mapChars f (trimEnd s) = trimEnd (mapChars f s).
Proof.
  induction s as [|c r IH]; simpl; [done|].
  rewrite <- IH, f_ws. destruct (trimEnd r); simpl; [|done].
  by destruct (isWhiteSpace c).
Qed.

Lemma mapChars_trim s : mapChars f (trim s) = trim (mapChars f s).
Proof. unfold trim. by rewrite mapChars_trimEnd, mapChars_trimStart. Qed.
End MapChars.

Lemma lowerChar_ws c : isWhiteSpace (lowerChar c) = isWhiteSpace c.
Proof. by destruct c as [[] [] [] [] [] [] [] []]. Qed.

Lemma upperChar_ws c : isWhiteSpace (upperChar c) = isWhiteSpace c.
Proof. by destruct c as [[] [] [] [] [] [] [] []]. Qed.

Lemma lowerChar_idem c : lowerChar (lowerChar c) = lowerChar c.
Proof. by destruct c as [[] [] [] [] [] [] [] []]. Qed.

Lemma upperChar_idem c : upperChar (upperChar c) = upperChar c.
Proof. by destruct c as [[] [] [] [] [] [] [] []]. Qed.

Lemma mapChars_idem f s :
  (∀ c, f (f c) = f c) → mapChars f (mapChars f s) = mapChars f s.
Proof. intros Hf. induction s; simpl; [done|]. by rewrite Hf, IHs. Qed.

Lemma normalizeEmail_idem e : normalizeEmail (normalizeEmail e) = normalizeEmail e.
Proof.
  unfold normalizeEmail, toLowerCase.
  rewrite (mapChars_trim _ lowerChar_ws), trim_idem.
  by rewrite (mapChars_idem _ _ lowerChar_idem).
Qed.

Lemma normalizeTOTP_idem t : normalizeTOTP (normalizeTOTP t) = normalizeTOTP t.
Proof.
  unfold normalizeTOTP, toUpperCase.
  rewrite (mapChars_trim _ upperChar_ws), trim_idem.
  by rewrite (mapChars_idem _ _ upperChar_idem).
Qed.

Lemma truthy_spec s : truthy s = true ↔ s ≠ "".
Proof. by destruct s. Qed.

Lemma truthy_false s : truthy s = false ↔ s = "".
Proof. by destruct s. Qed.

Lemma trim_empty : trim "" = "".
Proof. done. Qed.

End UtilsFacts.

Section StoreFacts.
Import Utils DataStore Props.

Lemma hasTOTP_spec t : hasTOTP t = true ↔ trim t ≠ "".
Proof.
  unfold hasTOTP. destruct t as [|c r]; [done|].
  simpl truthy at 1. rewrite andb_true_l. apply truthy_spec.
Qed.

Lemma hasTOTP_false t : hasTOTP t = false ↔ trim t = "".
Proof.
  unfold hasTOTP. destruct t as [|c r]; [done|].
  simpl truthy at 1. rewrite andb_true_l. apply truthy_false.
Qed.

Lemma firstMatch_find newAcc ds index existing :
  firstMatch newAcc ds index existing
  ↔ list_find (sameLogin newAcc) (accounts ds) = Some (index, existing).
Proof. unfold firstMatch. by rewrite list_find_Some. Qed.

Lemma no_id_find i ds :
  (∀ a, a ∈ accounts ds → acc_id a ≠ i) → list_find (hasId i) (accounts ds) = None.
Proof.
  intros H. apply list_find_None, Forall_forall. intros a Ha. by apply H.
Qed.

(** C10. For an id that no stored account has, [updateAccount],
    [deleteAccount] and [reorderAccounts] all return [false] and hand back
    the very same store: same accounts, same count of save requests, same
    notification log. *)
Theorem unknown_id_is_noop (i : string) (updates : Updates) (newOrder : Z)
    (ds : DataStore) :
  (∀ a, a ∈ accounts ds → acc_id a ≠ i) →
  updateAccount i updates ds = (false, ds)
  ∧ deleteAccount i ds = (false, ds)
  ∧ reorderAccounts i newOrder ds = (false, ds).
Proof.
  intros H. apply no_id_find in H.
  unfold updateAccount, deleteAccount, reorderAccounts. by rewrite H.
Qed.

Lemma unknown_id_is_noop_witness :
  updateAccount "id-z" (mkUpdates (Some "q@x.com") None (Some "") None) Samples.three
    = (false, Samples.three)
  ∧ deleteAccount "id-z" Samples.three = (false, Samples.three)
  ∧ reorderAccounts "id-z" 1 Samples.three = (false, Samples.three).
Proof.
  apply (unknown_id_is_noop "id-z").
  intros a Ha. simpl in Ha. set_unfold in Ha.
  destruct Ha as [-> | [-> | [-> | []]]]; by vm_compute.
Defined.

(** C4. When the account found for a candidate has a TOTP secret (non-empty
    after trim) and the candidate has none, the round of the import counts
    the candidate as skipped and returns the store as it was; an import of
    that single candidate reports one skipped record and keeps every account,
    the stored secret included. *)
Theorem totp_loss_protection (fresh : nat → string * Z) (ds : DataStore)
    (stats : Stats) (newAcc : Candidate) (index : nat) (existing : Account) :
  firstMatch newAcc ds index existing →
  trim (acc_totp existing) ≠ "" →
  trim (c_totp newAcc) = "" →
  importOne fresh (ds, stats) newAcc = (ds, bump_skipped stats)
  ∧ (importAccounts fresh [newAcc] ds).1 = mkStats 0 0 1
  ∧ accounts (importAccounts fresh [newAcc] ds).2 = accounts ds
  ∧ accounts ds !! index = Some existing.
Proof.
  intros Hm He Hn. pose proof Hm as [Hlk _].
  apply firstMatch_find in Hm. apply hasTOTP_spec in He. apply hasTOTP_false in Hn.
  assert (∀ st, importOne fresh (ds, st) newAcc = (ds, bump_skipped st)) as Hone.
  { intros st. unfold importOne. by rewrite Hm, He, Hn. }
  split; [apply Hone|]. unfold importAccounts. cbn [fold_left]. by rewrite Hone.
Qed.

Lemma totp_loss_protection_witness :
  importOne Samples.fresh (Samples.withSecret, mkStats 0 0 0)
      (Samples.candidate "A@x.com " "" ["note"])
    = (Samples.withSecret, mkStats 0 0 1)
  ∧ (importAccounts Samples.fresh [Samples.candidate "A@x.com " "" ["note"]]
       Samples.withSecret).1 = mkStats 0 0 1
  ∧ accounts (importAccounts Samples.fresh [Samples.candidate "A@x.com " "" ["note"]]
       Samples.withSecret).2 = accounts Samples.withSecret
  ∧ accounts Samples.withSecret !! 0%nat
    = Some (Samples.account "id-a" "a@x.com" Samples.secretX 0).
Proof.
  apply (totp_loss_protection Samples.fresh Samples.withSecret (mkStats 0 0 0)
           (Samples.candidate "A@x.com " "" ["note"]) 0
           (Samples.account "id-a" "a@x.com" Samples.secretX 0)).
  - split; [reflexivity|]. split; [by vm_compute|]. intros j y _ Hj. lia.
  - by vm_compute.
  - by vm_compute.
Defined.

End StoreFacts.

Section DeleteFacts.
Import Utils DataStore Props.

(** What [deleteAccount] does to the list: the found position is cut out and
    every other account stays as it was, its [order] included. *)
Lemma deleteAccount_found (i : string) (ds : DataStore) index deleted :
  list_find (hasId i) (accounts ds) = Some (index, deleted) →
  (deleteAccount i ds).1 = true
  ∧ accounts (deleteAccount i ds).2 = delete index (accounts ds).
Proof. intros H. unfold deleteAccount. by rewrite H. Qed.

Lemma deleteAccount_keeps_others (i : string) (ds : DataStore) (b : Account) :
  b ∈ accounts (deleteAccount i ds).2 → b ∈ accounts ds.
Proof.
  unfold deleteAccount. destruct (list_find _ _) as [[index deleted]|]; [|done].
  simpl. apply list_elem_of_delete_inv.
Qed.

(** The order values after a delete are the old ones without the deleted
    account's: no remaining order is decremented. *)
Lemma deleteAccount_orders (i : string) (ds : DataStore) index deleted :
  list_find (hasId i) (accounts ds) = Some (index, deleted) →
  orders (deleteAccount i ds).2 = delete index (orders ds).
Proof.
  intros H. unfold orders, deleteAccount. rewrite H. simpl. apply list_fmap_delete.
Qed.

(** C1, on the code. Deleting the account at order 0 of a store ordered
    0, 1, 2 succeeds and leaves the orders 1, 2: nothing is decremented and
    the result is not a dense permutation of 0, 1. An account added next
    takes [order = length = 2], the order of an account already there. *)
Theorem deleteAccount_leaves_gap :
  dense Samples.three
  ∧ (deleteAccount "id-a" Samples.three).1 = true
  ∧ orders (deleteAccount "id-a" Samples.three).2 = [1; 2]%Z
  ∧ ¬ dense (deleteAccount "id-a" Samples.three).2
  ∧ orders (addAccount "id-d" 0 (Samples.candidate "d@x.com" "" [])
              (deleteAccount "id-a" Samples.three).2).2 = [1; 2; 2]%Z.
Proof.
  split; [vm_compute; reflexivity|].
  split; [by vm_compute|]. split; [by vm_compute|].
  split; [|by vm_compute].
  unfold dense. vm_compute. intros H.
  assert (2%Z ∈ [0; 1]%Z) as Hin by (rewrite <- H; set_solver).
  rewrite !elem_of_cons, elem_of_nil in Hin. lia.
Qed.

End DeleteFacts.

Section ReorderFacts.
Import Utils DataStore Props.

Lemma find_by_id (ds : DataStore) (k : nat) (a : Account) :
  uniqueIds ds → accounts ds !! k = Some a →
  list_find (hasId (acc_id a)) (accounts ds) = Some (k, a).
Proof.
  intros Hu Hk. apply list_find_Some. split; [done|]. split; [done|].
  intros j y Hj Hlt Hy. unfold hasId in Hy.
  assert (j = k); [|lia].
  apply (NoDup_lookup _ j k (acc_id a) Hu); rewrite list_lookup_fmap.
  - by rewrite Hj, <- Hy.
  - by rewrite Hk.
Qed.

Lemma set_order_same (a : Account) : set_order (acc_order a) a = a.
Proof. by destruct a. Qed.

(** On a store with unique ids and pairwise distinct orders, the loop of
    [reorderAccounts] acts on the order values as [moveOrder]. *)
Lemma reorder_orders (ds : DataStore) (k : nat) (a : Account) (newOrder : Z) :
  uniqueIds ds → NoDup (orders ds) → accounts ds !! k = Some a →
  orders (reorderAccounts (acc_id a) newOrder ds).2
  = moveOrder (acc_order a) newOrder <$> orders ds.
Proof.
  intros Hu Hn Hk. unfold reorderAccounts. rewrite (find_by_id ds k a Hu Hk).
  unfold orders. simpl. apply list_eq. intros j. rewrite !list_lookup_fmap.
  destruct (decide (j = k)) as [->|Hjk].
  - rewrite list_lookup_insert_eq by (by eapply lookup_lt_Some). rewrite Hk. simpl.
    f_equal. unfold shiftOther, moveOrder. simpl. by rewrite !decide_True.
  - rewrite list_lookup_insert_ne by done.
    destruct (accounts ds !! j) as [b|] eqn:Hb; [|done]. simpl. f_equal.
    assert (acc_id b ≠ acc_id a) as Hid.
    { intros E. apply Hjk.
      apply (NoDup_lookup _ j k (acc_id a) Hu); rewrite list_lookup_fmap.
      - by rewrite Hb, <- E.
      - by rewrite Hk. }
    assert (acc_order b ≠ acc_order a) as Hord.
    { intros E. apply Hjk.
      apply (NoDup_lookup _ j k (acc_order a) Hn); unfold orders;
        rewrite list_lookup_fmap.
      - by rewrite Hb, <- E.
      - by rewrite Hk. }
    unfold shiftOther, moveOrder. rewrite !decide_False by done.
    destruct (Z.ltb_spec (acc_order a) newOrder);
      destruct (Z.ltb_spec (acc_order a) (acc_order b));
      destruct (Z.leb_spec (acc_order b) newOrder);
      destruct (Z.leb_spec newOrder (acc_order b));
      destruct (Z.ltb_spec (acc_order b) (acc_order a));
      simpl; repeat case_decide; simpl; lia.
Qed.

(** [moveOrder] permutes 0, ..., n-1 when both positions are in range. *)
Lemma moveOrder_perm (oldOrder newOrder n : Z) :
  (0 ≤ oldOrder < n)%Z → (0 ≤ newOrder < n)%Z →
  moveOrder oldOrder newOrder <$> seqZ 0 n ≡ₚ seqZ 0 n.
Proof.
  intros Ho Hn. apply NoDup_Permutation.
  - apply NoDup_fmap_2_strong; [|apply NoDup_seqZ].
    intros x y _ _. unfold moveOrder. repeat case_decide; lia.
  - apply NoDup_seqZ.
  - intros x. rewrite list_elem_of_fmap. setoid_rewrite elem_of_seqZ. split.
    + intros (y & -> & Hy). unfold moveOrder. repeat case_decide; lia.
    + intros Hx.
      exists (if decide (x = newOrder) then oldOrder
              else if decide (oldOrder < newOrder ∧ oldOrder ≤ x < newOrder)%Z
                   then (x + 1)%Z
              else if decide (newOrder < oldOrder ∧ newOrder < x ≤ oldOrder)%Z
                   then (x - 1)%Z
              else x).
      unfold moveOrder. repeat case_decide; lia.
Qed.

Lemma dense_NoDup (ds : DataStore) : dense ds → NoDup (orders ds).
Proof. intros H. unfold dense in H. rewrite H. apply NoDup_seqZ. Qed.

Lemma reorder_length (i : string) (newOrder : Z) (ds : DataStore) :
  length (accounts (reorderAccounts i newOrder ds).2) = length (accounts ds).
Proof.
  unfold reorderAccounts. destruct (list_find _ _) as [[index a]|]; [|done].
  simpl. by rewrite length_fmap, length_insert.
Qed.

(** C5. On a store of N accounts with unique ids whose orders are a dense
    permutation of 0..N-1, moving a stored account to any [newOrder] in
    [0, N-1] succeeds, leaves the orders a dense permutation of 0..N-1,
    puts the moved account at [newOrder], and changes nothing at all when
    [newOrder] is the order the account already has. *)
Theorem reorder_preserves_dense (ds : DataStore) (account : Account)
    (newOrder : Z) :
  dense ds → uniqueIds ds → account ∈ accounts ds →
  (0 ≤ newOrder < Z.of_nat (length (accounts ds)))%Z →
  let r := reorderAccounts (acc_id account) newOrder ds in
  r.1 = true
  ∧ orders r.2 ≡ₚ seqZ 0 (Z.of_nat (length (accounts ds)))
  ∧ dense r.2
  ∧ acc_order <$> getAccount (acc_id account) r.2 = Some newOrder
  ∧ (newOrder = acc_order account → accounts r.2 = accounts ds).
Proof.
  intros Hd Hu Hin Hnew r.
  apply list_elem_of_lookup in Hin as [k Hk].
  pose proof (find_by_id ds k account Hu Hk) as Hfind.
  assert (0 ≤ acc_order account < Z.of_nat (length (accounts ds)))%Z as Hold.
  { assert (acc_order account ∈ orders ds) as Ho.
    { unfold orders. apply list_elem_of_fmap. exists account. split; [done|].
      apply list_elem_of_lookup. eauto. }
    unfold dense in Hd. rewrite Hd in Ho. apply elem_of_seqZ in Ho. lia. }
  assert (orders r.2 ≡ₚ seqZ 0 (Z.of_nat (length (accounts ds)))) as Hperm.
  { subst r. rewrite (reorder_orders ds k account newOrder Hu (dense_NoDup ds Hd) Hk).
    unfold dense in Hd. rewrite Hd. by apply moveOrder_perm. }
  split; [subst r; unfold reorderAccounts; by rewrite Hfind|].
  split; [done|].
  split; [unfold dense; subst r; rewrite reorder_length; apply Hperm|].
  split.
  - subst r. unfold getAccount, reorderAccounts. rewrite Hfind. simpl.
    rewrite list_find_fmap.
    rewrite (list_find_ext _ (hasId (acc_id account))).
    2:{ intros x. unfold hasId, shiftOther. simpl.
        repeat case_match; by destruct x. }
    assert (list_find (hasId (acc_id account))
              (<[k := set_order newOrder account]> (accounts ds))
            = Some (k, set_order newOrder account)) as ->.
    { apply list_find_Some. split.
      - apply list_lookup_insert_eq. by eapply lookup_lt_Some.
      - split; [done|]. intros j y Hj Hlt.
        rewrite list_lookup_insert_ne in Hj by lia.
        apply list_find_Some in Hfind as (_ & _ & Hfirst). by eapply Hfirst. }
    simpl. unfold shiftOther. simpl. by rewrite decide_True.
  - intros ->. subst r. unfold reorderAccounts. rewrite Hfind. simpl.
    rewrite set_order_same, list_insert_id by done.
    rewrite <- (list_fmap_id (accounts ds)) at 2. apply list_fmap_ext.
    intros j b _. unfold shiftOther.
    case_decide; [done|]. rewrite Z.ltb_irrefl.
    destruct (Z.leb_spec (acc_order account) (acc_order b));
      destruct (Z.ltb_spec (acc_order b) (acc_order account)); simpl; try done; lia.
Qed.

Lemma reorder_preserves_dense_witness :
  let r := reorderAccounts "id-a" 2 Samples.three in
  r.1 = true
  ∧ orders r.2 ≡ₚ seqZ 0 3
  ∧ dense r.2
  ∧ acc_order <$> getAccount "id-a" r.2 = Some 2%Z
  ∧ (2%Z = 0%Z → accounts r.2 = accounts Samples.three).
Proof.
  apply (reorder_preserves_dense Samples.three
           (Samples.account "id-a" "a@x.com" "" 0) 2).
  - vm_compute. reflexivity.
  - apply (bool_decide_unpack _). by vm_compute.
  - vm_compute. left.
  - by vm_compute.
Defined.

End ReorderFacts.

Section ImportFacts.
Import Utils DataStore Props.

Variable fresh : nat → string * Z.

Lemma sameLogin_key (c : Candidate) (a : Account) :
  sameLogin c a ↔ accountKey a = key c.
Proof. unfold sameLogin, accountKey, key. split; [by intros [-> ->]|by intros [= -> ->]]. Qed.

(** [find] does not see a change of an element it rejects, before and after. *)
Lemma list_find_insert_skip {A} (P : A → Prop) `{∀ x, Decision (P x)}
    (l : list A) (i : nat) (x y : A) :
  l !! i = Some y → ¬ P y → ¬ P x → list_find P (<[i := x]> l) = list_find P l.
Proof.
  revert i. induction l as [|z l IH]; intros i Hi Hy Hx; [done|].
  destruct i as [|i]; simpl in *.
  - injection Hi as ->. by rewrite !decide_False.
  - case_decide; [done|]. by rewrite IH.
Qed.

Lemma list_find_snoc_skip {A} (P : A → Prop) `{∀ x, Decision (P x)}
    (l : list A) (x : A) :
  ¬ P x → list_find P (l ++ [x]) = list_find P l.
Proof.
  intros Hx. destruct (list_find P l) as [[i y]|] eqn:E.
  - by apply list_find_app_l.
  - rewrite list_find_app_r by done. simpl. by rewrite decide_False.
Qed.

Lemma list_find_insert_hit {A} (P : A → Prop) `{∀ x, Decision (P x)}
    (l : list A) (i : nat) (x y : A) :
  list_find P l = Some (i, y) → P x → list_find P (<[i := x]> l) = Some (i, x).
Proof.
  intros Hf Hx. apply list_find_Some in Hf as (Hi & _ & Hfirst).
  apply list_find_Some. split; [|split; [done|]].
  - apply list_lookup_insert_eq. by eapply lookup_lt_Some.
  - intros j z Hj Hlt. rewrite list_lookup_insert_ne in Hj by lia. by eapply Hfirst.
Qed.

Lemma list_find_snoc_hit {A} (P : A → Prop) `{∀ x, Decision (P x)}
    (l : list A) (x : A) :
  list_find P l = None → P x → list_find P (l ++ [x]) = Some (length l, x).
Proof.
  intros Hn Hx. rewrite list_find_app_r by done. simpl. by rewrite decide_True.
Qed.

(** The account built by [addAccount] matches the candidate it was built
    from. *)
Lemma addAccount_sameLogin uuid now (c : Candidate) (ds : DataStore) :
  sameLogin c (addAccount uuid now c ds).1.
Proof. unfold sameLogin, addAccount. simpl. by rewrite normalizeEmail_idem. Qed.

Lemma addAccount_accounts uuid now (c : Candidate) (ds : DataStore) :
  accounts (addAccount uuid now c ds).2 = accounts ds ++ [(addAccount uuid now c ds).1].
Proof. done. Qed.

(** A round of the import for a candidate with another key leaves the result
    of [find] as it was. *)
Lemma importOne_other_key (ds : DataStore) (st : Stats) (c c2 : Candidate) :
  key c ≠ key c2 →
  list_find (sameLogin c2) (accounts (importOne fresh (ds, st) c).1)
  = list_find (sameLogin c2) (accounts ds).
Proof.
  intros Hk.
  assert (∀ a, sameLogin c a → ¬ sameLogin c2 a) as Hne.
  { intros a H1 H2. apply sameLogin_key in H1, H2. congruence. }
  assert (list_find (sameLogin c2)
            (accounts (addAccount (fresh (added st)).1 (fresh (added st)).2 c ds).2)
          = list_find (sameLogin c2) (accounts ds)) as Hadd.
  { rewrite addAccount_accounts. apply list_find_snoc_skip, Hne, addAccount_sameLogin. }
  assert (∀ index existing e', list_find (sameLogin c) (accounts ds) = Some (index, existing) →
            sameLogin c e' →
            list_find (sameLogin c2) (<[index := e']> (accounts ds))
            = list_find (sameLogin c2) (accounts ds)) as Hins.
  { intros index existing e' Hf He'. apply list_find_Some in Hf as (Hi & He & _).
    eapply list_find_insert_skip; eauto. }
  unfold importOne, mergeAndCount.
  destruct (list_find (sameLogin c) (accounts ds)) as [[index existing]|] eqn:Hf;
    [|exact Hadd].
  pose proof Hf as Hf'. apply list_find_Some in Hf' as (_ & He & _).
  repeat case_match; simpl; try done; try exact Hadd; eapply Hins; eauto.
Qed.

Lemma differentSecret_test (c : Candidate) (m : Account) :
  ¬ differentSecret c m →
  hasTOTP (acc_totp m) = true → hasTOTP (c_totp c) = true →
  String.eqb (acc_totp m) (c_totp c) = true.
Proof.
  intros Hn Hm Hc. apply String.eqb_eq.
  destruct (decide (acc_totp m = c_totp c)) as [|Hd]; [done|].
  exfalso. apply Hn. unfold differentSecret. by rewrite <- !hasTOTP_spec.
Qed.

(** A settled candidate is merged, never inserted, and stays settled. *)
Lemma importOne_settled (ds : DataStore) (st : Stats) (c : Candidate) :
  settled c ds →
  added (importOne fresh (ds, st) c).2 = added st
  ∧ length (accounts (importOne fresh (ds, st) c).1) = length (accounts ds)
  ∧ settled c (importOne fresh (ds, st) c).1.
Proof.
  intros (index & m & Hf & Hn). pose proof Hf as Hf'.
  apply list_find_Some in Hf' as (_ & Hm & _).
  unfold importOne, mergeAndCount. rewrite Hf.
  destruct (hasTOTP (acc_totp m)) eqn:Em; destruct (hasTOTP (c_totp c)) eqn:Ec; simpl.
  - rewrite (differentSecret_test c m Hn Em Ec).
    destruct (mergeExtras _ _).2; simpl; rewrite length_insert;
      (split; [done|split; [done|]]); eexists _, _;
      (split; [eapply list_find_insert_hit; [exact Hf|exact Hm]|]);
      intros (_ & _ & Hd); apply Hn; unfold differentSecret;
      rewrite <- !hasTOTP_spec; done.
  - split; [done|split; [done|]]. by exists index, m.
  - rewrite length_insert. split; [done|split; [done|]]. eexists _, _.
    split; [eapply list_find_insert_hit; [exact Hf|exact Hm]|].
    intros (_ & _ & Hd). by apply Hd.
  - destruct (mergeExtras _ _).2; simpl; rewrite length_insert;
      (split; [done|split; [done|]]); eexists _, _;
      (split; [eapply list_find_insert_hit; [exact Hf|exact Hm]|]);
      intros (He & _ & _); simpl in He; by apply hasTOTP_spec in He; congruence.
Qed.

(** A candidate without a match is inserted, and is settled from then on if
    its secret, when present, is in normal form. *)
Lemma importOne_new (ds : DataStore) (st : Stats) (c : Candidate) :
  list_find (sameLogin c) (accounts ds) = None → normalizedSecret c →
  settled c (importOne fresh (ds, st) c).1.
Proof.
  intros Hf Hnorm. unfold settled, importOne. rewrite Hf. cbn [fst].
  eexists _, _. split.
  - rewrite addAccount_accounts. apply list_find_snoc_hit; [done|].
    apply addAccount_sameLogin.
  - intros (_ & Hc & Hd). apply Hd. simpl.
    pose proof Hc as Hc'. apply hasTOTP_spec in Hc'. unfold hasTOTP in Hc'.
    apply andb_true_iff in Hc' as [-> _]. by apply Hnorm.
Qed.

Lemma NoDup_fmap_eq {A B} (f : A → B) (l : list A) (x y : A) :
  NoDup (f <$> l) → x ∈ l → y ∈ l → f x = f y → x = y.
Proof.
  intros Hn Hx Hy E.
  apply list_elem_of_lookup in Hx as [i Hi]. apply list_elem_of_lookup in Hy as [j Hj].
  assert (i = j) as ->; [|congruence].
  apply (NoDup_lookup _ i j (f x) Hn); rewrite list_lookup_fmap.
  - by rewrite Hi.
  - by rewrite Hj, E.
Qed.

Lemma settled_other_key (ds : DataStore) (st : Stats) (c c2 : Candidate) :
  key c ≠ key c2 → settled c2 ds → settled c2 (importOne fresh (ds, st) c).1.
Proof.
  intros Hk (i & m & Hf & Hn). exists i, m. split; [|done].
  by rewrite importOne_other_key.
Qed.

(** First pass: every candidate of the batch ends up settled, and [find]
    for a key outside the batch gives what it gave on the initial store. *)
Lemma first_pass (ds0 : DataStore) (st0 : Stats) (batch : list Candidate) :
  NoDup (key <$> batch) → Forall normalizedSecret batch →
  Forall (noConflict ds0) batch →
  (∀ c, c ∈ batch → settled c (fold_left (importOne fresh) batch (ds0, st0)).1)
  ∧ (∀ c', key c' ∉ key <$> batch →
       list_find (sameLogin c')
         (accounts (fold_left (importOne fresh) batch (ds0, st0)).1)
       = list_find (sameLogin c') (accounts ds0)).
Proof.
  induction batch as [|c B IH] using rev_ind; intros Hnd Hnorm Hconf.
  - split; [intros c Hc; by apply elem_of_nil in Hc|done].
  - rewrite fmap_app in Hnd. apply NoDup_app in Hnd as (HndB & Hdisj & _).
    apply Forall_app in Hnorm as [HnormB Hnc]. apply Forall_app in Hconf as [HconfB Hcc].
    apply Forall_inv in Hnc. apply Forall_inv in Hcc.
    destruct (IH HndB HnormB HconfB) as [IHs IHo]. clear IH.
    rewrite fold_left_app. cbn [fold_left].
    destruct (fold_left (importOne fresh) B (ds0, st0)) as [dsB stB]. cbn [fst] in *.
    assert (key c ∉ key <$> B) as HcB.
    { intros Hin. apply (Hdisj _ Hin). simpl. apply list_elem_of_here. }
    assert (settled c (importOne fresh (dsB, stB) c).1) as Hc.
    { destruct (list_find (sameLogin c) (accounts dsB)) as [[i m]|] eqn:Hf.
      - apply importOne_settled. exists i, m. split; [done|].
        rewrite (IHo c HcB) in Hf. by apply (Hcc i m), firstMatch_find.
      - by apply importOne_new. }
    split.
    + intros c2 Hc2. apply elem_of_app in Hc2 as [Hc2|Hc2].
      * apply settled_other_key; [|by apply IHs].
        intros E. apply HcB. rewrite E. by apply list_elem_of_fmap_2.
      * apply list_elem_of_singleton in Hc2 as ->. exact Hc.
    + intros c' Hc'. rewrite fmap_app in Hc'.
      rewrite importOne_other_key.
      * apply IHo. intros Hin. apply Hc'. apply elem_of_app. by left.
      * intros E. apply Hc'. apply elem_of_app. right. rewrite <- E. simpl.
        apply list_elem_of_here.
Qed.

(** Second pass: with every candidate of the batch settled, no round
    inserts, the list keeps its length, and the candidates stay settled. *)
Lemma second_pass (batch R : list Candidate) (ds : DataStore) (st : Stats) :
  NoDup (key <$> batch) → R ⊆ batch → (∀ c, c ∈ batch → settled c ds) →
  added (fold_left (importOne fresh) R (ds, st)).2 = added st
  ∧ length (accounts (fold_left (importOne fresh) R (ds, st)).1) = length (accounts ds).
Proof.
  intros Hnd. revert ds st. induction R as [|c R IH]; intros ds st Hsub Hs; [done|].
  cbn [fold_left].
  assert (c ∈ batch) as Hc by (apply Hsub, list_elem_of_here).
  destruct (importOne_settled ds st c (Hs c Hc)) as (Ha & Hl & Hsc).
  destruct (importOne fresh (ds, st) c) as [ds1 st1] eqn:E. cbn [fst snd] in *.
  rewrite <- Ha, <- Hl. apply IH.
  - intros x Hx. apply Hsub. by apply list_elem_of_further.
  - intros c2 Hc2. destruct (decide (key c = key c2)) as [Ek|Ek].
    + by rewrite <- (NoDup_fmap_eq key batch c c2 Hnd Hc Hc2 Ek).
    + pose proof (settled_other_key ds st c c2 Ek (Hs c2 Hc2)) as H2.
      by rewrite E in H2.
Qed.

End ImportFacts.

Section ImportBatch.
Import Utils DataStore Props.

Lemma importAccounts_fold fresh (batch : list Candidate) (ds : DataStore) :
  (importAccounts fresh batch ds).1 = (fold_left (importOne fresh) batch (ds, mkStats 0 0 0)).2
  ∧ accounts (importAccounts fresh batch ds).2
    = accounts (fold_left (importOne fresh) batch (ds, mkStats 0 0 0)).1.
Proof. unfold importAccounts. by destruct (fold_left _ _ _). Qed.

Lemma settled_accounts (c : Candidate) (ds ds' : DataStore) :
  accounts ds = accounts ds' → settled c ds → settled c ds'.
Proof. intros E (i & m & Hf & Hn). exists i, m. by rewrite <- E. Qed.


Lemma noConflict_find (ds : DataStore) (c : Candidate) :
  match list_find (sameLogin c) (accounts ds) with
  | Some (_, m) => bool_decide (¬ differentSecret c m) = true
  | None => True
  end → noConflict ds c.
Proof.
  intros H index existing Hf. apply firstMatch_find in Hf. rewrite Hf in H.
  by apply bool_decide_eq_true in H.
Qed.



Example import_twice_counts :
  let first := importAccounts Samples.fresh Samples.twoSecrets Samples.empty in
  let second := importAccounts Samples.fresh Samples.twoSecrets first.2 in
  first.1 = mkStats 2 0 0 ∧ second.1 = mkStats 1 0 1
  ∧ length (accounts first.2) = 2%nat ∧ length (accounts second.2) = 3%nat.
Proof. by vm_compute. Qed.

(** The extras loop appends to the existing list and raises the flag exactly
    when it appends something. *)
Lemma mergeExtras_appends (existing new : list string) :
  ∃ pushed,
    (mergeExtras existing new).1 = existing ++ pushed
    ∧ (mergeExtras existing new).2 = negb (bool_decide (pushed = [])).
Proof.
  unfold mergeExtras.
  assert (∀ (acc : list string) (upd : bool),
            ∃ pushed,
              (fold_left (λ (st : list string * bool) extra,
                    if bool_decide (extra ∈ st.1) then st else (st.1 ++ [extra], true))
                  new (acc, upd)).1 = acc ++ pushed
              ∧ (fold_left (λ (st : list string * bool) extra,
                    if bool_decide (extra ∈ st.1) then st else (st.1 ++ [extra], true))
                  new (acc, upd)).2 = upd || negb (bool_decide (pushed = []))) as H.
  { induction new as [|e new IH]; intros acc upd.
    - exists []. simpl. by rewrite app_nil_r, orb_false_r.
    - cbn [fold_left fst]. destruct (bool_decide (e ∈ acc)); [apply IH|].
      destruct (IH (acc ++ [e]) true) as (pushed & H1 & H2).
      exists (e :: pushed). rewrite H1, H2, <- app_assoc. simpl.
      by rewrite orb_true_r. }
  apply (H existing false).
Qed.

(** The merged list holds the existing extras and the new ones, nothing else. *)
Lemma mergeExtras_union (existing new : list string) (x : string) :
  x ∈ (mergeExtras existing new).1 ↔ x ∈ existing ∨ x ∈ new.
Proof.
  unfold mergeExtras. generalize false. revert existing.
  induction new as [|e new IH]; intros acc upd.
  - simpl. rewrite elem_of_nil. tauto.
  - cbn [fold_left fst]. destruct (bool_decide_reflect (e ∈ acc)) as [Hin|Hin];
      rewrite IH, elem_of_cons.
    + split; [tauto|]. intros [?|[->|?]]; auto.
    + rewrite elem_of_app, list_elem_of_singleton. tauto.
Qed.

(** What the import does when the found account and the candidate carry the
    very same secret string: the extras are merged into the found account,
    no account is inserted, and the record counts as updated when an extra
    was appended, as skipped otherwise. *)
Lemma importOne_equal_secret (fresh : nat → string * Z) (ds : DataStore)
    (stats : Stats) (newAcc : Candidate) (index : nat) (existing : Account) :
  firstMatch newAcc ds index existing →
  trim (acc_totp existing) ≠ "" → trim (c_totp newAcc) ≠ "" →
  acc_totp existing = c_totp newAcc →
  let merged := mergeExtras (acc_extras existing) (c_extras newAcc) in
  let r := importOne fresh (ds, stats) newAcc in
  accounts r.1 = <[index := set_extras merged.1 existing]> (accounts ds)
  ∧ length (accounts r.1) = length (accounts ds)
  ∧ r.2 = (if merged.2 then bump_updated stats else bump_skipped stats)
  ∧ (merged.2 = false ↔ merged.1 = acc_extras existing).
Proof.
  intros Hm He Hn Heq merged r. subst r.
  apply firstMatch_find in Hm. apply hasTOTP_spec in He, Hn.
  unfold importOne, mergeAndCount. rewrite Hm, He, Hn. simpl.
  rewrite (proj2 (String.eqb_eq _ _) Heq). fold merged.
  destruct (mergeExtras_appends (acc_extras existing) (c_extras newAcc))
    as (pushed & H1 & H2). fold merged in H1, H2.
  assert (merged.2 = false ↔ merged.1 = acc_extras existing) as Hiff.
  { rewrite H1, H2. rewrite negb_false_iff, bool_decide_eq_true. split.
    - intros ->. by rewrite app_nil_r.
    - intros E. rewrite <- (app_nil_r (acc_extras existing)) in E at 2.
      by apply app_inv_head in E. }
  destruct merged.2; simpl; rewrite length_insert; done.
Qed.

(** C3, on the code. The stored secret and the candidate's secret differ
    only in letter case, so they are equal once normalised; the import
    compares them with [===], takes them for different secrets and inserts a
    second account, which [addAccount] stores with the upper-cased secret:
    two accounts with the same email, password and secret, and the extras
    of the candidate are not merged into the existing account. *)
Theorem import_same_secret_other_case_duplicates :
  let newAcc := Samples.candidate "a@x.com" Samples.secretX_lower ["note"] in
  let existing := Samples.account "id-a" "a@x.com" Samples.secretX 0 in
  firstMatch newAcc Samples.withSecret 0 existing
  ∧ trim (acc_totp existing) ≠ "" ∧ trim (c_totp newAcc) ≠ ""
  ∧ normalizeTOTP (acc_totp existing) = normalizeTOTP (c_totp newAcc)
  ∧ (importAccounts Samples.fresh [newAcc] Samples.withSecret).1 = mkStats 1 0 0
  ∧ accounts (importAccounts Samples.fresh [newAcc] Samples.withSecret).2
    = [existing;
       mkAccount "0-new" "a@x.com" "pw" Samples.secretX ["note"] [] false false
                 1000 None 1].
Proof.
  repeat split; try by vm_compute.
  intros j y _ Hj. lia.
Qed.

End ImportBatch.

Section TruncateFacts.
Import Utils TOTP Props.

Ltac solve_digits :=
  unfold padStart;
  cbn [String.length Nat.sub replicate string_of_list_ascii];
  lazy beta iota fix delta [String.append];
  change "0"%char with (digitChar 0);
  repeat f_equal; Z.to_euclidean_division_equations; lia.

(** [toString] and [padStart] give the six digits, for every value that a
    remainder modulo 1,000,000 can take. *)
Lemma padStart_toString (n : Z) :
  (0 ≤ n < 1000000)%Z → padStart 6 (toString n) = sixDigits n.
Proof.
  intros Hn. unfold toString. destruct (Z.ltb_spec n 0); [lia|].
  unfold sixDigits. cbn [digitsBefore fmap list_fmap string_of_list_ascii].
  assert (n / 10 / 10 = n / 100)%Z as E2 by (Z.to_euclidean_division_equations; lia).
  assert (n / 100 / 10 = n / 1000)%Z as E3 by (Z.to_euclidean_division_equations; lia).
  assert (n / 1000 / 10 = n / 10000)%Z as E4 by (Z.to_euclidean_division_equations; lia).
  assert (n / 10000 / 10 = n / 100000)%Z as E5 by (Z.to_euclidean_division_equations; lia).
  assert (n / 100000 / 10 = 0)%Z as E6 by (Z.to_euclidean_division_equations; lia).
  rewrite !E2, !E3, !E4, !E5, !E6.
  destruct (Z.ltb_spec n 10); [solve_digits|].
  destruct (Z.ltb_spec (n / 10) 10); [solve_digits|].
  destruct (Z.ltb_spec (n / 100) 10); [solve_digits|].
  destruct (Z.ltb_spec (n / 1000) 10); [solve_digits|].
  destruct (Z.ltb_spec (n / 10000) 10); [solve_digits|].
  destruct (Z.ltb_spec (n / 100000) 10); [solve_digits|].
  exfalso. Z.to_euclidean_division_equations; lia.
Qed.

Lemma sixDigits_length (n : Z) : String.length (sixDigits n) = 6%nat.
Proof. done. Qed.

Lemma toInt32_small (z : Z) : (- 2 ^ 31 ≤ z < 2 ^ 31)%Z → toInt32 z = z.
Proof. intros H. unfold toInt32. rewrite Z.mod_small; lia. Qed.

Lemma lor_disjoint (a b k : Z) :
  (0 ≤ k)%Z → (0 ≤ b < 2 ^ k)%Z → Z.lor (a * 2 ^ k) b = (a * 2 ^ k + b)%Z.
Proof.
  intros Hk Hb.
  assert (Z.land (a * 2 ^ k) b = 0%Z) as Hd.
  { apply Z.bits_inj'. intros n Hn. rewrite Z.land_spec, Z.bits_0.
    destruct (decide (n < k)%Z).
    - by rewrite Z.mul_pow2_bits_low.
    - rewrite <- (Z.mod_small b (2 ^ k)) by lia.
      rewrite Z.mod_pow2_bits_high by lia. apply andb_false_r. }
  by rewrite <- Z.lxor_lor, <- Z.add_nocarry_lxor.
Qed.

Lemma and32_ones (b k : Z) :
  isByte b → (0 ≤ k ≤ 8)%Z → and32 b (Z.ones k) = (b mod 2 ^ k)%Z.
Proof.
  intros Hb Hk. unfold isByte in Hb.
  assert (0 < 2 ^ k ≤ 2 ^ 8)%Z as Hp.
  { split; [apply Z.pow_pos_nonneg; lia|apply Z.pow_le_mono_r; lia]. }
  assert (0 ≤ Z.ones k < 2 ^ 8)%Z as Ho by (rewrite Z.ones_equiv; lia).
  pose proof (Z.mod_pos_bound b (2 ^ k)) as Hm.
  unfold and32. rewrite (toInt32_small b), (toInt32_small (Z.ones k)) by lia.
  rewrite Z.land_ones by lia. apply toInt32_small. lia.
Qed.

Lemma shl32_small (x n : Z) :
  (0 ≤ n)%Z → (0 ≤ x)%Z → (x * 2 ^ n < 2 ^ 31)%Z → shl32 x n = (x * 2 ^ n)%Z.
Proof.
  intros Hn Hx Hb. unfold shl32.
  assert (x ≤ x * 2 ^ n)%Z by (pose proof (Z.pow_pos_nonneg 2 n); nia).
  rewrite (toInt32_small x) by lia.
  rewrite Z.shiftl_mul_pow2 by lia. apply toInt32_small. lia.
Qed.

Lemma or32_disjoint (a b k : Z) :
  (0 ≤ k)%Z → (0 ≤ a)%Z → (0 ≤ b < 2 ^ k)%Z → (a * 2 ^ k + b < 2 ^ 31)%Z →
  or32 (a * 2 ^ k) b = (a * 2 ^ k + b)%Z.
Proof.
  intros Hk Ha Hb Hs. unfold or32.
  assert (0 ≤ a * 2 ^ k)%Z by (pose proof (Z.pow_pos_nonneg 2 k); nia).
  rewrite (toInt32_small (a * 2 ^ k)), (toInt32_small b) by lia.
  rewrite lor_disjoint by lia. apply toInt32_small. lia.
Qed.

Lemma nth_isByte (l : list Z) (k : nat) : Forall isByte l → isByte (nth k l 0%Z).
Proof.
  intros H. rewrite nth_lookup. destruct (l !! k) as [b|] eqn:E; simpl.
  - eapply Forall_forall; [exact H|]. apply list_elem_of_lookup. eauto.
  - unfold isByte. lia.
Qed.

Lemma byteAt_nth (l : list Z) (i : Z) :
  (0 ≤ i)%Z → byteAt l i = nth (Z.to_nat i) l 0%Z.
Proof.
  intros Hi. unfold byteAt. destruct (Z.ltb_spec i 0); [lia|]. by rewrite nth_lookup.
Qed.

(** The 32-bit expression of lines 937-942 computes the dynamic truncation
    of RFC 4226 and prints its last six digits. *)
Lemma truncate_spec (digest : list Z) :
  length digest = 20%nat → Forall isByte digest →
  truncate digest = sixDigits (dynamicTruncation digest mod 1000000)
  ∧ (0 ≤ dynamicTruncation digest < 2 ^ 31)%Z.
Proof.
  intros Hlen Hbytes. unfold truncate, dynamicTruncation. rewrite Hlen.
  change (Z.of_nat 20 - 1)%Z with 19%Z. rewrite (byteAt_nth _ 19) by lia.
  change (Z.to_nat 19) with 19%nat.
  change 15%Z with (Z.ones 4). change 127%Z with (Z.ones 7). change 255%Z with (Z.ones 8).
  pose proof (nth_isByte digest 19 Hbytes) as H19.
  rewrite (and32_ones _ 4 H19) by lia. rewrite (Z.land_ones _ 4) by lia.
  set (o := (nth 19 digest 0 mod 2 ^ 4)%Z).
  assert (0 ≤ o < 16)%Z as Ho by (subst o; apply Z.mod_pos_bound; lia).
  rewrite !byteAt_nth by lia.
  replace (Z.to_nat (o + 1)) with (Z.to_nat o + 1)%nat by lia.
  replace (Z.to_nat (o + 2)) with (Z.to_nat o + 2)%nat by lia.
  replace (Z.to_nat (o + 3)) with (Z.to_nat o + 3)%nat by lia.
  pose proof (nth_isByte digest (Z.to_nat o) Hbytes) as H0.
  pose proof (nth_isByte digest (Z.to_nat o + 1) Hbytes) as H1.
  pose proof (nth_isByte digest (Z.to_nat o + 2) Hbytes) as H2.
  pose proof (nth_isByte digest (Z.to_nat o + 3) Hbytes) as H3.
  set (b0 := nth (Z.to_nat o) digest 0%Z) in *.
  set (b1 := nth (Z.to_nat o + 1) digest 0%Z) in *.
  set (b2 := nth (Z.to_nat o + 2) digest 0%Z) in *.
  set (b3 := nth (Z.to_nat o + 3) digest 0%Z) in *.
  unfold isByte in *.
  rewrite (and32_ones b0 7), !(and32_ones _ 8) by (unfold isByte; lia).
  rewrite (Z.land_ones b0 7) by lia.
  rewrite (Z.mod_small b1 (2 ^ 8)), (Z.mod_small b2 (2 ^ 8)),
    (Z.mod_small b3 (2 ^ 8)) by lia.
  pose proof (Z.mod_pos_bound b0 (2 ^ 7)) as Hm.
  set (t := (b0 mod 2 ^ 7)%Z) in *.
  rewrite (shl32_small t 24), (shl32_small b1 16), (shl32_small b2 8) by lia.
  rewrite (or32_disjoint t (b1 * 2 ^ 16) 24) by lia.
  replace (t * 2 ^ 24 + b1 * 2 ^ 16)%Z with ((t * 2 ^ 8 + b1) * 2 ^ 16)%Z by lia.
  rewrite (or32_disjoint _ (b2 * 2 ^ 8) 16) by lia.
  replace ((t * 2 ^ 8 + b1) * 2 ^ 16 + b2 * 2 ^ 8)%Z
    with ((t * 2 ^ 16 + b1 * 2 ^ 8 + b2) * 2 ^ 8)%Z by lia.
  rewrite (or32_disjoint _ b3 8) by lia.
  split; [|lia].
  rewrite Z.rem_mod_nonneg by lia.
  rewrite padStart_toString by (apply Z.mod_pos_bound; lia).
  repeat f_equal; lia.
Qed.

End TruncateFacts.

Section GenerateFacts.
Import Utils TOTP Props.

Variable hmacSha1 : list Z → list Z → option (list Z).

Lemma cacheSound_empty : cacheSound hmacSha1 ∅.
Proof. intros secret e H. by rewrite lookup_empty in H. Qed.

Lemma cacheSound_insert (cache : gmap string CacheEntry) secret w totpCode :
  cacheSound hmacSha1 cache → computeCode hmacSha1 secret w = Some totpCode →
  cacheSound hmacSha1 (<[secret := mkEntry totpCode w]> cache).
Proof.
  intros Hs Hc s e He. destruct (decide (secret = s)) as [->|Hne].
  - rewrite lookup_insert_eq in He. by injection He as <-.
  - rewrite lookup_insert_ne in He by done. by apply Hs.
Qed.

Lemma cacheSound_filter (cache : gmap string CacheEntry)
    (P : string * CacheEntry → Prop) `{∀ x, Decision (P x)} :
  cacheSound hmacSha1 cache → cacheSound hmacSha1 (filter P cache).
Proof. intros Hs s e He. apply map_lookup_filter_Some in He as [He _]. by apply Hs. Qed.

Lemma cacheSound_aggressive (cache : gmap string CacheEntry) w :
  cacheSound hmacSha1 cache → cacheSound hmacSha1 (aggressiveCleanCache w cache).
Proof.
  intros Hs. unfold aggressiveCleanCache.
  case_match; [apply cacheSound_empty|by apply cacheSound_filter].
Qed.

Lemma generate_sound (w w' : Z) (secret : string) (cache : gmap string CacheEntry) :
  cacheSound hmacSha1 cache → cacheSound hmacSha1 (generate hmacSha1 w w' secret cache).2.
Proof.
  intros Hs. unfold generate.
  assert (cacheSound hmacSha1
            (match computeCode hmacSha1 secret w with
             | None => ("Error", cache)
             | Some totpCode =>
                 (totpCode,
                  if (MAX_CACHE_SIZE <? size (<[secret := mkEntry totpCode w]> cache))%nat
                  then aggressiveCleanCache w' (<[secret := mkEntry totpCode w]> cache)
                  else <[secret := mkEntry totpCode w]> cache)
             end).2) as Hmiss.
  { destruct (computeCode hmacSha1 secret w) as [c|] eqn:E; [|done]. simpl.
    case_match; [apply cacheSound_aggressive|]; by apply cacheSound_insert. }
  destruct (cache !! secret) as [cached|]; [|exact Hmiss].
  case_decide; [done|exact Hmiss].
Qed.

(** On a sound cache, hit or miss, [generate] returns the code computed
    for the secret and the window. *)
Lemma generate_value (w w' : Z) (secret : string) (cache : gmap string CacheEntry)
    (totpCode : string) :
  cacheSound hmacSha1 cache → computeCode hmacSha1 secret w = Some totpCode →
  (generate hmacSha1 w w' secret cache).1 = totpCode.
Proof.
  intros Hs Hc. unfold generate. rewrite Hc.
  destruct (cache !! secret) as [cached|] eqn:E; [|done].
  case_decide as Hw; [|done]. simpl.
  apply Hs in E. rewrite Hw, Hc in E. by injection E.
Qed.

Lemma timeBuffer_bigEndian (w : Z) : (0 ≤ w < 2 ^ 32)%Z → timeBuffer w = bigEndian8 w.
Proof.
  intros Hw. unfold timeBuffer, bigEndian8, toUint32.
  rewrite (Z.mod_small w (2 ^ 32)) by lia.
  rewrite !Z.shiftr_div_pow2 by lia.
  rewrite !(Z.div_small w (256 ^ _)) by lia.
  change (256 ^ 3)%Z with (2 ^ 24)%Z. change (256 ^ 2)%Z with (2 ^ 16)%Z.
  change 256%Z with (2 ^ 8)%Z at 9. done.
Qed.


Lemma indexOf_equals : indexOf "="%char alphabet = None.
Proof. by vm_compute. Qed.

(** The decoding loop throws at the first character that is neither in the
    alphabet nor the pad character, whatever state it has reached. *)
Lemma decodeLoop_invalid (pre : string) (ch : ascii) (rest : string) :
  Forall base32Char (list_ascii_of_string pre) →
  ¬ base32Char ch → upperChar ch ≠ "="%char →
  ∀ bits value output index,
    decodeLoop (pre +:+ String ch rest) bits value output index = None.
Proof.
  intros Hpre Hch Heq. induction pre as [|c pre IH]; intros bits value output index.
  - change (decodeLoop (String ch rest) bits value output index = None).
    cbn [decodeLoop]. destruct (Ascii.eqb_spec (upperChar ch) "="%char); [done|].
    destruct (indexOf (upperChar ch) alphabet) eqn:E; [|done].
    exfalso. apply Hch. unfold base32Char. by rewrite E.
  - change (decodeLoop (String c (pre +:+ String ch rest)) bits value output index = None).
    simpl in Hpre. apply Forall_cons in Hpre as [Hc Hpre].
    cbn [decodeLoop]. destruct (Ascii.eqb_spec (upperChar c) "="%char) as [E|_].
    + exfalso. destruct Hc as [k Hk]. rewrite E, indexOf_equals in Hk. discriminate.
    + destruct Hc as [k ->]. case_match; by apply IH.
Qed.


(** Lines 945-950 and [aggressiveCleanCache]: the three outcomes of storing
    an entry. *)
Lemma insert_then_clean (w' : Z) (secret : string) (e : CacheEntry)
    (cache : gmap string CacheEntry) :
  let inserted := <[secret := e]> cache in
  let purged := filter (λ kv : string * CacheEntry, timeWindow kv.2 = w') inserted in
  let after := if (MAX_CACHE_SIZE <? size inserted)%nat
               then aggressiveCleanCache w' inserted else inserted in
  size after ≤ MAX_CACHE_SIZE
  ∧ ((size inserted ≤ MAX_CACHE_SIZE ∧ after = inserted)
     ∨ (MAX_CACHE_SIZE < size inserted ∧ size purged ≤ MAX_CACHE_SIZE
        ∧ after = purged)
     ∨ (MAX_CACHE_SIZE < size inserted ∧ MAX_CACHE_SIZE < size purged
        ∧ after = ∅)).
Proof.
  intros inserted purged after. subst after. unfold aggressiveCleanCache.
  fold inserted. fold purged.
  destruct (Nat.ltb_spec MAX_CACHE_SIZE (size inserted));
    [destruct (Nat.ltb_spec MAX_CACHE_SIZE (size purged))|].
  - split; [rewrite map_size_empty; lia|]. right. right. done.
  - split; [done|]. right. left. done.
  - split; [done|]. left. done.
Qed.

Lemma generate_size (w w' : Z) (secret : string) (cache : gmap string CacheEntry) :
  size cache ≤ MAX_CACHE_SIZE →
  size (generate hmacSha1 w w' secret cache).2 ≤ MAX_CACHE_SIZE.
Proof.
  intros Hsize. unfold generate.
  destruct (computeCode hmacSha1 secret w) as [totpCode|]; [|by repeat case_match].
  pose proof (insert_then_clean w' secret (mkEntry totpCode w) cache) as [Hb _].
  by repeat case_match.
Qed.


End GenerateFacts.

Section PlatformFacts.
Import Utils TOTP Props.

Lemma sha1_sized (msg : list Z) :
  length (WebCrypto.sha1 msg) = 20%nat ∧ Forall isByte (WebCrypto.sha1 msg).
Proof.
  unfold WebCrypto.sha1, WebCrypto.be32. cbn [app length]. split; [done|].
  repeat (constructor; [apply Z.mod_pos_bound; lia|]). constructor.
Qed.

Lemma webcrypto_sized : sha1Sized WebCrypto.hmacSha1.
Proof. intros key msg digest [= <-]. apply sha1_sized. Qed.

(** RFC 4226, appendix D: secret "12345678901234567890", counters 0 and 1. *)
Example rfc4226_vectors :
  base32Decode Samples.secretY = Some (bytesOf "12345678901234567890")
  ∧ (generate WebCrypto.hmacSha1 0 0 Samples.secretY ∅).1 = "755224"
  ∧ (generate WebCrypto.hmacSha1 1 1 Samples.secretY ∅).1 = "287082".
Proof. by vm_compute. Qed.




(** From the empty cache of a fresh page, any run of [generate],
    [cleanCache] and [clearAll] keeps the cache within the bound. *)
Lemma run_bounded hmacSha1 (ops : list CacheOp) :
  size (fold_left (applyOp hmacSha1) ops ∅) ≤ MAX_CACHE_SIZE.
Proof.
  assert (∀ cache, size cache ≤ MAX_CACHE_SIZE →
            size (fold_left (applyOp hmacSha1) ops cache) ≤ MAX_CACHE_SIZE) as H.
  { induction ops as [|op ops IH]; intros cache Hc; [done|]. simpl. apply IH.
    destruct op as [w w' secret|w|]; simpl.
    - by apply generate_size.
    - unfold cleanCache. etrans; [apply map_size_filter|done].
    - unfold clearAll. rewrite map_size_empty. lia. }
  apply H. rewrite map_size_empty. lia.
Qed.

End PlatformFacts.

Section DetectFacts.
Import Utils FileParser Props.

(** The counting loop counts. *)
Lemma score_count (lines : list string) (delim : string) :
  score lines delim = countScore lines delim.
Proof.
  unfold score, countScore.
  assert (∀ a, fold_left (λ score line,
                 if (3 <=? length (split delim line))%nat then S score else score)
               lines a
             = (a + length (filter (λ line, 3 ≤ length (split delim line)) lines))%nat) as H.
  { induction lines as [|l lines IH]; intros a; [simpl; lia|].
    cbn [fold_left]. rewrite IH, filter_cons.
    destruct (Nat.leb_spec 3 (length (split delim l)));
      [rewrite decide_True by lia|rewrite decide_False by lia];
      cbn [length]; lia. }
  apply H.
Qed.

(** Every candidate is a new key of [scores], so the entries are the
    candidates in list order. *)
Lemma scores_entries (f : string → nat) :
  fold_left (λ scores delim, objectSet delim (f delim) scores) delimiters []
  = (λ d, (d, f d)) <$> delimiters.
Proof. by vm_compute. Qed.

(** The head of the stably sorted entries is the first maximum. *)
Lemma sort_head (entries : list (string * nat)) :
  head (sort byScore entries) = firstMax entries.
Proof.
  induction entries as [|x r IH]; [done|].
  change (sort byScore (x :: r)) with (sortInsert byScore x (sort byScore r)).
  simpl firstMax. rewrite <- IH.
  destruct (sort byScore r) as [|y s]; [done|]. simpl. unfold byScore at 1.
  destruct (Z.leb_spec (Z.of_nat y.2 - Z.of_nat x.2) 0);
    destruct (Nat.leb_spec y.2 x.2); simpl; try done; lia.
Qed.

Lemma firstMax_nonempty (entries : list (string * nat)) :
  entries ≠ [] → is_Some (firstMax entries).
Proof.
  destruct entries as [|x r]; [done|]. intros _. simpl.
  destruct (firstMax r); [case_match|]; eauto.
Qed.

Lemma firstMax_some (entries : list (string * nat)) (m : string * nat) :
  firstMax entries = Some m →
  ∃ i, entries !! i = Some m
       ∧ ∀ j y, entries !! j = Some y → y.2 ≤ m.2 ∧ (j < i → y.2 < m.2).
Proof.
  revert m. induction entries as [|x r IH]; intros m Hm; [done|].
  simpl in Hm. destruct (firstMax r) as [m'|] eqn:E.
  - destruct (IH m' eq_refl) as (i & Hi & Hall).
    destruct (Nat.leb_spec m'.2 x.2); injection Hm as <-.
    + exists 0. split; [done|]. intros [|j] y Hy; simpl in Hy.
      * injection Hy as <-. lia.
      * destruct (Hall j y Hy). lia.
    + exists (S i). split; [done|]. intros [|j] y Hy; simpl in Hy.
      * injection Hy as <-. lia.
      * destruct (Hall j y Hy). split; [done|]. intros. apply H1. lia.
  - injection Hm as <-. exists 0. split; [done|].
    destruct r as [|p r].
    + intros [|j] y Hy; simpl in Hy; [injection Hy as <-; lia|done].
    + destruct (firstMax_nonempty (p :: r)) as [? Hs]; [done|]. congruence.
Qed.

Lemma firstBest_unique (f : string → nat) (l : list string) i d i' d' :
  firstBest f l i d → firstBest f l i' d' → i = i' ∧ d = d'.
Proof.
  intros [Hi Hall] [Hi' Hall'].
  destruct (Hall i' d' Hi') as [? ?]. destruct (Hall' i d Hi) as [? ?].
  assert (i = i') as -> by (destruct (Nat.lt_trichotomy i i') as [|[|]]; [|done|]; lia).
  split; [done|congruence].
Qed.

Lemma firstMax_firstBest (f : string → nat) (l : list string) (m : string * nat) :
  firstMax ((λ d, (d, f d)) <$> l) = Some m →
  m.2 = f m.1 ∧ ∃ i, firstBest f l i m.1.
Proof.
  intros Hm. apply firstMax_some in Hm as (i & Hi & Hall).
  rewrite list_lookup_fmap in Hi. destruct (l !! i) as [d|] eqn:E; [|done].
  injection Hi as <-. split; [done|]. exists i. split; [done|].
  intros j d' Hj. apply (Hall j (d', f d')). by rewrite list_lookup_fmap, Hj.
Qed.


Example detectDelimiter_samples :
  detectDelimiter "a:b:c|d" = Some ":"
  ∧ detectDelimiter "a|b:c|d:e" = Some "|"
  ∧ detectDelimiter "a;;b;;c" = Some ";"
  ∧ detectDelimiter "user@x.com,pw" = None
  ∧ detectDelimiter "" = None.
Proof. by vm_compute. Qed.

End DetectFacts.

(* ====================================================================== *)
(** ** Further properties of the data store                                *)
(* ====================================================================== *)

Section StoreInvariants.
Import Utils DataStore Props Frame.

Lemma seqZ_snoc (n : nat) : seqZ 0 (Z.of_nat (S n)) = seqZ 0 (Z.of_nat n) ++ [Z.of_nat n].
Proof. rewrite seqZ_S. by rewrite Z.add_0_l. Qed.

Lemma dense_snoc (l : list Account) (a : Account) :
  acc_order <$> l ≡ₚ seqZ 0 (Z.of_nat (length l)) →
  acc_order a = Z.of_nat (length l) →
  acc_order <$> (l ++ [a]) ≡ₚ seqZ 0 (Z.of_nat (length (l ++ [a]))).
Proof.
  intros Hd Ha. rewrite fmap_app, length_app. simpl.
  replace (length l + 1)%nat with (S (length l)) by lia.
  rewrite seqZ_snoc, Ha. by apply Permutation_app.
Qed.

(** X1. [addAccount] appends one account whose order is the old count, so
    a dense store stays dense; the new account carries the UUID it was
    given, and ids stay unique when that UUID is not in use. *)
Theorem addAccount_keeps_dense (uuid : string) (now : Z) (c : Candidate)
    (ds : DataStore) :
  dense ds →
  let r := addAccount uuid now c ds in
  accounts r.2 = accounts ds ++ [r.1]
  ∧ acc_id r.1 = uuid
  ∧ acc_order r.1 = Z.of_nat (length (accounts ds))
  ∧ dense r.2
  ∧ (uniqueIds ds → (∀ a, a ∈ accounts ds → acc_id a ≠ uuid) → uniqueIds r.2).
Proof.
  intros Hd r. split; [done|]. split; [done|]. split; [done|]. split.
  - unfold dense, orders. subst r. rewrite addAccount_accounts. by apply dense_snoc.
  - intros Hu Hfresh. unfold uniqueIds. subst r. rewrite addAccount_accounts, fmap_app.
    apply NoDup_app. split; [done|]. split; [|apply NoDup_singleton].
    intros x Hx Hx'. simpl in Hx'. apply list_elem_of_singleton in Hx' as ->.
    apply list_elem_of_fmap in Hx as (a & Ha & Hin). by apply (Hfresh a Hin).
Qed.

Lemma addAccount_keeps_dense_witness :
  let r := addAccount "id-d" 5 (Samples.candidate " D@x.com" "" []) Samples.three in
  accounts r.2 = accounts Samples.three ++ [r.1]
  ∧ acc_id r.1 = "id-d"
  ∧ acc_order r.1 = Z.of_nat (length (accounts Samples.three))
  ∧ dense r.2
  ∧ (uniqueIds Samples.three → (∀ a, a ∈ accounts Samples.three → acc_id a ≠ "id-d") →
     uniqueIds r.2).
Proof.
  apply (addAccount_keeps_dense "id-d" 5 (Samples.candidate " D@x.com" "" [])
           Samples.three).
  vm_compute. reflexivity.
Defined.

Lemma orders_insert_same (l : list Account) (i : nat) (a a' : Account) :
  l !! i = Some a → acc_order a' = acc_order a →
  acc_order <$> <[i := a']> l = acc_order <$> l.
Proof.
  intros Hi Ho. rewrite list_fmap_insert, Ho. apply list_insert_id.
  by rewrite list_lookup_fmap, Hi.
Qed.

Lemma ids_insert_same (l : list Account) (i : nat) (a a' : Account) :
  l !! i = Some a → acc_id a' = acc_id a →
  acc_id <$> <[i := a']> l = acc_id <$> l.
Proof.
  intros Hi Ho. rewrite list_fmap_insert, Ho. apply list_insert_id.
  by rewrite list_lookup_fmap, Hi.
Qed.



End StoreInvariants.

Section ImportInvariants.
Import Utils DataStore Props Frame.

Lemma keeps_refl (a : Account) : keeps a a.
Proof. unfold keeps. repeat split; done. Qed.

Lemma keeps_trans (a b c : Account) : keeps a b → keeps b c → keeps a c.
Proof.
  unfold keeps.
  intros (A1 & A2 & A3 & A4 & A5 & A6 & A7 & A8 & A9 & A10 & A11)
         (B1 & B2 & B3 & B4 & B5 & B6 & B7 & B8 & B9 & B10 & B11).
  repeat split; try congruence.
  - by etrans.
  - intros Ht. rewrite B11; [by apply A11|]. by rewrite A11.
Qed.

Lemma keepsAll_refl (l : list Account) : keepsAll l l.
Proof. intros i a Hi. exists a. split; [done|apply keeps_refl]. Qed.

Lemma keepsAll_trans (l1 l2 l3 : list Account) :
  keepsAll l1 l2 → keepsAll l2 l3 → keepsAll l1 l3.
Proof.
  intros H12 H23 i a Hi. destruct (H12 i a Hi) as (b & Hb & Kab).
  destruct (H23 i b Hb) as (c & Hc & Kbc). exists c. split; [done|].
  by eapply keeps_trans.
Qed.

Lemma keepsAll_snoc (l : list Account) (x : Account) : keepsAll l (l ++ [x]).
Proof.
  intros i a Hi. exists a. split; [|apply keeps_refl]. by apply lookup_app_l_Some.
Qed.

Lemma keepsAll_insert (l : list Account) (i : nat) (a a' : Account) :
  l !! i = Some a → keeps a a' → keepsAll l (<[i := a']> l).
Proof.
  intros Hi K j b Hj. destruct (decide (j = i)) as [->|Hne].
  - exists a'. rewrite list_lookup_insert_eq by (by eapply lookup_lt_Some).
    split; [done|]. congruence.
  - exists b. rewrite list_lookup_insert_ne by done. split; [done|apply keeps_refl].
Qed.

Lemma keeps_merged (existing : Account) (new : list string) :
  keeps existing (set_extras (mergeExtras (acc_extras existing) new).1 existing).
Proof.
  destruct (mergeExtras_appends (acc_extras existing) new) as (pushed & -> & _).
  unfold keeps. simpl. repeat split; try done. by exists pushed.
Qed.

Lemma keeps_adopted (existing : Account) (t : string) (new : list string) :
  hasTOTP (acc_totp existing) = false →
  keeps existing
    (set_extras (mergeExtras (acc_extras existing) new).1 (set_totp t existing)).
Proof.
  intros Hno. destruct (mergeExtras_appends (acc_extras existing) new) as (pushed & -> & _).
  unfold keeps. simpl. repeat split; try done; [by exists pushed|].
  intros Ht. by apply hasTOTP_false in Hno.
Qed.

(** One round of the import either leaves the list length, the orders and
    the number of save requests as they are and counts the candidate as
    updated or skipped, or appends one account and counts it as added. *)
Lemma importOne_shape (fresh : nat → string * Z) (ds : DataStore) (st : Stats)
    (c : Candidate) :
  let r := importOne fresh (ds, st) c in
  keepsAll (accounts ds) (accounts r.1)
  ∧ ((length (accounts r.1) = length (accounts ds)
      ∧ orders r.1 = orders ds
      ∧ autoSaveCalls r.1 = autoSaveCalls ds
      ∧ added r.2 = added st
      ∧ (updated r.2 + skipped r.2 = S (updated st + skipped st))%nat)
     ∨ (∃ new, accounts r.1 = accounts ds ++ [new]
          ∧ acc_order new = Z.of_nat (length (accounts ds))
          ∧ autoSaveCalls r.1 = S (autoSaveCalls ds)
          ∧ added r.2 = S (added st)
          ∧ updated r.2 = updated st ∧ skipped r.2 = skipped st)).
Proof.
  intros r. subst r. unfold importOne, mergeAndCount.
  assert (∀ uuid now,
            keepsAll (accounts ds) (accounts (addAccount uuid now c ds).2)
            ∧ ∃ new, accounts (addAccount uuid now c ds).2 = accounts ds ++ [new]
                ∧ acc_order new = Z.of_nat (length (accounts ds))
                ∧ autoSaveCalls (addAccount uuid now c ds).2 = S (autoSaveCalls ds)) as Hadd.
  { intros uuid now. split; [apply keepsAll_snoc|]. by eexists. }
  destruct (list_find (sameLogin c) (accounts ds)) as [[index existing]|] eqn:Hf.
  2:{ destruct (Hadd (fresh (added st)).1 (fresh (added st)).2) as (K & new & H1 & H2 & H3).
      split; [exact K|]. right. exists new. cbn [fst snd]. by repeat split. }
  apply list_find_Some in Hf as (Hi & _ & _).
  destruct (hasTOTP (acc_totp existing)) eqn:Em;
    destruct (hasTOTP (c_totp c)) eqn:Ec; cbn [andb negb].
  - destruct (String.eqb (acc_totp existing) (c_totp c)).
    + pose proof (keeps_merged existing (c_extras c)) as K.
      destruct (mergeExtras (acc_extras existing) (c_extras c)) as [ex [|]];
        cbn [fst snd] in *; unfold orders; simpl;
        (split; [by eapply keepsAll_insert|]); left;
        rewrite length_insert, (orders_insert_same _ _ existing) by done;
        repeat split; lia.
    + destruct (Hadd (fresh (added st)).1 (fresh (added st)).2)
        as (K & new & H1 & H2 & H3).
      split; [exact K|]. right. exists new. cbn [fst snd]. by repeat split.
  - split; [apply keepsAll_refl|]. left. repeat split; simpl; lia.
  - pose proof (keeps_adopted existing (c_totp c) (c_extras c) Em) as K.
    cbn [fst snd]. unfold orders. simpl. split; [by eapply keepsAll_insert|]. left.
    rewrite length_insert, (orders_insert_same _ _ existing) by done.
    repeat split; lia.
  - pose proof (keeps_merged existing (c_extras c)) as K.
    destruct (mergeExtras (acc_extras existing) (c_extras c)) as [ex [|]];
      cbn [fst snd] in *; unfold orders; simpl;
      (split; [by eapply keepsAll_insert|]); left;
      rewrite length_insert, (orders_insert_same _ _ existing) by done;
      repeat split; lia.
Qed.

Lemma import_fold (fresh : nat → string * Z) (batch : list Candidate) :
  ∀ (ds : DataStore) (st : Stats),
    let r := fold_left (importOne fresh) batch (ds, st) in
    (added r.2 + updated r.2 + skipped r.2
     = added st + updated st + skipped st + length batch)%nat
    ∧ (length (accounts r.1) + added st = length (accounts ds) + added r.2)%nat
    ∧ (autoSaveCalls r.1 + added st = autoSaveCalls ds + added r.2)%nat
    ∧ (dense ds → dense r.1)
    ∧ keepsAll (accounts ds) (accounts r.1).
Proof.
  induction batch as [|c batch IH]; intros ds st r; subst r.
  - simpl. repeat split; try lia; try done. apply keepsAll_refl.
  - cbn [fold_left].
    destruct (importOne_shape fresh ds st c) as [K Hshape].
    destruct (importOne fresh (ds, st) c) as [ds1 st1]. cbn [fst snd] in *.
    destruct (IH ds1 st1) as (I1 & I2 & I3 & I4 & I5).
    assert (dense ds → dense ds1) as Hd.
    { intros Hd. destruct Hshape as [(Hl & Ho & _)|(new & Ha & Hn & _)].
      - unfold dense. by rewrite Hl, Ho.
      - unfold dense, orders. rewrite Ha. by apply dense_snoc. }
    split; [|split; [|split; [|split]]].
    + destruct Hshape as [(_ & _ & _ & ? & ?)|(new & _ & _ & _ & ? & ? & ?)];
        simpl; lia.
    + destruct Hshape as [(? & _ & _ & ? & _)|(new & Ha & _ & _ & ? & _)].
      * lia.
      * rewrite Ha, length_app in I2. simpl in I2. lia.
    + destruct Hshape as [(_ & _ & ? & ? & _)|(new & _ & _ & ? & ? & _)]; lia.
    + intros Hds. by apply I4, Hd.
    + by eapply keepsAll_trans.
Qed.

(** X3. Every candidate of a batch is counted exactly once: added + updated
    + skipped is the batch length. The store grows by exactly [added]
    accounts, and the import asks for one save per inserted account plus one
    at the end. *)
Theorem import_accounting (fresh : nat → string * Z) (batch : list Candidate)
    (ds : DataStore) :
  let r := importAccounts fresh batch ds in
  (added r.1 + updated r.1 + skipped r.1 = length batch)%nat
  ∧ (length (accounts r.2) = length (accounts ds) + added r.1)%nat
  ∧ (autoSaveCalls r.2 = autoSaveCalls ds + added r.1 + 1)%nat.
Proof.
  intros r. subst r. unfold importAccounts.
  destruct (import_fold fresh batch ds (mkStats 0 0 0)) as (H1 & H2 & H3 & _).
  destruct (fold_left _ _ _) as [ds' st']. cbn [fst snd] in *. simpl in *.
  repeat split; lia.
Qed.

(** X4. An import keeps the dense-permutation invariant of the order
    values: merges leave orders alone and every insert takes the next free
    position. *)
Theorem import_keeps_dense (fresh : nat → string * Z) (batch : list Candidate)
    (ds : DataStore) :
  dense ds → dense (importAccounts fresh batch ds).2.
Proof.
  intros Hd. unfold importAccounts.
  destruct (import_fold fresh batch ds (mkStats 0 0 0)) as (_ & _ & _ & H4 & _).
  destruct (fold_left _ _ _) as [ds' st']. cbn [fst snd] in *. by apply H4.
Qed.

Lemma import_keeps_dense_witness :
  dense (importAccounts Samples.fresh Samples.twoSecrets Samples.three).2.
Proof.
  apply (import_keeps_dense Samples.fresh Samples.twoSecrets Samples.three).
  vm_compute. reflexivity.
Defined.

(** X5. An import never removes, moves or re-identifies a stored account:
    after it, every account that was stored is at the same position with
    the same id, email, password, tags, flags, dates and order; its extras
    have only grown at the end; and if it had a secret (non-empty after
    trim), it has exactly that secret still. *)
Theorem import_keeps_accounts (fresh : nat → string * Z) (batch : list Candidate)
    (ds : DataStore) :
  keepsAll (accounts ds) (accounts (importAccounts fresh batch ds).2).
Proof.
  unfold importAccounts.
  destruct (import_fold fresh batch ds (mkStats 0 0 0)) as (_ & _ & _ & _ & H5).
  destruct (fold_left _ _ _) as [ds' st']. by cbn [fst snd] in *.
Qed.

End ImportInvariants.

Section ReorderMore.
Import Utils DataStore Props.

(** On a store with unique ids and pairwise distinct orders, a reorder
    changes nothing but order fields, and those by [moveOrder]. *)
Lemma reorder_accounts (ds : DataStore) (k : nat) (a : Account) (newOrder : Z) :
  uniqueIds ds → NoDup (orders ds) → accounts ds !! k = Some a →
  accounts (reorderAccounts (acc_id a) newOrder ds).2
  = (λ b, set_order (moveOrder (acc_order a) newOrder (acc_order b)) b) <$> accounts ds.
Proof.
  intros Hu Hn Hk. unfold reorderAccounts. rewrite (find_by_id ds k a Hu Hk).
  simpl. apply list_eq. intros j. rewrite !list_lookup_fmap.
  destruct (decide (j = k)) as [->|Hjk].
  - rewrite list_lookup_insert_eq by (by eapply lookup_lt_Some). rewrite Hk. simpl.
    f_equal. unfold shiftOther, moveOrder. simpl. by rewrite !decide_True.
  - rewrite list_lookup_insert_ne by done.
    destruct (accounts ds !! j) as [b|] eqn:Hb; [|done]. simpl. f_equal.
    assert (acc_id b ≠ acc_id a) as Hid.
    { intros E. apply Hjk.
      apply (NoDup_lookup _ j k (acc_id a) Hu); rewrite list_lookup_fmap.
      - by rewrite Hb, <- E.
      - by rewrite Hk. }
    assert (acc_order b ≠ acc_order a) as Hord.
    { intros E. apply Hjk.
      apply (NoDup_lookup _ j k (acc_order a) Hn); unfold orders;
        rewrite list_lookup_fmap.
      - by rewrite Hb, <- E.
      - by rewrite Hk. }
    unfold shiftOther, moveOrder. rewrite !decide_False by done.
    destruct (Z.ltb_spec (acc_order a) newOrder);
      destruct (Z.ltb_spec (acc_order a) (acc_order b));
      destruct (Z.leb_spec (acc_order b) newOrder);
      destruct (Z.leb_spec newOrder (acc_order b));
      destruct (Z.ltb_spec (acc_order b) (acc_order a));
      simpl; repeat case_decide; simpl;
      try (symmetry; apply set_order_same); try (f_equal; lia); lia.
Qed.

Lemma moveOrder_inverse (oldOrder newOrder o : Z) :
  moveOrder newOrder oldOrder (moveOrder oldOrder newOrder o) = o.
Proof. unfold moveOrder. repeat case_decide; lia. Qed.

(** X6. Moving an account to another position and then back to the order
    it had restores every account of the store exactly (dense store, unique
    ids, target position in range). *)
Theorem reorder_there_and_back (ds : DataStore) (a : Account) (newOrder : Z) :
  dense ds → uniqueIds ds → a ∈ accounts ds →
  (0 ≤ newOrder < Z.of_nat (length (accounts ds)))%Z →
  accounts (reorderAccounts (acc_id a) (acc_order a)
              (reorderAccounts (acc_id a) newOrder ds).2).2
  = accounts ds.
Proof.
  intros Hd Hu Hin Hnew. apply list_elem_of_lookup in Hin as [k Hk].
  pose proof (dense_NoDup ds Hd) as Hnd.
  pose proof (reorder_accounts ds k a newOrder Hu Hnd Hk) as H1.
  set (ds1 := (reorderAccounts (acc_id a) newOrder ds).2) in *.
  assert (0 ≤ acc_order a < Z.of_nat (length (accounts ds)))%Z as Hold.
  { assert (acc_order a ∈ orders ds) as Ho.
    { unfold orders. apply list_elem_of_fmap. exists a. split; [done|].
      apply list_elem_of_lookup. eauto. }
    unfold dense in Hd. rewrite Hd in Ho. apply elem_of_seqZ in Ho. lia. }
  assert (uniqueIds ds1) as Hu1.
  { unfold uniqueIds. rewrite H1, <- list_fmap_compose.
    rewrite (list_fmap_ext _ acc_id (accounts ds)); [done|]. by intros i [].  }
  assert (NoDup (orders ds1)) as Hnd1.
  { unfold orders. rewrite H1, <- list_fmap_compose.
    rewrite (list_fmap_ext _ (moveOrder (acc_order a) newOrder ∘ acc_order) (accounts ds))
      by done.
    rewrite list_fmap_compose. fold (orders ds). unfold dense in Hd. rewrite Hd.
    rewrite moveOrder_perm by done. apply NoDup_seqZ. }
  assert (accounts ds1 !! k = Some (set_order newOrder a)) as Hk1.
  { rewrite H1, list_lookup_fmap, Hk. simpl. f_equal. f_equal.
    unfold moveOrder. by rewrite decide_True. }
  pose proof (reorder_accounts ds1 k (set_order newOrder a) (acc_order a) Hu1 Hnd1 Hk1)
    as H2.
  change (acc_id (set_order newOrder a)) with (acc_id a) in H2.
  rewrite H2, H1, <- list_fmap_compose.
  rewrite <- (list_fmap_id (accounts ds)) at 2. apply list_fmap_ext.
  intros i b _. simpl. rewrite moveOrder_inverse. by destruct b.
Qed.

Lemma reorder_there_and_back_witness :
  accounts (reorderAccounts "id-a" 0
              (reorderAccounts "id-a" 2 Samples.three).2).2
  = accounts Samples.three.
Proof.
  apply (reorder_there_and_back Samples.three (Samples.account "id-a" "a@x.com" "" 0) 2).
  - vm_compute. reflexivity.
  - apply (bool_decide_unpack _). by vm_compute.
  - vm_compute. left.
  - by vm_compute.
Defined.

(** X7. Position [count] is out of range for a move: on a dense store of N
    accounts with unique ids, [reorderAccounts(id, N)] gives the moved account
    order N and shifts the accounts behind it down, so the orders become
    0, ..., N-2 and N: position N-1 is left empty and the store is no longer
    dense. (The drop handler passes [target.order + 1], which is N below the
    last card.) *)
Theorem reorder_to_count_leaves_gap (ds : DataStore) (a : Account) :
  dense ds → uniqueIds ds → a ∈ accounts ds →
  let n := Z.of_nat (length (accounts ds)) in
  let r := reorderAccounts (acc_id a) n ds in
  r.1 = true
  ∧ orders r.2 ≡ₚ seqZ 0 (n - 1) ++ [n]
  ∧ ¬ dense r.2.
Proof.
  intros Hd Hu Hin n r. apply list_elem_of_lookup in Hin as [k Hk].
  pose proof (dense_NoDup ds Hd) as Hnd.
  assert (0 ≤ acc_order a < n)%Z as Hold.
  { assert (acc_order a ∈ orders ds) as Ho.
    { unfold orders. apply list_elem_of_fmap. exists a. split; [done|].
      apply list_elem_of_lookup. eauto. }
    unfold dense in Hd. rewrite Hd in Ho. apply elem_of_seqZ in Ho. lia. }
  assert (orders r.2 ≡ₚ seqZ 0 (n - 1) ++ [n]) as Hperm.
  { subst r. rewrite (reorder_orders ds k a n Hu Hnd Hk).
    unfold dense in Hd. rewrite Hd. fold n. apply NoDup_Permutation.
    - apply NoDup_fmap_2_strong; [|apply NoDup_seqZ].
      intros x y _ _. unfold moveOrder. repeat case_decide; lia.
    - apply NoDup_app. split; [apply NoDup_seqZ|]. split; [|apply NoDup_singleton].
      intros x Hx Hx'. apply elem_of_seqZ in Hx.
      apply list_elem_of_singleton in Hx'. lia.
    - intros x. rewrite list_elem_of_fmap, elem_of_app, list_elem_of_singleton.
      setoid_rewrite elem_of_seqZ. split.
      + intros (y & -> & Hy). unfold moveOrder. repeat case_decide; lia.
      + intros Hx.
        exists (if decide (x = n) then acc_order a
                else if decide (acc_order a ≤ x)%Z then (x + 1)%Z else x).
        unfold moveOrder. repeat case_decide; lia. }
  split; [subst r; unfold reorderAccounts; by rewrite (find_by_id ds k a Hu Hk)|].
  split; [done|].
  unfold dense. subst r. rewrite reorder_length. fold n. rewrite Hperm. intros Hp.
  assert (n ∈ seqZ 0 n) as Hn.
  { rewrite <- Hp. apply elem_of_app. right. apply list_elem_of_here. }
  apply elem_of_seqZ in Hn. lia.
Qed.

Lemma reorder_to_count_leaves_gap_witness :
  let r := reorderAccounts "id-a" 3 Samples.three in
  r.1 = true ∧ orders r.2 ≡ₚ seqZ 0 (3 - 1) ++ [3%Z] ∧ ¬ dense r.2.
Proof.
  apply (reorder_to_count_leaves_gap Samples.three
           (Samples.account "id-a" "a@x.com" "" 0)).
  - vm_compute. reflexivity.
  - apply (bool_decide_unpack _). by vm_compute.
  - vm_compute. left.
Defined.

End ReorderMore.

(* ====================================================================== *)
(** ** Further properties of the OTP generator                             *)
(* ====================================================================== *)

Section WordFacts.
Import Utils TOTP Props.

Lemma toInt32_mod (x : Z) : (toInt32 x mod 2 ^ 32 = x mod 2 ^ 32)%Z.
Proof. unfold toInt32. Z.to_euclidean_division_equations. lia. Qed.

Lemma toInt32_range (x : Z) : (- 2 ^ 31 ≤ toInt32 x < 2 ^ 31)%Z.
Proof. unfold toInt32. pose proof (Z.mod_pos_bound (x + 2 ^ 31) (2 ^ 32)). lia. Qed.

Lemma toInt32_idem (x : Z) : toInt32 (toInt32 x) = toInt32 x.
Proof. apply toInt32_small, toInt32_range. Qed.

(** [(value << 5) | charIndex] is 32 * value + charIndex modulo 2^32. *)
Lemma or32_shl32_mod (value idx : Z) :
  (0 ≤ idx < 32)%Z →
  (or32 (shl32 value 5) idx mod 2 ^ 32 = (32 * value + idx) mod 2 ^ 32)%Z.
Proof.
  intros Hi. unfold or32. rewrite toInt32_mod.
  unfold shl32. rewrite toInt32_idem, (toInt32_small idx) by lia.
  rewrite Z.shiftl_mul_pow2 by lia.
  set (y := toInt32 value).
  assert (toInt32 (y * 2 ^ 5) mod 32 = 0)%Z as Hdiv
    by (unfold toInt32; Z.to_euclidean_division_equations; lia).
  assert (toInt32 (y * 2 ^ 5) = toInt32 (y * 2 ^ 5) / 32 * 2 ^ 5)%Z as Hq
    by (Z.to_euclidean_division_equations; lia).
  rewrite Hq, lor_disjoint by lia. rewrite <- Hq.
  pose proof (toInt32_mod (y * 2 ^ 5)) as H1. pose proof (toInt32_mod value) as H2.
  fold y in H2. Z.to_euclidean_division_equations. lia.
Qed.

(** [(value >>> s) & 255] is byte number [s / 8] of the low 32 bits. *)
Lemma and32_shru32 (value s : Z) :
  (0 ≤ s)%Z →
  and32 (shru32 value s) 255 = ((value mod 2 ^ 32) / 2 ^ s mod 256)%Z.
Proof.
  intros Hs. unfold and32, shru32, toUint32. rewrite Z.shiftr_div_pow2 by lia.
  set (x := (value mod 2 ^ 32 / 2 ^ s)%Z). rewrite (toInt32_small 255) by lia.
  change 255%Z with (Z.ones 8). rewrite Z.land_ones by lia.
  rewrite toInt32_small by (pose proof (Z.mod_pos_bound (toInt32 x) (2 ^ 8)); lia).
  pose proof (toInt32_mod x). Z.to_euclidean_division_equations. lia.
Qed.

End WordFacts.

Section Base32Facts.
Import Utils TOTP Props Base32Spec.

Lemma bigEndian_snoc (l : list Z) (b : Z) : bigEndian (l ++ [b]) = (bigEndian l * 256 + b)%Z.
Proof. unfold bigEndian. by rewrite fold_left_app. Qed.

Lemma take_S_insert (l : list Z) (i : nat) (b : Z) :
  (i < length l)%nat → take (S i) (<[i := b]> l) = take i l ++ [b].
Proof.
  revert i. induction l as [|x l IH]; intros i Hi; simpl in Hi; [lia|].
  destruct i as [|i]; simpl; [done|]. f_equal. apply IH. lia.
Qed.

Lemma indexOf_bound (c : ascii) (s : string) (k : nat) :
  indexOf c s = Some k → (k < String.length s)%nat.
Proof.
  revert k. induction s as [|d r IH]; intros k Hk; simpl in *; [done|].
  destruct (Ascii.eqb c d); [injection Hk as <-; lia|].
  destruct (indexOf c r) as [j|]; [|done]. injection Hk as <-.
  specialize (IH j eq_refl). lia.
Qed.

Lemma base32Char_index (c : ascii) :
  base32Char c →
  ∃ k, indexOf (upperChar c) alphabet = Some k ∧ (k < 32)%nat
       ∧ Ascii.eqb (upperChar c) "="%char = false.
Proof.
  intros [k Hk]. exists k. split; [done|]. split.
  - by apply indexOf_bound in Hk.
  - destruct (Ascii.eqb_spec (upperChar c) "="%char) as [E|]; [|done].
    rewrite E, indexOf_equals in Hk. discriminate.
Qed.

(** The decoding loop on Base32 characters followed by the end of the
    string or a pad character. [V] is the number read so far, which [value]
    holds modulo 2^32; the bytes written so far spell [V] without its last
    [bits] bits. *)
Lemma decodeLoop_valid (pre stop : string) :
  Forall base32Char (list_ascii_of_string pre) → endsDecoding stop →
  ∀ (bits value V : Z) (output : list Z) (index : nat),
    (0 ≤ bits < 8)%Z → (0 ≤ V)%Z → (value mod 2 ^ 32 = V mod 2 ^ 32)%Z →
    (Z.of_nat index + (bits + 5 * Z.of_nat (String.length pre)) / 8
     ≤ Z.of_nat (length output))%Z →
    bigEndian (take index output) = (V / 2 ^ bits)%Z →
    Forall isByte (take index output) →
    ∃ output',
      let index' :=
        Z.to_nat (Z.of_nat index + (bits + 5 * Z.of_nat (String.length pre)) / 8) in
      decodeLoop (pre +:+ stop) bits value output index = Some (output', index')
      ∧ length output' = length output
      ∧ bigEndian (take index' output')
        = (base32Number V pre / 2 ^ ((bits + 5 * Z.of_nat (String.length pre)) mod 8))%Z
      ∧ Forall isByte (take index' output').
Proof.
  intros Hpre Hstop. induction pre as [|c pre IH];
    intros bits value V output index Hb HV Hval Hroom Hbe Hby.
  - exists output. cbn [String.length base32Number].
    replace (bits + 5 * Z.of_nat 0)%Z with bits in * by lia.
    rewrite Z.div_small in * by lia. rewrite Z.mod_small by lia.
    replace (Z.to_nat (Z.of_nat index + 0)) with index by lia.
    split; [|done].
    change ("" +:+ stop) with stop.
    destruct Hstop as [->|[t ->]]; [done|]. cbn [decodeLoop].
    by change (Ascii.eqb (upperChar "="%char) "="%char) with true.
  - change (String c pre +:+ stop) with (String c (pre +:+ stop)).
    simpl in Hpre. apply Forall_cons in Hpre as [Hc Hpre].
    destruct (base32Char_index c Hc) as (k & Hk & Hk32 & Hne).
    cbn [decodeLoop base32Number String.length] in *. rewrite Hne, Hk. cbn [default].
    set (V' := (V * 32 + Z.of_nat k)%Z).
    set (value' := or32 (shl32 value 5) (Z.of_nat k)).
    assert (value' mod 2 ^ 32 = V' mod 2 ^ 32)%Z as Hval'.
    { subst value' V'. rewrite or32_shl32_mod by lia.
      change (2 ^ 32)%Z with 4294967296%Z in *.
      rewrite Z.add_mod by lia. rewrite (Z.mul_mod 32 value) by lia. rewrite Hval.
      rewrite <- Z.mul_mod, <- Z.add_mod by lia. f_equal. lia. }
    assert (0 ≤ V')%Z as HV' by (subst V'; lia).
    set (n := Z.of_nat (String.length pre)) in *.
    replace (Z.of_nat (S (String.length pre))) with (n + 1)%Z in * by lia.
    destruct (Z.leb_spec 8 (bits + 5)) as [Hge|Hlt].
    + assert (index < length output)%nat as Hidx.
      { assert (1 ≤ (bits + 5 * (n + 1)) / 8)%Z
          by (Z.to_euclidean_division_equations; lia). lia. }
      assert ((bits + 5 * (n + 1)) / 8 = 1 + (bits + 5 - 8 + 5 * n) / 8)%Z as Ediv
        by (Z.to_euclidean_division_equations; lia).
      assert ((bits + 5 * (n + 1)) mod 8 = (bits + 5 - 8 + 5 * n) mod 8)%Z as Emod
        by (Z.to_euclidean_division_equations; lia).
      set (byte := and32 (shru32 value' (bits + 5 - 8)) 255).
      assert (byte = V' / 2 ^ (bits + 5 - 8) mod 256)%Z as Hbyte.
      { subst byte. rewrite and32_shru32 by lia. rewrite Hval'.
        assert (bits = 3 ∨ bits = 4 ∨ bits = 5 ∨ bits = 6 ∨ bits = 7)%Z
          as [->|[->|[->|[->| ->]]]] by lia; simpl;
          Z.to_euclidean_division_equations; lia. }
      destruct (IH Hpre (bits + 5 - 8)%Z value' V' (<[index := byte]> output) (S index))
        as (output' & Hrun & Hlen & Hbe' & Hby'); try done; try lia.
      * rewrite length_insert. lia.
      * rewrite take_S_insert, bigEndian_snoc, Hbe, Hbyte by done. subst V'.
        assert (bits = 3 ∨ bits = 4 ∨ bits = 5 ∨ bits = 6 ∨ bits = 7)%Z
          as [->|[->|[->|[->| ->]]]] by lia; simpl;
          Z.to_euclidean_division_equations; lia.
      * rewrite take_S_insert by done. apply Forall_app. split; [done|].
        apply Forall_singleton. rewrite Hbyte. unfold isByte.
        apply Z.mod_pos_bound. lia.
      * exists output'. cbn zeta in *.
        replace (Z.to_nat (Z.of_nat index + (bits + 5 * (n + 1)) / 8))
          with (Z.to_nat (Z.of_nat (S index) + (bits + 5 - 8 + 5 * n) / 8)) by lia.
        rewrite Emod. rewrite length_insert in Hlen. done.
    + assert ((bits + 5 * (n + 1)) / 8 = (bits + 5 + 5 * n) / 8)%Z as Ediv
        by (f_equal; lia).
      assert ((bits + 5 * (n + 1)) mod 8 = (bits + 5 + 5 * n) mod 8)%Z as Emod
        by (f_equal; lia).
      destruct (IH Hpre (bits + 5)%Z value' V' output index)
        as (output' & Hrun & Hlen & Hbe' & Hby'); try done; try lia.
      * rewrite Hbe. subst V'.
        assert (bits = 0 ∨ bits = 1 ∨ bits = 2)%Z as [->|[->| ->]] by lia; simpl;
          Z.to_euclidean_division_equations; lia.
      * exists output'. cbn zeta in *. rewrite Ediv, Emod. done.
Qed.

End Base32Facts.

Section Base32More.
Import Utils TOTP Props Base32Spec Validation.

Lemma length_append (s t : string) :
  String.length (s +:+ t) = (String.length s + String.length t)%nat.
Proof. induction s as [|c s IH]; [done|]. simpl. by rewrite IH. Qed.

(** The decoding of a run of alphabet characters, as a number. *)
Lemma base32Decode_spells (pre stop : string) :
  Forall base32Char (list_ascii_of_string pre) → endsDecoding stop →
  ∃ key,
    base32Decode (pre +:+ stop) = Some key
    ∧ length key = (String.length pre * 5 / 8)%nat
    ∧ Forall isByte key
    ∧ bigEndian key
      = (base32Number 0 pre / 2 ^ ((5 * Z.of_nat (String.length pre)) mod 8))%Z.
Proof.
  intros Hpre Hstop. unfold base32Decode.
  set (n := Z.of_nat (String.length pre)).
  assert (Z.of_nat (String.length pre * 5 / 8) = (0 + 5 * n) / 8)%Z as Hn.
  { rewrite Nat2Z.inj_div, Nat2Z.inj_mul. f_equal. lia. }
  destruct (decodeLoop_valid pre stop Hpre Hstop 0 0 0
              (replicate (String.length (pre +:+ stop) * 5 / 8) 0%Z) 0)
    as (output' & Hrun & Hlen & Hbe & Hby); try done.
  - rewrite length_replicate, length_append. fold n.
    rewrite Nat2Z.inj_div, Nat2Z.inj_mul, Nat2Z.inj_add. fold n.
    Z.to_euclidean_division_equations. lia.
  - cbn zeta in *. fold n in Hrun, Hbe, Hby. rewrite Hrun.
    replace (Z.to_nat (Z.of_nat 0 + (0 + 5 * n) / 8))
      with (String.length pre * 5 / 8)%nat in * by lia.
    eexists. split; [done|]. split; [|split; [done|]].
    + rewrite length_take, Hlen, length_replicate, length_append.
      assert (String.length pre * 5 / 8 ≤ (String.length pre + String.length stop) * 5 / 8)%nat
        by (apply Nat.Div0.div_le_mono; lia). lia.
    + rewrite Hbe. by rewrite Z.add_0_l.
Qed.

(** X8. Base32 decoding is right, and the 32-bit accumulator does not
    spoil it: a run of n alphabet characters (either case), ended by the end
    of the string or by a pad character and anything after it, decodes to
    floor(5n/8) bytes, and these bytes spell, most significant first, the
    number spelled by the characters without its last 5n mod 8 bits. *)
Theorem base32Decode_number (pre stop : string) :
  Forall base32Char (list_ascii_of_string pre) → endsDecoding stop →
  ∃ key,
    base32Decode (pre +:+ stop) = Some key
    ∧ length key = (String.length pre * 5 / 8)%nat
    ∧ Forall isByte key
    ∧ bigEndian key
      = (base32Number 0 pre / 2 ^ ((5 * Z.of_nat (String.length pre)) mod 8))%Z.
Proof. exact (base32Decode_spells pre stop). Qed.

Lemma base32Decode_number_witness :
  ∃ key,
    base32Decode (Samples.secretY +:+ "") = Some key
    ∧ length key = (String.length Samples.secretY * 5 / 8)%nat
    ∧ Forall isByte key
    ∧ bigEndian key
      = (base32Number 0 Samples.secretY
         / 2 ^ ((5 * Z.of_nat (String.length Samples.secretY)) mod 8))%Z.
Proof.
  apply (base32Decode_number Samples.secretY "").
  - repeat constructor; unfold base32Char; vm_compute; eauto.
  - by left.
Defined.

Lemma upper_lower (c : ascii) : upperChar (lowerChar c) = upperChar c.
Proof. by destruct c as [[] [] [] [] [] [] [] []]. Qed.

Lemma length_mapChars f (s : string) : String.length (mapChars f s) = String.length s.
Proof. induction s; simpl; congruence. Qed.

Lemma decodeLoop_mapChars f (s : string) :
  (∀ c, upperChar (f c) = upperChar c) →
  ∀ bits value output index,
    decodeLoop (mapChars f s) bits value output index
    = decodeLoop s bits value output index.
Proof.
  intros Hf. induction s as [|c s IH]; intros bits value output index; [done|].
  cbn [mapChars decodeLoop]. rewrite Hf.
  destruct (Ascii.eqb (upperChar c) "="%char); [done|].
  destruct (indexOf (upperChar c) alphabet); [|done]. case_match; apply IH.
Qed.


End Base32More.

Section SecretFacts.
Import Utils TOTP Props Base32Spec Validation.

Lemma append_empty (s : string) : s +:+ "" = s.
Proof.
  induction s as [|c s IH]; [done|].
  change (String c s +:+ "") with (String c (s +:+ "")). by rewrite IH.
Qed.

Lemma alnum_not_pad (c : ascii) : isAlnum c = true → upperChar c ≠ "="%char.
Proof. destruct c as [[] [] [] [] [] [] [] []]; by vm_compute. Qed.

(** In a string of letters and digits, the Base32 characters stop at a
    character that makes the decoder throw, or never. *)
Lemma first_invalid (s : string) :
  forallb isAlnum (list_ascii_of_string s) = true →
  Forall base32Char (list_ascii_of_string s)
  ∨ ∃ pre ch rest,
      s = pre +:+ String ch rest
      ∧ Forall base32Char (list_ascii_of_string pre)
      ∧ ¬ base32Char ch ∧ upperChar ch ≠ "="%char.
Proof.
  induction s as [|c s IH]; intros Hal; [by left|].
  simpl in Hal. apply andb_true_iff in Hal as [Hc Hs].
  destruct (decide (base32Char c)) as [Hb|Hb].
  - destruct (IH Hs) as [Hall|(pre & ch & rest & -> & Hpre & Hch & Hne)].
    + left. simpl. by constructor.
    + right. exists (String c pre), ch, rest. split; [done|].
      split; [simpl; by constructor|done].
  - right. exists "", c, s. split; [done|]. split; [constructor|].
    split; [done|by apply alnum_not_pad].
Qed.

(** X10. What the format check of secrets guarantees: a secret that
    [validateTOTP] accepts (32 letters and digits) decodes to a key of
    exactly 20 bytes when all its characters are in the Base32 alphabet, and
    does not decode at all otherwise (the digits 0, 1, 8 and 9 pass the
    check but are not Base32). *)
Theorem validated_secret_decodes (secret : string) :
  validateTOTP secret = true →
  (Forall base32Char (list_ascii_of_string secret) →
     ∃ key, base32Decode secret = Some key ∧ length key = 20%nat
            ∧ Forall isByte key)
  ∧ (¬ Forall base32Char (list_ascii_of_string secret) →
     base32Decode secret = None).
Proof.
  unfold validateTOTP, allAlnum. intros Hv.
  apply andb_true_iff in Hv as [Hlen Hal]. apply andb_true_iff in Hal as [_ Hal].
  apply Nat.eqb_eq in Hlen. split.
  - intros Hall.
    destruct (base32Decode_spells secret "" Hall (or_introl eq_refl))
      as (key & Hk & Hl & Hb & _).
    rewrite append_empty in Hk. rewrite Hlen in Hl. by exists key.
  - intros Hnot. destruct (first_invalid secret Hal)
      as [Hall|(pre & ch & rest & -> & Hpre & Hch & Hne)]; [done|].
    unfold base32Decode. by rewrite decodeLoop_invalid.
Qed.

Lemma validated_secret_decodes_witness :
  (Forall base32Char (list_ascii_of_string Samples.secretX) →
     ∃ key, base32Decode Samples.secretX = Some key ∧ length key = 20%nat
            ∧ Forall isByte key)
  ∧ (¬ Forall base32Char (list_ascii_of_string Samples.secretX) →
     base32Decode Samples.secretX = None).
Proof. apply (validated_secret_decodes Samples.secretX). by vm_compute. Defined.

(** X11. A cache hit does not use HMAC. After a call of [generate] that
    computed or found the code of a secret, on a sound cache with room for
    one more entry, a further call for that secret in the same window
    returns the same code and the same cache whatever the primitive would
    answer, even a primitive that rejects everything. *)
Theorem cache_hit_skips_hmac (hmac1 hmac2 : list Z → list Z → option (list Z))
    (w w1 w2 : Z) (secret totpCode : string) (cache : gmap string CacheEntry) :
  cacheSound hmac1 cache → size cache < MAX_CACHE_SIZE →
  computeCode hmac1 secret w = Some totpCode →
  let r := generate hmac1 w w1 secret cache in
  r.1 = totpCode ∧ generate hmac2 w w2 secret r.2 = (totpCode, r.2).
Proof.
  intros Hs Hsize Hc r.
  assert (r.1 = totpCode
          ∧ ∃ e, r.2 !! secret = Some e ∧ timeWindow e = w ∧ code e = totpCode)
    as (Hr & e & He & Hw & Hcode).
  { subst r. unfold generate. rewrite Hc.
    destruct (cache !! secret) as [cached|] eqn:E.
    - destruct (decide (timeWindow cached = w)) as [Hw|Hw]; cbn [fst snd].
      + pose proof (Hs _ _ E) as Hcode. rewrite Hw, Hc in Hcode.
        injection Hcode as Hcode. split; [done|]. exists cached. by repeat split.
      + split; [done|]. rewrite map_size_insert_Some by eauto.
        destruct (Nat.ltb_spec MAX_CACHE_SIZE (size cache)); [lia|].
        eexists. rewrite lookup_insert_eq. by repeat split.
    - cbn [fst snd]. split; [done|]. rewrite map_size_insert_None by done.
      destruct (Nat.ltb_spec MAX_CACHE_SIZE (S (size cache))); [lia|].
      eexists. rewrite lookup_insert_eq. by repeat split. }
  split; [done|]. unfold generate. rewrite He. rewrite decide_True by done.
  by rewrite Hcode.
Qed.

Lemma cache_hit_skips_hmac_witness :
  let r := generate WebCrypto.hmacSha1 1 1 Samples.secretY ∅ in
  r.1 = "287082" ∧ generate (λ _ _, None) 1 2 Samples.secretY r.2 = ("287082", r.2).
Proof.
  apply (cache_hit_skips_hmac WebCrypto.hmacSha1 (λ _ _, None) 1 1 2
           Samples.secretY "287082" ∅).
  - apply cacheSound_empty.
  - rewrite map_size_empty. unfold MAX_CACHE_SIZE. lia.
  - by vm_compute.
Defined.

(** X12. The update timer is set to the window change: the delay computed
    from a clock reading is between 1 and 30000 ms, the window index after
    the delay is the next one, and at every earlier instant it is still the
    current one. *)
Theorem timer_hits_window_change (now : Z) :
  let ms := Scheduler.msUntilNextWindow now in
  (0 < ms ≤ 30000)%Z
  ∧ getCurrentTimeWindow (now + ms) = (getCurrentTimeWindow now + 1)%Z
  ∧ ∀ d, (0 ≤ d < ms)%Z → getCurrentTimeWindow (now + d) = getCurrentTimeWindow now.
Proof.
  unfold Scheduler.msUntilNextWindow, getCurrentTimeWindow. cbn zeta.
  split; [Z.to_euclidean_division_equations; lia|]. split.
  - Z.to_euclidean_division_equations. lia.
  - intros d Hd. Z.to_euclidean_division_equations. lia.
Qed.

End SecretFacts.

(* ====================================================================== *)
(** ** Further properties of the file parser and the text export          *)
(* ====================================================================== *)

Section SplitFacts.
Import Utils FileParser TextFormat.

Lemma append_cons (c : ascii) (s t : string) : String c s +:+ t = String c (s +:+ t).
Proof. done. Qed.

Lemma splitFrom_nonempty (sep : string) (k : nat) (s : string) :
  splitFrom sep k s ≠ [].
Proof.
  revert k. induction s as [|c r IH]; intros k; [done|]. cbn [splitFrom].
  destruct k; [|apply IH]. destruct (startsWith sep (String c r)); [done|].
  by destruct (splitFrom sep 0 r).
Qed.

Lemma splitFrom_skip (sep x s : string) :
  splitFrom sep (String.length x) (x +:+ s) = splitFrom sep 0 s.
Proof. induction x as [|c x IH]; [done|]. rewrite append_cons. by cbn [splitFrom String.length]. Qed.

Lemma startsWith_append (p s : string) :
  startsWith p s = true → ∃ rest, s = p +:+ rest.
Proof.
  revert s. induction p as [|a p IH]; intros s H; [by exists s|].
  destruct s as [|b s]; [done|]. simpl in H. apply andb_true_iff in H as [Hab Hp].
  apply Ascii.eqb_eq in Hab as ->. destruct (IH s Hp) as [rest ->]. by exists rest.
Qed.

Lemma join_cons_char (sep : string) (c : ascii) (p : string) (ps : list string) :
  join sep (String c p :: ps) = String c (join sep (p :: ps)).
Proof. by destruct ps. Qed.

Lemma join_cons2 (sep x p : string) (ps : list string) :
  join sep (x :: p :: ps) = x +:+ (sep +:+ join sep (p :: ps)).
Proof. done. Qed.

(** The unfolding of [split] at a separator. *)
Lemma split_at_separator (sep rest : string) :
  sep ≠ "" → splitFrom sep 0 (sep +:+ rest) = "" :: splitFrom sep 0 rest.
Proof.
  intros Hsep. destruct sep as [|a sep]; [done|]. rewrite append_cons.
  cbn [splitFrom].
  assert (startsWith (String a sep) (String a (sep +:+ rest)) = true) as ->.
  { clear. simpl. rewrite Ascii.eqb_refl. simpl.
    induction sep as [|b sep IH]; [by destruct rest|].
    rewrite append_cons. simpl. by rewrite Ascii.eqb_refl. }
  change (String.length (String a sep) - 1)%nat with (String.length sep - 0)%nat.
  rewrite Nat.sub_0_r. by rewrite splitFrom_skip.
Qed.

(** X13. Splitting and joining again gives the text back: for a non-empty
    separator, [s.split(sep).join(sep)] is [s], and [split] always returns
    at least one part. *)
Theorem join_split (sep s : string) :
  sep ≠ "" → split sep s ≠ [] ∧ join sep (split sep s) = s.
Proof.
  intros Hsep. split; [apply splitFrom_nonempty|]. unfold split.
  remember (String.length s) as n eqn:Hn. revert s Hn.
  induction n as [n IH] using lt_wf_ind. intros s Hn.
  destruct s as [|c r]; [done|].
  destruct (startsWith sep (String c r)) eqn:E.
  - destruct (startsWith_append _ _ E) as [rest Hrest]. rewrite Hrest.
    rewrite split_at_separator by done.
    pose proof (splitFrom_nonempty sep 0 rest) as Hne.
    assert (String.length rest < n)%nat as Hlt.
    { rewrite Hn, Hrest, length_append. destruct sep; [done|]. simpl. lia. }
    specialize (IH _ Hlt rest eq_refl).
    destruct (splitFrom sep 0 rest) as [|p ps]; [done|].
    by rewrite join_cons2, IH.
  - cbn [splitFrom]. rewrite E.
    assert (String.length r < n)%nat as Hlt by (rewrite Hn; simpl; lia).
    specialize (IH _ Hlt r eq_refl).
    pose proof (splitFrom_nonempty sep 0 r) as Hne.
    destruct (splitFrom sep 0 r) as [|p ps]; [done|].
    by rewrite join_cons_char, IH.
Qed.

Lemma join_split_witness :
  split ";;" "a;;;b;;c;" ≠ [] ∧ join ";;" (split ";;" "a;;;b;;c;") = "a;;;b;;c;".
Proof. apply (join_split ";;" "a;;;b;;c;"). done. Defined.

End SplitFacts.

Section ParseFacts.
Import Utils DataStore FileParser Validation TextFormat.

Lemma nth_trimmed (parts : list string) (k : nat) :
  Forall (λ p, trim p = p) parts → trim (nth k parts "") = nth k parts "".
Proof.
  intros H. rewrite nth_lookup. destruct (parts !! k) as [p|] eqn:E; simpl; [|done].
  eapply Forall_forall in H; [exact H|]. apply list_elem_of_lookup. eauto.
Qed.

Lemma trimmed_parts (delimiter line : string) :
  Forall (λ p, trim p = p) (trim <$> splitAny delimiter line).
Proof. apply Forall_fmap, Forall_forall. intros p _. apply trim_idem. Qed.

Lemma extras_ok (parts : list string) (k : nat) :
  Forall (λ p, trim p = p) parts →
  Forall (λ e, e ≠ "" ∧ trim e = e) (List.filter truthy (drop k parts)).
Proof.
  intros H. apply (Forall_drop _ k) in H.
  induction (drop k parts) as [|e l IH]; [constructor|].
  apply Forall_cons in H as [He Hl]. simpl.
  destruct e as [|c e]; [by apply IH|]. constructor; [done|by apply IH].
Qed.

Lemma parseLine_parsed delimiter hasTOTP i raw (c : Candidate) :
  parseLine delimiter hasTOTP i raw = Parsed c → wellFormed hasTOTP c.
Proof.
  unfold parseLine.
  pose proof (trimmed_parts delimiter (trim raw)) as Htr.
  set (parts := trim <$> splitAny delimiter (trim raw)) in *.
  destruct (negb (truthy (trim raw)) || startsWith "#" (trim raw)); [done|].
  destruct (length parts <? 2)%nat; [done|].
  destruct hasTOTP; cbn [andb].
  - destruct (truthy (nth 2 parts "")) eqn:Et; cbn [andb].
    + destruct (validateTOTP (nth 2 parts "")) eqn:Ev; cbn [negb]; [|done].
      destruct (validateEmail (nth 0 parts "")) eqn:Ee; cbn [negb]; [|done].
      intros [= <-]. unfold wellFormed. cbn.
      split; [done|]. split; [by apply nth_trimmed|]. split; [by apply nth_trimmed|].
      split; [by right|]. split; [|done].
      by apply extras_ok.
    + destruct (validateEmail (nth 0 parts "")) eqn:Ee; cbn [negb]; [|done].
      intros [= <-]. unfold wellFormed. cbn.
      split; [done|]. split; [by apply nth_trimmed|]. split; [by apply nth_trimmed|].
      split; [left; by destruct (nth 2 parts "")|]. split; [|done].
      by apply extras_ok.
  - destruct (validateEmail (nth 0 parts "")) eqn:Ee; cbn [negb]; [|done].
    intros [= <-]. unfold wellFormed. cbn.
    split; [done|]. split; [by apply nth_trimmed|]. split; [by apply nth_trimmed|].
    split; [done|]. split; [|done].
    by apply extras_ok.
Qed.

Lemma parseLine_cases delimiter hasTOTP i raw :
  match parseLine delimiter hasTOTP i raw with
  | Skipped => significant raw = false
  | Parsed c => significant raw = true ∧ wellFormed hasTOTP c
  | Failed e => significant raw = true ∧ err_line e = (i + 1)%nat
                ∧ err_content e = trim raw
  end.
Proof.
  destruct (parseLine delimiter hasTOTP i raw) as [|c|e] eqn:E.
  - unfold parseLine, significant in *.
    destruct (truthy (trim raw)); [|done].
    destruct (startsWith "#" (trim raw)); [done|]. cbn [negb orb] in E.
    by repeat case_match.
  - split; [|by eapply parseLine_parsed].
    unfold parseLine, significant in *.
    destruct (truthy (trim raw)); [|done]. by destruct (startsWith "#" (trim raw)).
  - unfold parseLine, significant in *.
    destruct (truthy (trim raw)); [|done].
    destruct (startsWith "#" (trim raw)); [done|]. cbn [negb orb] in E.
    repeat case_match; try done; by injection E as <-.
Qed.

Lemma parseFrom_inv delimiter hasTOTP (lines : list string) :
  ∀ (i : nat) (prefix : list string) accounts errors,
    length prefix = i →
    let r := parseFrom delimiter hasTOTP i lines accounts errors in
    (Forall (wellFormed hasTOTP) accounts → Forall (wellFormed hasTOTP) r.1)
    ∧ (length r.1 + length r.2
       = length accounts + length errors + length (List.filter significant lines))%nat
    ∧ (Forall (errorAt (prefix ++ lines)) errors → Forall (errorAt (prefix ++ lines)) r.2).
Proof.
  induction lines as [|raw rest IH]; intros i prefix accounts errors Hi r; subst r.
  - simpl. repeat split; try done; lia.
  - cbn [parseFrom List.filter].
    pose proof (parseLine_cases delimiter hasTOTP i raw) as Hc.
    assert (prefix ++ raw :: rest = (prefix ++ [raw]) ++ rest) as Happ
      by (by rewrite <- app_assoc).
    assert (length (prefix ++ [raw]) = S i) as Hi'
      by (rewrite length_app; simpl; lia).
    destruct (parseLine delimiter hasTOTP i raw) as [|c|e].
    + rewrite Hc. rewrite Happ.
      destruct (IH (S i) (prefix ++ [raw]) accounts errors Hi') as (H1 & H2 & H3).
      done.
    + destruct Hc as [Hs Hw]. rewrite Hs, Happ.
      destruct (IH (S i) (prefix ++ [raw]) (accounts ++ [c]) errors Hi') as (H1 & H2 & H3).
      split; [|split; [|done]].
      * intros Ha. apply H1, Forall_app. split; [done|]. by apply Forall_singleton.
      * rewrite H2, length_app. simpl. lia.
    + destruct Hc as (Hs & Hl & Hcont). rewrite Hs, Happ.
      destruct (IH (S i) (prefix ++ [raw]) accounts (errors ++ [e]) Hi') as (H1 & H2 & H3).
      split; [done|]. split.
      * rewrite H2, length_app. simpl. lia.
      * intros He. apply H3, Forall_app. split; [done|]. apply Forall_singleton.
        unfold errorAt. rewrite Hl, Hcont.
        replace (i + 1 - 1)%nat with (length prefix) by lia.
        rewrite <- Happ, nth_middle. split; [|done].
        rewrite length_app. simpl. lia.
Qed.

(** X14. [parse] lets through only records that pass its checks: every
    returned candidate has an email that [validateEmail] accepts, trimmed
    email and password, non-empty trimmed extras, no tags, and a secret that
    is empty or accepted by [validateTOTP] (always empty when the file has
    no TOTP column). *)
Theorem parse_returns_valid (content delimiter : string) (hasTOTP : bool) :
  Forall (wellFormed hasTOTP) (parse content delimiter hasTOTP).1.
Proof.
  unfold parse.
  destruct (parseFrom_inv delimiter hasTOTP (split newline content) 0 [] [] [] eq_refl)
    as (H1 & _). by apply H1.
Qed.

(** X15. A bad line never aborts a batch and no line is lost: the accounts
    and the errors together are as many as the lines that are neither blank
    nor comments, and every error entry carries the number (from 1) and the
    trimmed text of the line it is about. *)
Theorem parse_accounts_for_every_line (content delimiter : string) (hasTOTP : bool) :
  let lines := split newline content in
  let r := parse content delimiter hasTOTP in
  (length r.1 + length r.2 = length (List.filter significant lines))%nat
  ∧ Forall (errorAt lines) r.2.
Proof.
  intros lines r. subst r. unfold parse. fold lines.
  destruct (parseFrom_inv delimiter hasTOTP lines 0 [] [] [] eq_refl)
    as (_ & H2 & H3). split; [by rewrite H2|]. by apply H3.
Qed.

Example parse_sample :
  parse "# list
a@x.com|pw|JBSWY3DPEHPK3PXPJBSWY3DPEHPK3PXP| note |
bad line
 b@x.com | pw2
c@x.com|pw|short" "|" true
  = ([mkCandidate "a@x.com" "pw" "JBSWY3DPEHPK3PXPJBSWY3DPEHPK3PXP" ["note"] [];
      mkCandidate "b@x.com" "pw2" "" [] []],
     [mkError 3 "Not enough fields (need at least email and password)" "bad line";
      mkError 5 "Invalid TOTP (must be 32 alphanumeric chars or empty)" "c@x.com|pw|short"]).
Proof. by vm_compute. Qed.

End ParseFacts.

Section SecretFormat.
Import Utils DataStore FileParser Validation TextFormat Props.

Lemma alnum_not_ws (c : ascii) : isAlnum c = true → isWhiteSpace c = false.
Proof. destruct c as [[] [] [] [] [] [] [] []]; by vm_compute. Qed.

Lemma alnum_upper (c : ascii) : isAlnum (upperChar c) = isAlnum c.
Proof. by destruct c as [[] [] [] [] [] [] [] []]. Qed.

Lemma trimEnd_no_ws (s : string) :
  forallb (λ c, negb (isWhiteSpace c)) (list_ascii_of_string s) = true → trimEnd s = s.
Proof.
  induction s as [|c r IH]; [done|]. simpl. intros H.
  apply andb_true_iff in H as [Hc Hr]. rewrite (IH Hr).
  destruct r; [|done]. by destruct (isWhiteSpace c).
Qed.

Lemma trim_no_ws (s : string) :
  forallb (λ c, negb (isWhiteSpace c)) (list_ascii_of_string s) = true → trim s = s.
Proof.
  intros H. unfold trim.
  assert (trimStart s = s) as ->.
  { destruct s as [|c r]; [done|]. simpl in *.
    apply andb_true_iff in H as [Hc _]. by destruct (isWhiteSpace c). }
  by apply trimEnd_no_ws.
Qed.

Lemma chars_mapChars f (s : string) :
  list_ascii_of_string (mapChars f s) = f <$> list_ascii_of_string s.
Proof. induction s as [|c s IH]; [done|]. simpl. by rewrite IH. Qed.

(** Normalising a well-formed secret gives a well-formed secret. *)
Lemma validateTOTP_normalize (t : string) :
  validateTOTP t = true → validateTOTP (normalizeTOTP t) = true.
Proof.
  unfold validateTOTP, allAlnum, normalizeTOTP, toUpperCase. intros H.
  apply andb_true_iff in H as [Hlen H]. apply andb_true_iff in H as [Hne Hal].
  assert (forallb isAlnum (list_ascii_of_string (mapChars upperChar t)) = true) as Hup.
  { rewrite chars_mapChars. clear -Hal.
    induction (list_ascii_of_string t) as [|c l IH]; [done|]. simpl in *.
    apply andb_true_iff in Hal as [Hc Hl]. apply andb_true_iff.
    split; [by rewrite alnum_upper|by apply IH]. }
  rewrite trim_no_ws.
  - rewrite length_mapChars, Hlen, Hup. by destruct t.
  - clear -Hup. induction (list_ascii_of_string (mapChars upperChar t)) as [|c l IH];
      [done|]. simpl in *. apply andb_true_iff in Hup as [Hc Hl].
    apply andb_true_iff. split; [by rewrite (alnum_not_ws c Hc)|by apply IH].
Qed.

Lemma secretOk_added (t : string) :
  secretOk t → secretOk (if truthy t then normalizeTOTP t else "").
Proof.
  intros [->|Hv]; [by left|]. destruct t; [by left|]. right.
  by apply validateTOTP_normalize.
Qed.

Lemma importOne_secretOk (fresh : nat → string * Z) (ds : DataStore) (st : Stats)
    (c : Candidate) :
  Forall (λ a, secretOk (acc_totp a)) (accounts ds) → secretOk (c_totp c) →
  Forall (λ a, secretOk (acc_totp a)) (accounts (importOne fresh (ds, st) c).1).
Proof.
  intros Hds Hc. unfold importOne, mergeAndCount.
  assert (∀ uuid now, Forall (λ a, secretOk (acc_totp a))
                        (accounts (addAccount uuid now c ds).2)) as Hadd.
  { intros uuid now. rewrite addAccount_accounts. apply Forall_app. split; [done|].
    apply Forall_singleton. simpl. by apply secretOk_added. }
  destruct (list_find (sameLogin c) (accounts ds)) as [[index existing]|] eqn:Hf;
    [|apply Hadd].
  apply list_find_Some in Hf as (Hi & _ & _).
  assert (secretOk (acc_totp existing)) as He.
  { eapply Forall_forall in Hds; [exact Hds|]. apply list_elem_of_lookup. eauto. }
  repeat case_match; simpl; try done; try apply Hadd; by apply Forall_insert.
Qed.

(** The fold of the import keeps the format of secrets. *)
Lemma importAccounts_secretOk (fresh : nat → string * Z)
    (batch : list Candidate) (ds : DataStore) :
  Forall (λ a, secretOk (acc_totp a)) (accounts ds) →
  Forall (λ c, secretOk (c_totp c)) batch →
  Forall (λ a, secretOk (acc_totp a)) (accounts (importAccounts fresh batch ds).2).
Proof.
  intros Hds Hb. unfold importAccounts.
  assert (∀ st, Forall (λ a, secretOk (acc_totp a))
                  (accounts (fold_left (importOne fresh) batch (ds, st)).1)) as H.
  { revert ds Hds. induction batch as [|c batch IH]; intros ds Hds st; [done|].
    cbn [fold_left]. apply Forall_cons in Hb as [Hc Hb].
    pose proof (importOne_secretOk fresh ds st c Hds Hc) as H1.
    destruct (importOne fresh (ds, st) c) as [ds1 st1]. by apply IH. }
  specialize (H (mkStats 0 0 0)). by destruct (fold_left _ _ _).
Qed.

(** X16. The import keeps the format of secrets: when every stored secret
    and every candidate secret is empty or accepted by [validateTOTP] (as
    the candidates that [parse] returns are), so is every secret stored
    after the import. *)
Theorem import_keeps_secret_format (fresh : nat → string * Z)
    (batch : list Candidate) (ds : DataStore) :
  Forall (λ a, secretOk (acc_totp a)) (accounts ds) →
  Forall (λ c, secretOk (c_totp c)) batch →
  Forall (λ a, secretOk (acc_totp a)) (accounts (importAccounts fresh batch ds).2).
Proof. exact (importAccounts_secretOk fresh batch ds). Qed.

Lemma import_keeps_secret_format_witness :
  Forall (λ a, secretOk (acc_totp a))
    (accounts (importAccounts Samples.fresh Samples.plainBatch Samples.withSecret).2).
Proof.
  apply (import_keeps_secret_format Samples.fresh Samples.plainBatch Samples.withSecret).
  - constructor; [right; by vm_compute|constructor].
  - constructor; [right; by vm_compute|].
    constructor; [by left|]. constructor; [right; by vm_compute|constructor].
Defined.

End SecretFormat.

Section RoundTrip.
Import Utils DataStore FileParser Validation TextFormat Props.

Lemma chars_append (a b : string) : chars (a +:+ b) = chars a ++ chars b.
Proof. induction a as [|c a IH]; [done|]. rewrite append_cons. simpl. by rewrite IH. Qed.

Lemma append_assoc (a b c : string) : (a +:+ b) +:+ c = a +:+ (b +:+ c).
Proof. induction a as [|x a IH]; [done|]. rewrite !append_cons. by rewrite IH. Qed.

Lemma split_char_free (d : ascii) (s : string) :
  d ∉ chars s → splitFrom (String d "") 0 s = [s].
Proof.
  induction s as [|c r IH]; intros Hd; [done|]. cbn [splitFrom startsWith].
  assert (d ≠ c) as Hne by (intros ->; apply Hd; simpl; apply list_elem_of_here).
  destruct (Ascii.eqb_spec d c); [done|]. cbn [andb].
  rewrite IH; [done|]. intros Hin. apply Hd. simpl. by apply list_elem_of_further.
Qed.

Lemma split_prefix (d : ascii) (p t : string) :
  d ∉ chars p →
  splitFrom (String d "") 0 (p +:+ String d t) = p :: splitFrom (String d "") 0 t.
Proof.
  induction p as [|c p IH]; intros Hd.
  - change ("" +:+ String d t) with (String d t). cbn [splitFrom startsWith].
    rewrite Ascii.eqb_refl. by destruct t.
  - rewrite append_cons. cbn [splitFrom startsWith].
    assert (d ≠ c) as Hne by (intros ->; apply Hd; simpl; apply list_elem_of_here).
    destruct (Ascii.eqb_spec d c); [done|]. cbn [andb].
    rewrite IH; [done|]. intros Hin. apply Hd. simpl. by apply list_elem_of_further.
Qed.

(** Joining parts that do not hold the separator character and splitting
    again gives the parts back. *)
Lemma split_join_char (d : ascii) (parts : list string) :
  parts ≠ [] → Forall (λ p, d ∉ chars p) parts →
  split (String d "") (join (String d "") parts) = parts.
Proof.
  unfold split. induction parts as [|p rest IH]; intros Hne Hall; [done|].
  apply Forall_cons in Hall as [Hp Hrest].
  destruct rest as [|q rest]; [by apply split_char_free|].
  rewrite join_cons2. change (String d "" +:+ ?x) with (String d x).
  rewrite split_prefix by done. by rewrite IH.
Qed.

Lemma length_trimStart (s : string) : (String.length (trimStart s) ≤ String.length s)%nat.
Proof. induction s as [|c r IH]; simpl; [lia|]. destruct (isWhiteSpace c); simpl; lia. Qed.

Lemma length_trimEnd (s : string) : (String.length (trimEnd s) ≤ String.length s)%nat.
Proof.
  induction s as [|c r IH]; simpl; [lia|].
  destruct (trimEnd r); [destruct (isWhiteSpace c)|]; simpl in *; lia.
Qed.

Lemma trim_fixed (s : string) : trim s = s → trimStart s = s ∧ trimEnd s = s.
Proof.
  intros H. unfold trim in H.
  assert (trimStart s = s) as Hs.
  { destruct s as [|c r]; [done|]. simpl in *.
    destruct (isWhiteSpace c); [|done]. exfalso.
    pose proof (length_trimEnd (trimStart r)). pose proof (length_trimStart r).
    rewrite H in *. simpl in *. lia. }
  split; [done|]. by rewrite Hs in H.
Qed.

Lemma trimStart_append (a b : string) :
  a ≠ "" → trimStart a = a → trimStart (a +:+ b) = a +:+ b.
Proof.
  destruct a as [|c a]; [done|]. intros _ H. rewrite append_cons. simpl in *.
  destruct (isWhiteSpace c); [|done]. exfalso.
  pose proof (length_trimStart a). rewrite H in *. simpl in *. lia.
Qed.

Lemma trimEnd_append (a b : string) :
  b ≠ "" → trimEnd b = b → trimEnd (a +:+ b) = a +:+ b.
Proof.
  intros Hb H. induction a as [|c a IH]; [done|]. rewrite append_cons.
  cbn [trimEnd]. rewrite IH. destruct (a +:+ b) eqn:E; [|done].
  destruct a; [|done]. by destruct b.
Qed.

Lemma trim_between (a b : string) :
  a ≠ "" → trim a = a → b ≠ "" → trimEnd b = b → trim (a +:+ b) = a +:+ b.
Proof.
  intros Ha Hta Hb Htb. unfold trim. apply trim_fixed in Hta as [Hs _].
  rewrite trimStart_append by done. by apply trimEnd_append.
Qed.

Lemma includes_nonempty (n s : string) : n ≠ "" → includes n s = true → s ≠ "".
Proof. intros Hn H ->. destruct n; [done|]. by simpl in H. Qed.


Lemma trimEnd_cons (c : ascii) (s : string) :
  isWhiteSpace c = false → trimEnd s = s → trimEnd (String c s) = String c s.
Proof. intros Hc H. cbn [trimEnd]. rewrite H, Hc. by destruct s. Qed.

Lemma trimEnd_join (d : ascii) (parts : list string) :
  isWhiteSpace d = false → Forall (λ p, trimEnd p = p) parts →
  trimEnd (join (String d "") parts) = join (String d "") parts.
Proof.
  intros Hd. induction parts as [|p rest IH]; intros Hall; [done|].
  apply Forall_cons in Hall as [Hp Hrest].
  destruct rest as [|q rest]; [done|].
  rewrite join_cons2. change (String d "" +:+ ?x) with (String d x).
  apply trimEnd_append; [done|]. apply trimEnd_cons; [done|]. by apply IH.
Qed.

Lemma trim_join (d : ascii) (e : string) (rest : list string) :
  isWhiteSpace d = false → e ≠ "" → Forall (λ p, trim p = p) (e :: rest) →
  trim (join (String d "") (e :: rest)) = join (String d "") (e :: rest).
Proof.
  intros Hd He Hall. unfold trim.
  assert (trimStart (join (String d "") (e :: rest)) = join (String d "") (e :: rest)) as ->.
  { apply Forall_cons in Hall as [[Hs _]%trim_fixed _].
    destruct rest as [|q rest]; [done|]. rewrite join_cons2.
    by apply trimStart_append. }
  apply trimEnd_join; [done|].
  eapply Forall_impl; [exact Hall|]. by intros p [_ ?]%trim_fixed.
Qed.

Lemma chars_join (d x : ascii) (parts : list string) :
  x ≠ d → Forall (λ p, x ∉ chars p) parts → x ∉ chars (join (String d "") parts).
Proof.
  intros Hx. induction parts as [|p rest IH]; intros Hall.
  - simpl. apply not_elem_of_nil.
  - apply Forall_cons in Hall as [Hp Hrest].
    destruct rest as [|q rest]; [done|]. rewrite join_cons2.
    rewrite chars_append. change (String d "" +:+ ?y) with (String d y).
    intros [?|Hin]%elem_of_app; [done|]. simpl in Hin.
    apply elem_of_cons in Hin as [?|Hin]; [done|]. by apply IH.
Qed.

Lemma startsWith_hash (e r : string) :
  e ≠ "" → startsWith "#" (e +:+ r) = startsWith "#" e.
Proof. destruct e as [|c e]; [done|]. intros _. by rewrite append_cons. Qed.

Lemma join_nonempty (d : string) (e : string) (rest : list string) :
  e ≠ "" → join d (e :: rest) ≠ "".
Proof.
  intros He. destruct rest as [|q rest]; [done|]. rewrite join_cons2.
  destruct e; [done|]. by rewrite append_cons.
Qed.

Lemma startsWith_hash_join (d : string) (e : string) (rest : list string) :
  e ≠ "" → startsWith "#" (join d (e :: rest)) = startsWith "#" e.
Proof.
  intros He. destruct rest as [|q rest]; [done|]. rewrite join_cons2.
  by apply startsWith_hash.
Qed.

Lemma filter_truthy (l : list string) :
  Forall (λ x, x ≠ "") l → List.filter truthy l = l.
Proof.
  induction 1 as [|x l Hx _ IH]; [done|]. simpl. rewrite IH. by destruct x.
Qed.

(** A line joined from clean fields is read back field by field. *)
Lemma parseLine_join (d : ascii) (i : nat) (e p t : string) (ext : list string) :
  isWhiteSpace d = false →
  Forall (cleanField d) (e :: p :: t :: ext) →
  validateEmail e = true → startsWith "#" e = false → secretOk t →
  Forall (λ x, x ≠ "") ext →
  parseLine (String d "") true i (join (String d "") (e :: p :: t :: ext))
  = Parsed (mkCandidate e p t ext []).
Proof.
  intros Hd Hclean Hemail Hhash Ht Hext.
  assert (e ≠ "") as He.
  { apply andb_true_iff in Hemail as [Hat _]. by eapply includes_nonempty; [|exact Hat]. }
  unfold parseLine.
  rewrite trim_join; [|done|done|by eapply Forall_impl; [exact Hclean|]; intros ? [? _]].
  rewrite startsWith_hash_join, Hhash by done.
  pose proof (join_nonempty (String d "") e (p :: t :: ext) He) as Hne.
  destruct (join (String d "") (e :: p :: t :: ext)) eqn:Ej; [done|]. rewrite <- Ej.
  cbn [splitAny]. rewrite split_join_char;
    [|done|by eapply Forall_impl; [exact Hclean|]; intros ? (_ & ? & _)].
  assert (trim <$> e :: p :: t :: ext = e :: p :: t :: ext) as ->.
  { clear -Hclean. induction Hclean as [|x l [Hx _] _ IH]; [done|].
    rewrite fmap_cons, Hx. by f_equal. }
  cbn [length Nat.ltb Nat.leb nth drop andb].
  assert (truthy t && negb (validateTOTP t) = false) as ->.
  { destruct Ht as [->|Hv]; [done|]. rewrite Hv. by rewrite andb_false_r. }
  rewrite Hemail. rewrite Ej at 1. cbn [negb truthy orb drop]. by rewrite filter_truthy.
Qed.

Lemma exportLine_parsed (d : ascii) (i : nat) (acc : Account) :
  isWhiteSpace d = false → exportable d acc →
  parseLine (String d "") true i (exportLine (String d "") allFields acc)
  = Parsed (flattened acc).
Proof.
  intros Hd (He & Hp & Ht & Hv & Hh & Hs & Hx).
  unfold exportLine, flattened. cbn [allFields f_email f_password f_totp f_extras andb].
  destruct (acc_extras acc) as [|x xs] eqn:Ex.
  - cbn [length Nat.ltb Nat.leb app]. apply parseLine_join; try done.
    repeat (constructor; [done|]). constructor.
  - destruct Hx as [Hc Hn]; [done|].
    cbn [length Nat.ltb Nat.leb app]. apply parseLine_join; try done.
    + repeat (constructor; [done|]). constructor.
    + constructor; [done|constructor].
Qed.

Lemma exportLine_no_newline (d : ascii) (acc : Account) :
  isWhiteSpace d = false → exportable d acc →
  ascii_of_nat 10 ∉ chars (exportLine (String d "") allFields acc).
Proof.
  intros Hd (He & Hp & Ht & Hv & Hh & Hs & Hx).
  unfold exportLine. apply chars_join; [by intros <-|].
  cbn [allFields f_email f_password f_totp f_extras andb].
  destruct He as (_ & _ & ?), Hp as (_ & _ & ?), Ht as (_ & _ & ?).
  destruct (acc_extras acc) as [|x xs] eqn:Ex.
  - cbn [length Nat.ltb Nat.leb app]. repeat (constructor; [done|]). constructor.
  - destruct Hx as [(_ & _ & ?) _]; [done|].
    cbn [length Nat.ltb Nat.leb app]. repeat (constructor; [done|]). constructor.
Qed.

Lemma parseFrom_exported (d : ascii) (accs : list Account) :
  isWhiteSpace d = false → Forall (exportable d) accs →
  ∀ i parsed errors,
    parseFrom (String d "") true i (exportLine (String d "") allFields <$> accs)
      parsed errors
    = (parsed ++ (flattened <$> accs), errors).
Proof.
  intros Hd. induction 1 as [|acc accs Hacc _ IH]; intros i parsed errors.
  - simpl. by rewrite app_nil_r.
  - rewrite fmap_cons. cbn [parseFrom]. rewrite exportLine_parsed by done.
    rewrite IH. by rewrite <- app_assoc.
Qed.

(** X17. A TXT export with the four default fields and a delimiter that is
    one character, not white space, is read back by [parse] without errors:
    every exported account returns with its email, password and secret, and
    its extras as one field, when its fields are trimmed, hold neither the
    delimiter nor a line break, and its email and secret are valid. *)
Theorem export_then_parse (d : ascii) (accountIds : option (list string))
    (ds : DataStore) :
  isWhiteSpace d = false →
  Forall (exportable d) (selection accountIds ds) →
  parse (exportAccounts accountIds (String d "") allFields ds) (String d "") true
  = (flattened <$> selection accountIds ds, []).
Proof.
  intros Hd Hall. unfold parse, exportAccounts. fold (selection accountIds ds).
  destruct (selection accountIds ds) as [|acc accs] eqn:Es; [done|].
  rewrite <- Es in *. unfold newline. rewrite split_join_char.
  - by rewrite parseFrom_exported.
  - by rewrite Es.
  - apply Forall_fmap. eapply Forall_impl; [exact Hall|].
    intros a Ha. by apply exportLine_no_newline.
Qed.

Lemma export_then_parse_witness :
  parse (exportAccounts None "|" allFields Samples.forExport) "|" true
  = (flattened <$> accounts Samples.forExport, []).
Proof.
  assert (∀ s, bool_decide (trim s = s ∧ ("|"%char ∉ chars s)
                            ∧ (ascii_of_nat 10 ∉ chars s)) = true
               → cleanField "|" s) as Hclean.
  { intros s H. by apply bool_decide_eq_true in H. }
  apply (export_then_parse "|" None Samples.forExport); [reflexivity|].
  constructor; [|constructor; [|constructor]].
  - split; [apply Hclean; reflexivity|]. split; [apply Hclean; reflexivity|].
    split; [apply Hclean; reflexivity|]. split; [reflexivity|].
    split; [reflexivity|]. split; [right; reflexivity|].
    intros _. split; [apply Hclean; reflexivity|discriminate].
  - split; [apply Hclean; reflexivity|]. split; [apply Hclean; reflexivity|].
    split; [apply Hclean; reflexivity|]. split; [reflexivity|].
    split; [reflexivity|]. split; [left; reflexivity|].
    intros H. by destruct H.
Defined.

End RoundTrip.

Section SortedView.
Import Utils DataStore FileParser Views Props.

Lemma sortInsert_perm {A} (cmp : A → A → Z) (x : A) (l : list A) :
  sortInsert cmp x l ≡ₚ x :: l.
Proof.
  induction l as [|y r IH]; [done|]. simpl. case_match; [done|].
  rewrite IH. apply Permutation_swap.
Qed.

Lemma sort_perm {A} (cmp : A → A → Z) (l : list A) : sort cmp l ≡ₚ l.
Proof.
  induction l as [|x l IH]; [done|]. unfold sort in *. simpl.
  rewrite sortInsert_perm. by rewrite IH.
Qed.

Lemma sortInsert_sorted (x : Account) (l : list Account) :
  sortedBy Z.le (acc_order <$> l) →
  sortedBy Z.le (acc_order <$> sortInsert byOrder x l).
Proof.
  induction l as [|y r IH]; intros Hs.
  - simpl. split; [constructor|done].
  - destruct Hs as [Hy Hr]. cbn [sortInsert]. unfold byOrder at 1.
    destruct (Z.leb_spec (acc_order x - acc_order y) 0).
    + rewrite !fmap_cons. split; [|by split]. constructor; [lia|].
      eapply Forall_impl; [exact Hy|]. simpl. lia.
    + rewrite fmap_cons. split; [|by apply IH].
      rewrite sortInsert_perm, fmap_cons. constructor; [lia|done].
Qed.

Lemma sort_sorted (l : list Account) : sortedBy Z.le (acc_order <$> sort byOrder l).
Proof.
  induction l as [|x l IH]; [done|]. unfold sort in *. simpl.
  by apply sortInsert_sorted.
Qed.

Lemma ascending_seqZ (n : nat) (m : Z) : sortedBy Z.lt (seqZ m (Z.of_nat n)).
Proof.
  revert m. induction n as [|n IH]; intros m; [done|].
  rewrite Nat2Z.inj_succ, seqZ_cons by lia.
  replace (Z.pred (Z.succ (Z.of_nat n))) with (Z.of_nat n) by lia.
  split; [|apply IH]. apply Forall_forall. intros y Hy.
  apply elem_of_seqZ in Hy. lia.
Qed.

(** Two ascending lists with the same elements are the same list. *)
Lemma ascending_unique (l k : list Z) :
  sortedBy Z.lt l → sortedBy Z.lt k → l ≡ₚ k → l = k.
Proof.
  revert k. induction l as [|x l IH]; intros k Hl Hk Hp.
  - by apply Permutation_nil_l in Hp.
  - destruct k as [|y k]; [by apply Permutation_nil_r in Hp|].
    destruct Hl as [Hx Hl], Hk as [Hy Hk].
    assert (x = y) as ->.
    { assert (x ∈ y :: k) as Hin1 by (rewrite <- Hp; apply list_elem_of_here).
      assert (y ∈ x :: l) as Hin2 by (rewrite Hp; apply list_elem_of_here).
      apply elem_of_cons in Hin1 as [?|Hin1]; [done|].
      apply elem_of_cons in Hin2 as [?|Hin2]; [done|].
      rewrite Forall_forall in Hx, Hy. specialize (Hx _ Hin2). specialize (Hy _ Hin1).
      lia. }
    f_equal. apply IH; [done|done|]. by apply Permutation_cons_inv in Hp.
Qed.

Lemma sorted_NoDup_ascending (l : list Z) :
  sortedBy Z.le l → NoDup l → sortedBy Z.lt l.
Proof.
  induction l as [|x l IH]; intros Hs Hnd; [done|]. destruct Hs as [Hx Hs].
  apply NoDup_cons in Hnd as [Hnot Hnd].
  split; [|by apply IH]. apply Forall_forall. intros y Hy.
  rewrite Forall_forall in Hx. specialize (Hx y Hy).
  assert (x ≠ y) by (by intros ->). lia.
Qed.

(** X18. On a store whose order values are 0, ..., count-1, each once, the
    sorted view holds every account once and the account at position [i] of
    the view has order [i]. *)
Theorem getAccountsSorted_dense (ds : DataStore) :
  dense ds →
  getAccountsSorted ds ≡ₚ accounts ds
  ∧ acc_order <$> getAccountsSorted ds = seqZ 0 (Z.of_nat (length (accounts ds))).
Proof.
  intros Hd. unfold getAccountsSorted. split; [apply sort_perm|].
  assert (acc_order <$> sort byOrder (accounts ds)
          ≡ₚ seqZ 0 (Z.of_nat (length (accounts ds)))) as Hp.
  { unfold dense in Hd. rewrite <- Hd. unfold orders. apply fmap_Permutation, sort_perm. }
  apply ascending_unique; [|apply ascending_seqZ|done].
  apply sorted_NoDup_ascending; [apply sort_sorted|].
  rewrite Hp. apply NoDup_seqZ.
Qed.

Lemma getAccountsSorted_dense_witness :
  getAccountsSorted (reorderAccounts "id-a" 1 Samples.three).2
    ≡ₚ accounts (reorderAccounts "id-a" 1 Samples.three).2
  ∧ acc_order <$> getAccountsSorted (reorderAccounts "id-a" 1 Samples.three).2
    = seqZ 0 (Z.of_nat (length (accounts (reorderAccounts "id-a" 1 Samples.three).2))).
Proof.
  apply (getAccountsSorted_dense (reorderAccounts "id-a" 1 Samples.three).2).
  vm_compute. apply perm_swap.
Defined.

End SortedView.

Section SearchFilters.
Import Utils SearchManager.

Lemma call_consistent (m : SearchManager) (c : Call) :
  consistent m → consistent (call m c).
Proof.
  intros [Hu Hnd]. destruct c as [q|tagId| |status|]; simpl; try done.
  - unfold toggleTag, consistent. cbn [showUntagged selectedTags].
    set (selected := match list_find _ _ with Some _ => _ | None => _ end).
    split.
    + destruct selected; [done|]. simpl. done.
    + subst selected.
      destruct (list_find (λ t, t = tagId) (selectedTags m)) as [[index t]|] eqn:Hf.
      * eapply sublist_NoDup; [exact Hnd|]. apply sublist_delete.
      * apply NoDup_app. split; [done|]. split; [|apply NoDup_singleton].
        intros x Hx ->%list_elem_of_singleton.
        eapply list_find_None, Forall_forall in Hf; [|exact Hx]. done.
  - unfold toggleUntagged, consistent. cbn [showUntagged selectedTags].
    destruct (showUntagged m); simpl; [done|]. split; [done|constructor].
  - split; [done|constructor].
Qed.

(** X19. Whatever sequence of filter calls the search manager gets after
    its construction, the "untagged" filter and a tag selection are never on
    together, and no tag is selected twice. *)
Theorem searchManager_consistent (calls : list Call) :
  consistent (fold_left call calls init).
Proof.
  assert (∀ m, consistent m → consistent (fold_left call calls m)) as H.
  { induction calls as [|c calls IH]; intros m Hm; [done|].
    simpl. by apply IH, call_consistent. }
  apply H. split; [done|constructor].
Qed.

End SearchFilters.

Section TagFacts.
Import Utils DataStore Tags Props.

Lemma elem_of_without (i x : string) (l : list string) :
  x ∈ without i l ↔ x ∈ l ∧ x ≠ i.
Proof.
  unfold without. rewrite !list_elem_of_In, filter_In.
  by rewrite negb_true_iff, String.eqb_neq.
Qed.

Lemma without_absent (i : string) (l : list string) : i ∉ l → without i l = l.
Proof.
  induction l as [|x l IH]; intros Hi; [done|].
  apply not_elem_of_cons in Hi as [Hne Hi]. unfold without in *. simpl.
  destruct (String.eqb_spec x i); [done|]. simpl. by rewrite IH.
Qed.

Lemma without_app (i : string) (l k : list string) :
  without i (l ++ k) = without i l ++ without i k.
Proof. unfold without. apply List.filter_app. Qed.

Lemma without_NoDup (i : string) (l : list string) : NoDup l → NoDup (without i l).
Proof.
  induction 1 as [|x l Hx _ IH]; [constructor|]. unfold without in *. simpl.
  destruct (negb (String.eqb x i)); [|done]. constructor; [|done].
  intros Hin. apply Hx. eapply (elem_of_without i). exact Hin.
Qed.

Lemma lookup_delete_other {A} (l : list A) (i j : nat) (x : A) :
  l !! j = Some x → j ≠ i → x ∈ delete i l.
Proof.
  intros Hj Hne. apply list_elem_of_lookup.
  destruct (decide (j < i)%nat).
  - exists j. by rewrite list_lookup_delete_lt.
  - exists (j - 1)%nat. rewrite list_lookup_delete_ge by lia.
    by replace (S (j - 1)) with j by lia.
Qed.

(** X20. Deleting a tag keeps the references closed: when every tag id
    carried by an account named a tag of the store before [deleteTag], the
    same holds afterwards. *)
Theorem deleteTag_keeps_closed (i : string) (s : TagStore) :
  tagsClosed s → tagsClosed (deleteTag i s).2.
Proof.
  intros Hc. unfold deleteTag.
  destruct (list_find (hasTagId i) (tags s)) as [[index deleted]|] eqn:Hf; [|done].
  apply list_find_Some in Hf as (Hi & Hid & _).
  unfold tagsClosed in *. cbn [snd base accounts set_accounts autoSave].
  apply Forall_fmap. eapply Forall_impl; [exact Hc|]. intros acc Hacc. simpl.
  apply Forall_forall. intros t [Ht Hne]%elem_of_without.
  rewrite Forall_forall in Hacc. specialize (Hacc t Ht).
  unfold tagIds in *. cbn [tags].
  apply list_elem_of_fmap in Hacc as (tag & -> & Hin).
  apply list_elem_of_lookup in Hin as [j Hj].
  apply list_elem_of_fmap. exists tag. split; [done|].
  eapply lookup_delete_other; [exact Hj|]. intros ->.
  rewrite Hi in Hj. injection Hj as ->. by apply Hne.
Qed.

Lemma deleteTag_keeps_closed_witness :
  tagsClosed (deleteTag "t1" TagSamples.tagged).2.
Proof.
  apply (deleteTag_keeps_closed "t1" TagSamples.tagged).
  repeat constructor; apply (bool_decide_unpack _); by vm_compute.
Defined.

(** X21. After a [deleteTag] that returns [true], on a store whose tag ids
    are unique, the id is gone: [getTag] does not find it and no account
    carries it. *)
Theorem deleteTag_removes_id (i : string) (s : TagStore) :
  NoDup (tagIds s) → (deleteTag i s).1 = true →
  getTag i (deleteTag i s).2 = None
  ∧ Forall (λ acc, i ∉ acc_tags acc) (accounts (base (deleteTag i s).2)).
Proof.
  intros Hnd. unfold deleteTag, getTag.
  destruct (list_find (hasTagId i) (tags s)) as [[index deleted]|] eqn:Hf; [|done].
  intros _. apply list_find_Some in Hf as (Hi & Hid & _).
  cbn [snd base accounts set_accounts autoSave tags]. split.
  - assert (list_find (hasTagId i) (delete index (tags s)) = None) as ->; [|done].
    apply list_find_None, Forall_forall. intros tag Hin Htag.
    unfold hasTagId in *.
    pose proof (delete_Permutation _ _ _ Hi) as Hp.
    unfold tagIds in Hnd. rewrite Hp, fmap_cons in Hnd.
    apply NoDup_cons in Hnd as [Hnot _]. apply Hnot.
    rewrite Hid, <- Htag. apply list_elem_of_fmap. eauto.
  - apply Forall_fmap, Forall_forall. intros acc _. simpl.
    rewrite elem_of_without. by intros [_ ?].
Qed.

Lemma deleteTag_removes_id_witness :
  getTag "t1" (deleteTag "t1" TagSamples.tagged).2 = None
  ∧ Forall (λ acc, "t1" ∉ acc_tags acc)
      (accounts (base (deleteTag "t1" TagSamples.tagged).2)).
Proof.
  apply (deleteTag_removes_id "t1" TagSamples.tagged); [|reflexivity].
  apply (bool_decide_unpack _). by vm_compute.
Defined.

(** X22. A second [addTagToAccount] with the same arguments returns what
    the first returned and leaves the store as the first left it: no
    account changes, nothing is saved, nobody is notified. *)
Theorem addTagToAccount_twice (accountId tagId : string) (ds : DataStore) :
  addTagToAccount accountId tagId (addTagToAccount accountId tagId ds).2
  = addTagToAccount accountId tagId ds.
Proof.
  unfold addTagToAccount at 2 3.
  destruct (list_find (hasId accountId) (accounts ds)) as [[index account]|] eqn:Hf.
  - case_bool_decide as Hin; cbn [snd].
    + unfold addTagToAccount. rewrite Hf. by rewrite bool_decide_true.
    + unfold addTagToAccount. cbn [accounts notify autoSave set_accounts].
      erewrite list_find_insert_hit; [|exact Hf|].
      * rewrite bool_decide_true; [done|]. simpl. apply elem_of_app. right.
        apply list_elem_of_here.
      * apply list_find_Some in Hf as (_ & Hid & _). exact Hid.
  - cbn [snd]. unfold addTagToAccount. by rewrite Hf.
Qed.

(** The tags of no account hold an id twice. *)
Lemma insert_tags_NoDup (l : list Account) (index : nat) (a : Account) (t : list string) :
  Forall (λ acc, NoDup (acc_tags acc)) l → NoDup t →
  Forall (λ acc, NoDup (acc_tags acc)) (<[index := set_tags t a]> l).
Proof. intros Hl Ht. by apply Forall_insert. Qed.

(** X23. [addTagToAccount] and [removeTagFromAccount] never make an account
    carry a tag id twice: when no account does before the call, none does
    afterwards. *)
Theorem account_tags_stay_distinct (accountId tagId : string) (ds : DataStore) :
  Forall (λ acc, NoDup (acc_tags acc)) (accounts ds) →
  Forall (λ acc, NoDup (acc_tags acc)) (accounts (addTagToAccount accountId tagId ds).2)
  ∧ Forall (λ acc, NoDup (acc_tags acc))
      (accounts (removeTagFromAccount accountId tagId ds).2).
Proof.
  intros Hnd. unfold addTagToAccount, removeTagFromAccount.
  destruct (list_find (hasId accountId) (accounts ds)) as [[index account]|] eqn:Hf;
    [|done].
  apply list_find_Some in Hf as (Hi & _ & _).
  assert (NoDup (acc_tags account)) as Ha.
  { eapply Forall_forall in Hnd; [exact Hnd|]. apply list_elem_of_lookup. eauto. }
  split.
  - case_bool_decide as Hin; [done|]. cbn [snd accounts notify autoSave set_accounts].
    apply insert_tags_NoDup; [done|]. apply NoDup_app. split; [done|].
    split; [|apply NoDup_singleton]. by intros x Hx ->%list_elem_of_singleton.
  - cbn [snd accounts notify autoSave set_accounts].
    apply insert_tags_NoDup; [done|]. by apply without_NoDup.
Qed.

Lemma account_tags_stay_distinct_witness :
  Forall (λ acc, NoDup (acc_tags acc))
    (accounts (addTagToAccount "id-b" "t1" (base TagSamples.tagged)).2)
  ∧ Forall (λ acc, NoDup (acc_tags acc))
      (accounts (removeTagFromAccount "id-b" "t1" (base TagSamples.tagged)).2).
Proof.
  apply (account_tags_stay_distinct "id-b" "t1" (base TagSamples.tagged)).
  repeat constructor; apply (bool_decide_unpack _); by vm_compute.
Defined.

Lemma toggled_perm (t : string) (l : list string) :
  NoDup l → t ∈ l → l ≡ₚ without t l ++ [t].
Proof.
  intros Hnd Hin. apply NoDup_Permutation; [done| |].
  - apply NoDup_app. split; [by apply without_NoDup|]. split; [|apply NoDup_singleton].
    intros x [_ Hx]%elem_of_without ->%list_elem_of_singleton. done.
  - intros x. rewrite elem_of_app, elem_of_without, list_elem_of_singleton.
    destruct (decide (x = t)) as [->|]; tauto.
Qed.

Lemma Forall2_insert_same (R : Account → Account → Prop) (l : list Account)
    (index : nat) (a a' : Account) :
  (∀ x, R x x) → l !! index = Some a → R a a' → Forall2 R l (<[index := a']> l).
Proof.
  intros Hrefl Hi Ha. rewrite <- (list_insert_id l index a Hi) at 1.
  apply Forall2_insert; [|done]. apply Forall_Forall2_diag, Forall_forall. auto.
Qed.

(** X24. Toggling a tag of an account twice through the quick selector
    gives every account its tags back, up to their order, and changes no
    other field, when the account of the selector does not carry a tag id
    twice. *)
Theorem toggleTag_twice (accountId tagId : string) (ds : DataStore) :
  (∀ a, getAccount accountId ds = Some a → NoDup (acc_tags a)) →
  Forall2 (λ a a', sameButTags a a' ∧ acc_tags a ≡ₚ acc_tags a')
    (accounts ds) (accounts (toggleTag accountId tagId (toggleTag accountId tagId ds))).
Proof.
  intros Hnd.
  assert (∀ x : Account, sameButTags x x ∧ acc_tags x ≡ₚ acc_tags x) as Hrefl by done.
  unfold toggleTag at 2. unfold getAccount in *.
  destruct (list_find (hasId accountId) (accounts ds)) as [[index account]|] eqn:Hf;
    cbn [fmap option_fmap option_map snd].
  2:{ unfold toggleTag, getAccount. rewrite Hf. simpl.
      apply Forall_Forall2_diag, Forall_forall. auto. }
  specialize (Hnd account eq_refl).
  pose proof Hf as Hf'. apply list_find_Some in Hf' as (Hi & Hid & _).
  case_bool_decide as Hin.
  - unfold removeTagFromAccount. rewrite Hf. cbn [snd].
    unfold toggleTag, getAccount. cbn [accounts notify autoSave set_accounts].
    erewrite list_find_insert_hit; [|exact Hf|exact Hid].
    cbn [fmap option_fmap option_map snd acc_tags set_tags].
    rewrite bool_decide_false by (by intros [_ ?]%elem_of_without).
    unfold addTagToAccount. cbn [accounts notify autoSave set_accounts].
    erewrite list_find_insert_hit; [|exact Hf|exact Hid].
    cbn [acc_tags set_tags].
    rewrite bool_decide_false by (by intros [_ ?]%elem_of_without).
    cbn [snd accounts notify autoSave set_accounts]. rewrite list_insert_insert_eq.
    eapply Forall2_insert_same; [exact Hrefl|exact Hi|].
    split; [done|]. simpl. by apply toggled_perm.
  - unfold addTagToAccount. rewrite Hf, bool_decide_false by done. cbn [snd].
    unfold toggleTag, getAccount. cbn [accounts notify autoSave set_accounts].
    erewrite list_find_insert_hit; [|exact Hf|exact Hid].
    cbn [fmap option_fmap option_map snd acc_tags set_tags].
    rewrite bool_decide_true
      by (apply elem_of_app; right; apply list_elem_of_here).
    unfold removeTagFromAccount. cbn [accounts notify autoSave set_accounts].
    erewrite list_find_insert_hit; [|exact Hf|exact Hid].
    cbn [snd accounts notify autoSave set_accounts acc_tags set_tags].
    rewrite list_insert_insert_eq.
    eapply Forall2_insert_same; [exact Hrefl|exact Hi|].
    split; [done|]. simpl. rewrite without_app, without_absent by done.
    unfold without. simpl. rewrite String.eqb_refl. simpl. by rewrite app_nil_r.
Qed.

Lemma toggleTag_twice_witness :
  Forall2 (λ a a', sameButTags a a' ∧ acc_tags a ≡ₚ acc_tags a')
    (accounts (base TagSamples.tagged))
    (accounts (toggleTag "id-a" "t1" (toggleTag "id-a" "t1" (base TagSamples.tagged)))).
Proof.
  apply (toggleTag_twice "id-a" "t1" (base TagSamples.tagged)).
  intros a Ha. vm_compute in Ha. injection Ha as <-.
  apply (bool_decide_unpack _). by vm_compute.
Defined.

End TagFacts.

Section JsonImport.
Import Utils DataStore Tags Props.

Lemma mergeTag_inv (freshTag : nat → string * Z) (s : TagStore) (m : Merge)
    (t : ImportedTag) :
  mergeInv s m → mergeInv s (mergeTag freshTag m t).
Proof.
  intros ((new & Hnew & Hlen) & Hacc & Hmap). unfold mergeTag.
  destruct (list_find (sameName (it_name t)) (tags (merged m)))
    as [[index existingTag]|] eqn:Hf.
  - split; [by exists new|]. split; [done|]. cbn [tagIdMapping merged].
    intros k v. destruct (decide (k = it_id t)) as [->|Hne].
    + rewrite lookup_insert_eq. intros [= <-].
      apply list_find_Some in Hf as (Hi & _ & _).
      apply list_elem_of_fmap. exists existingTag. split; [done|].
      apply list_elem_of_lookup. eauto.
    + rewrite lookup_insert_ne by done. apply Hmap.
  - cbn [createTag fst snd]. split; [|split; [done|]].
    + eexists (new ++ [_]). cbn [merged tags created]. rewrite Hnew, <- app_assoc.
      split; [done|]. rewrite length_app. simpl. lia.
    + cbn [tagIdMapping merged tag_id]. unfold tagIds. cbn [tags].
      intros k v. rewrite fmap_app. destruct (decide (k = it_id t)) as [->|Hne].
      * rewrite lookup_insert_eq. intros [= <-]. apply elem_of_app. right.
        apply list_elem_of_here.
      * rewrite lookup_insert_ne by done. intros Hk. apply elem_of_app. left.
        by eapply Hmap.
Qed.

Lemma mergeTags_inv (freshTag : nat → string * Z) (imported : list ImportedTag)
    (s : TagStore) :
  mergeInv s (mergeTags freshTag imported s)
  ∧ (created (mergeTags freshTag imported s) ≤ length imported)%nat.
Proof.
  unfold mergeTags.
  assert (∀ m, mergeInv s m →
               mergeInv s (fold_left (mergeTag freshTag) imported m)
               ∧ (created (fold_left (mergeTag freshTag) imported m)
                  ≤ created m + length imported)%nat) as H.
  { induction imported as [|t imported IH]; intros m Hm; [split; [done|simpl; lia]|].
    cbn [fold_left]. destruct (IH (mergeTag freshTag m t)) as [Hi Hc].
    { by apply mergeTag_inv. }
    split; [done|]. etrans; [exact Hc|]. unfold mergeTag. simpl.
    case_match; [case_match|]; simpl; lia. }
  apply (H (mkMerge ∅ 0 s)). split; [|split; [done|]].
  - exists []. by rewrite app_nil_r.
  - intros k v. cbn [tagIdMapping]. by rewrite lookup_empty.
Qed.

(** X25. The tag merge of a JSON import never alters a tag of the store:
    the tags that were there stay in place with their id, name, colour and
    date, and at most one tag per tag of the file is added behind them. The
    accounts are not touched by the merge. *)
Theorem mergeTags_keeps_tags (freshTag : nat → string * Z)
    (imported : list ImportedTag) (s : TagStore) :
  ∃ new, tags (merged (mergeTags freshTag imported s)) = tags s ++ new
         ∧ (length new ≤ length imported)%nat
         ∧ accounts (base (merged (mergeTags freshTag imported s)))
           = accounts (base s).
Proof.
  destruct (mergeTags_inv freshTag imported s) as [((new & Hnew & Hlen) & Hacc & _) Hc].
  exists new. split; [done|]. split; [lia|done].
Qed.

Lemma importOne_tags (Q : list string → Prop) (fresh : nat → string * Z)
    (ds : DataStore) (st : Stats) (c : Candidate) :
  Forall (λ a, Q (acc_tags a)) (accounts ds) → Q (c_tags c) →
  Forall (λ a, Q (acc_tags a)) (accounts (importOne fresh (ds, st) c).1).
Proof.
  intros Hds Hc. unfold importOne, mergeAndCount.
  assert (∀ uuid now, Forall (λ a, Q (acc_tags a))
                        (accounts (addAccount uuid now c ds).2)) as Hadd.
  { intros uuid now. rewrite addAccount_accounts. apply Forall_app. split; [done|].
    by apply Forall_singleton. }
  destruct (list_find (sameLogin c) (accounts ds)) as [[index existing]|] eqn:Hf;
    [|apply Hadd].
  apply list_find_Some in Hf as (Hi & _ & _).
  assert (Q (acc_tags existing)) as He.
  { eapply Forall_forall in Hds; [exact Hds|]. apply list_elem_of_lookup. eauto. }
  repeat case_match; simpl; try done; try apply Hadd; by apply Forall_insert.
Qed.

Lemma importAccounts_tags (Q : list string → Prop) (fresh : nat → string * Z)
    (batch : list Candidate) (ds : DataStore) :
  Forall (λ a, Q (acc_tags a)) (accounts ds) →
  Forall (λ c, Q (c_tags c)) batch →
  Forall (λ a, Q (acc_tags a)) (accounts (importAccounts fresh batch ds).2).
Proof.
  intros Hds Hb. unfold importAccounts.
  assert (∀ st, Forall (λ a, Q (acc_tags a))
                  (accounts (fold_left (importOne fresh) batch (ds, st)).1)) as H.
  { revert ds Hds. induction batch as [|c batch IH]; intros ds Hds st; [done|].
    cbn [fold_left]. apply Forall_cons in Hb as [Hc Hb].
    pose proof (importOne_tags Q fresh ds st c Hds Hc) as H1.
    destruct (importOne fresh (ds, st) c) as [ds1 st1]. by apply IH. }
  specialize (H (mkStats 0 0 0)). by destruct (fold_left _ _ _).
Qed.

(** X26. A JSON import keeps the references closed: when every tag id
    carried by an account named a tag of the store before [confirm], the
    same holds afterwards, for the accounts that were there and for the
    imported ones. Ids of the file that the file's tag list does not
    explain are dropped. *)
Theorem confirm_keeps_closed (freshTag fresh : nat → string * Z)
    (jsonTags : list ImportedTag) (jsonAccounts : list Candidate) (s : TagStore) :
  tagsClosed s → tagsClosed (confirm freshTag fresh jsonTags jsonAccounts s).2.
Proof.
  intros Hc. unfold confirm, tagsClosed. cbn [snd base tagIds tags].
  destruct (mergeTags_inv freshTag jsonTags s) as [((new & Hnew & _) & Hacc & Hmap) _].
  set (m := mergeTags freshTag jsonTags s) in *.
  apply (importAccounts_tags (λ l, Forall (λ t, t ∈ tag_id <$> tags (merged m)) l)).
  - rewrite Hacc. eapply Forall_impl; [exact Hc|]. intros acc Ha. simpl in *.
    eapply Forall_impl; [exact Ha|]. intros t Ht. simpl in *.
    unfold tagIds in Ht. rewrite Hnew, fmap_app. apply elem_of_app. by left.
  - apply Forall_fmap, Forall_forall. intros c _. simpl.
    apply Forall_forall. intros t Ht. unfold mappedTags in Ht.
    apply list_elem_of_omap in Ht as (old & _ & Ht).
    destruct (tagIdMapping m !! old) as [v|] eqn:Hv; [|done].
    destruct (truthy v); [|done]. injection Ht as ->. by eapply Hmap.
Qed.

Lemma confirm_keeps_closed_witness :
  tagsClosed (confirm TagSamples.freshTag Samples.fresh TagSamples.fileTags
                TagSamples.fileAccounts TagSamples.tagged).2.
Proof.
  apply (confirm_keeps_closed TagSamples.freshTag Samples.fresh TagSamples.fileTags
           TagSamples.fileAccounts TagSamples.tagged).
  repeat constructor; apply (bool_decide_unpack _); by vm_compute.
Defined.

Lemma mergeTag_names (freshTag : nat → string * Z) (m : Merge) (t : ImportedTag) :
  trim (it_name t) = it_name t →
  NoDup (tagNames (merged m)) → NoDup (tagNames (merged (mergeTag freshTag m t))).
Proof.
  intros Ht Hnd. unfold mergeTag.
  destruct (list_find (sameName (it_name t)) (tags (merged m)))
    as [[index existingTag]|] eqn:Hf; [done|].
  cbn [merged createTag snd]. unfold tagNames in *. cbn [tags].
  rewrite fmap_app. apply NoDup_app. split; [done|].
  split; [|apply NoDup_singleton].
  intros x Hx Hin. apply list_elem_of_singleton in Hin. simpl in Hin. subst x.
  rewrite Ht in Hx. apply list_elem_of_fmap in Hx as (tag & Hname & Hin).
  eapply list_find_None, Forall_forall in Hf; [|exact Hin]. by apply Hf.
Qed.

(** X27. The tag merge of a JSON import keeps tag names distinct: when no
    two tags of the store have the same name up to letter case, and the
    names in the file carry no white space at their ends, no two tags have
    the same name up to letter case after the merge. *)
Theorem mergeTags_names_distinct (freshTag : nat → string * Z)
    (imported : list ImportedTag) (s : TagStore) :
  NoDup (tagNames s) →
  Forall (λ t, trim (it_name t) = it_name t) imported →
  NoDup (tagNames (merged (mergeTags freshTag imported s))).
Proof.
  intros Hnd Hall. unfold mergeTags.
  assert (∀ m, NoDup (tagNames (merged m)) →
               NoDup (tagNames (merged (fold_left (mergeTag freshTag) imported m))))
    as H.
  { induction Hall as [|t imported Ht _ IH]; intros m Hm; [done|].
    cbn [fold_left]. by apply IH, mergeTag_names. }
  by apply H.
Qed.

Lemma mergeTags_names_distinct_witness :
  NoDup (tagNames (merged (mergeTags TagSamples.freshTag TagSamples.fileTags
                             TagSamples.tagged))).
Proof.
  apply (mergeTags_names_distinct TagSamples.freshTag TagSamples.fileTags
           TagSamples.tagged).
  - apply (bool_decide_unpack _). by vm_compute.
  - repeat constructor.
Defined.

End JsonImport.

Section FormFacts.
Import Utils DataStore FileParser Validation TextFormat AccountModal.

(** X28. The account form keeps the format of secrets: when every stored
    secret is empty or accepted by [validateTOTP], so is every stored secret
    after [confirm], whatever was typed, whether the form adds an account,
    edits one, or rejects the input. *)
Theorem form_keeps_secret_format (uuid : string) (now : Z)
    (accountId : option string) (form : Form) (ds : DataStore) :
  Forall (λ a, secretOk (acc_totp a)) (accounts ds) →
  Forall (λ a, secretOk (acc_totp a))
    (accounts (confirm uuid now accountId form ds).2).
Proof.
  intros Hds. unfold confirm.
  destruct (validateEmail (trim (form_email form))); [|done]. cbn [negb].
  destruct (truthy (trim (form_totp form)) && negb (validateTOTP (trim (form_totp form))))
    eqn:Hcheck; [done|].
  assert (secretOk (trim (form_totp form))) as Hok.
  { destruct (trim (form_totp form)) eqn:Et; [by left|]. right.
    simpl in Hcheck. by apply negb_false_iff in Hcheck. }
  set (extras := if truthy (trim (form_extras form)) then _ else _).
  assert (∀ c, c_totp c = trim (form_totp form) →
               Forall (λ a, secretOk (acc_totp a)) (accounts (addAccount uuid now c ds).2))
    as Hadd.
  { intros c Hc. rewrite addAccount_accounts. apply Forall_app. split; [done|].
    apply Forall_singleton. simpl. rewrite Hc. by apply secretOk_added. }
  destruct accountId as [i|]; [|by apply Hadd].
  destruct (truthy i); [|by apply Hadd]. cbn [snd]. unfold updateAccount.
  destruct (list_find (hasId i) (accounts ds)) as [[index a]|]; [|done].
  cbn [snd accounts notify autoSave set_accounts]. apply Forall_insert; [done|].
  simpl. by apply secretOk_added.
Qed.

Lemma form_keeps_secret_format_witness :
  Forall (λ a, secretOk (acc_totp a))
    (accounts (confirm "id-n" 7 (Some "id-a")
                 (mkForm " A@x.com" "pw" Samples.secretX_lower "one, two,")
                 Samples.withSecret).2).
Proof.
  apply (form_keeps_secret_format "id-n" 7 (Some "id-a")
           (mkForm " A@x.com" "pw" Samples.secretX_lower "one, two,")
           Samples.withSecret).
  constructor; [right; by vm_compute|constructor].
Defined.

End FormFacts.

Section TextImport.
Import Utils DataStore FileParser Validation TextFormat ImportModal.

Lemma wellFormed_secretOk (hasTOTP : bool) (c : Candidate) :
  wellFormed hasTOTP c → secretOk (c_totp c).
Proof.
  intros (_ & _ & _ & Ht & _). destruct hasTOTP; [done|]. by left.
Qed.

(** X29. A text import keeps the format of secrets whatever the file
    holds: when every stored secret is empty or accepted by [validateTOTP],
    so is every stored secret after [ImportModal.confirm], for any text,
    delimiter and column choice. *)
Theorem text_import_keeps_secret_format (fresh : nat → string * Z)
    (text delimiter : string) (hasTOTP : bool) (ds : DataStore) :
  Forall (λ a, secretOk (acc_totp a)) (accounts ds) →
  Forall (λ a, secretOk (acc_totp a))
    (accounts (confirm fresh text delimiter hasTOTP ds).2).
Proof.
  intros Hds. unfold confirm. case_match; [done|]. cbn [snd].
  apply importAccounts_secretOk; [done|].
  unfold parse.
  destruct (parseFrom_inv delimiter hasTOTP (split newline text) 0 [] [] [] eq_refl)
    as (H1 & _).
  eapply Forall_impl; [by apply H1|]. apply wellFormed_secretOk.
Qed.

Lemma text_import_keeps_secret_format_witness :
  Forall (λ a, secretOk (acc_totp a))
    (accounts (confirm Samples.fresh "a@x.com|pw|bad
b@x.com:pw|jbswy3dpehpk3pxpjbswy3dpehpk3pxp|x" "|" true Samples.withSecret).2).
Proof.
  apply (text_import_keeps_secret_format Samples.fresh "a@x.com|pw|bad
b@x.com:pw|jbswy3dpehpk3pxpjbswy3dpehpk3pxp|x" "|" true Samples.withSecret).
  constructor; [right; by vm_compute|constructor].
Defined.

(** X30. A text import accounts for every line of the file that is neither
    blank nor a comment: when accounts were parsed, the added, updated and
    skipped counts and the parser's errors add up to the number of such
    lines; when none was parsed, every such line is an error and the store
    is left as it was. *)
Theorem text_import_accounts_for_every_line (fresh : nat → string * Z)
    (text delimiter : string) (hasTOTP : bool) (ds : DataStore) :
  let r := confirm fresh text delimiter hasTOTP ds in
  let lines := List.filter significant (split newline text) in
  match r.1.2 with
  | Some stats =>
      (added stats + updated stats + skipped stats + length r.1.1 = length lines)%nat
  | None => length r.1.1 = length lines ∧ r.2 = ds
  end.
Proof.
  intros r lines. subst r lines. unfold confirm, parse.
  destruct (parseFrom_inv delimiter hasTOTP (split newline text) 0 [] [] [] eq_refl)
    as (_ & H2 & _). cbn zeta in H2.
  set (result := parseFrom delimiter hasTOTP 0 (split newline text) [] []) in *.
  destruct (Nat.eqb_spec (length result.1) 0) as [E|E]; cbn [fst snd].
  - split; [|done]. rewrite E in H2. simpl in H2. lia.
  - destruct (import_fold fresh result.1 ds (mkStats 0 0 0)) as (H1 & _).
    pose proof (importAccounts_fold fresh result.1 ds) as [Hst _].
    rewrite Hst. cbn zeta in H1. simpl in H1, H2. lia.
Qed.

End TextImport.
